(** * Compaction planner, executor and change-set applier of the sharded
    LSM engine (package [sdb], file [compaction.go]) and the write batch
    of the engine.

    The development is a shallow embedding: every Go function that a
    property talks about is transcribed as a Rocq function over explicit
    state, and the properties are proved about those transcriptions. *)

From Stdlib Require Import ZArith NArith QArith String List Bool Lia OrdersEx.
From stdpp Require Import base list gmap strings sorting.

(** ** Machine integers *)

(** Go's [int] and [int64] are 64-bit two's complement; arithmetic wraps. *)
Definition wrap64 (z : Z) : Z := ((z + 2 ^ 63) mod 2 ^ 64 - 2 ^ 63)%Z.

(** [uint64] arithmetic wraps modulo 2^64. *)
Definition wrapU64 (n : N) : N := (n mod 2 ^ 64)%N.

(** ** Byte strings

    A Go [[]byte] is modelled as a [string] (a list of 8-bit characters);
    [bytes.Compare] is the lexicographic order on unsigned bytes, which is
    [String_as_OT.compare]. *)
Module bytes.

Definition Compare (a b : string) : comparison := String_as_OT.compare a b.

Definition lt (a b : string) : Prop := Compare a b = Lt.
Definition le (a b : string) : Prop := Compare a b <> Gt.

Local Ltac cases a b :=
    destruct (String_as_OT.compare_spec a b) as [?E|?L|?L];
    unfold String_as_OT.eq in *; subst.

Local Ltac absurd_lt :=
    exfalso;
    match goal with
    | H : String_as_OT.lt ?a ?a |- _ => exact (irreflexivity String_as_OT.lt a H)
    | H1 : String_as_OT.lt ?a ?b, H2 : String_as_OT.lt ?b ?a |- _ =>
        exact (irreflexivity String_as_OT.lt a (transitivity H1 H2))
    end.

Lemma compare_refl a : Compare a a = Eq.
Proof. unfold Compare. cases a a; trivial; absurd_lt. Qed.

Lemma compare_eq a b : Compare a b = Eq <-> a = b.
Proof.
    split; [|intros ->; apply compare_refl].
    unfold Compare. cases a b; congruence.
Qed.

Lemma compare_gt_lt a b : Compare a b = Gt <-> Compare b a = Lt.
Proof.
    unfold Compare. split; intros H.
    - cases a b; try discriminate. cases b a; trivial; absurd_lt.
    - cases b a; try discriminate. cases a b; trivial; absurd_lt.
Qed.

Lemma lt_trans a b c : lt a b -> lt b c -> lt a c.
Proof.
    unfold lt, Compare. intros H1 H2.
    cases a b; try discriminate. cases b c; try discriminate.
    assert (String_as_OT.lt a c) by (etransitivity; eassumption).
    cases a c; trivial; absurd_lt.
Qed.

Lemma lt_irrefl a : ~ lt a a.
Proof. unfold lt. rewrite compare_refl. discriminate. Qed.

Lemma le_refl a : le a a.
Proof. unfold le. rewrite compare_refl. discriminate. Qed.

Lemma le_lt_or_eq a b : le a b <-> lt a b \/ a = b.
Proof.
    unfold le, lt. rewrite <- compare_eq.
    destruct (Compare a b); split; intros; try tauto; try congruence.
    destruct H; discriminate.
Qed.

Lemma le_trans a b c : le a b -> le b c -> le a c.
Proof.
    rewrite !le_lt_or_eq. intros [H1| ->] [H2| ->]; eauto using lt_trans.
Qed.

Lemma lt_le_trans a b c : lt a b -> le b c -> lt a c.
Proof. rewrite le_lt_or_eq. intros H1 [H2| ->]; eauto using lt_trans. Qed.

Lemma le_lt_trans a b c : le a b -> lt b c -> lt a c.
Proof. rewrite le_lt_or_eq. intros [H1| ->] H2; eauto using lt_trans. Qed.

Lemma le_neq_lt a b : le a b -> a <> b -> lt a b.
Proof. rewrite le_lt_or_eq. tauto. Qed.

Lemma lt_neq a b : lt a b -> a <> b.
Proof. intros H ->. exact (lt_irrefl _ H). Qed.

Lemma empty_le a : le "" a.
Proof. destruct a; unfold le, Compare; simpl; discriminate. Qed.

End bytes.

(** ** Keys and values (package [y])

    Modelled from the spec: the key and value types belong to the table
    library the engine is built on; section 3 of the specification gives
    the key as a pair of a user key and a 64-bit version, ordered by user
    key ascending and, among equal user keys, by version descending. The
    helper methods are the ones [compaction.go] calls on keys. *)
Module y.

Record Key := mkKey { UserKey : string; Version : N }.

(** [k.IsEmpty()]: the user key has length zero. *)
Definition IsEmpty (k : Key) : bool := String.eqb (UserKey k) "".

(** [k.SameUserKey(k2)]: the user keys are byte-wise equal. *)
Definition SameUserKey (k k2 : Key) : bool := String.eqb (UserKey k) (UserKey k2).

(** [k.Reset()]: truncate the user key and clear the version. *)
Definition Reset (k : Key) : Key := mkKey "" 0.

(** [k.Copy(k2)]: overwrite [k] with the contents of [k2]. *)
Definition Copy (k k2 : Key) : Key := mkKey (UserKey k2) (Version k2).

(** [k.Compare(k2)]: user key ascending, then version descending. *)
Definition Compare (k k2 : Key) : comparison :=
    match bytes.Compare (UserKey k) (UserKey k2) with
    | Eq => N.compare (Version k2) (Version k)
    | c => c
    end.

(** The zero value of a key ([var lastKey, skipKey y.Key]). *)
Definition zeroKey : Key := mkKey "" 0.

Record ValueStruct := mkValue {
    Meta : N;            (* one byte *)
    UserMeta : string;
    Value : string;
    VVersion : N         (* the field [Version] of the value *)
}.

(** Modelled from the spec: the tombstone bit carried by [meta]. *)
Definition bitDelete : N := 1.

(** [isDeleted(meta)]: [meta & bitDelete > 0]. *)
Definition isDeleted (meta : N) : bool := (0 <? N.land meta bitDelete)%N.

Lemma SameUserKey_true k k2 : SameUserKey k k2 = true <-> UserKey k = UserKey k2.
Proof. apply String.eqb_eq. Qed.

Lemma SameUserKey_false k k2 : SameUserKey k k2 = false <-> UserKey k <> UserKey k2.
Proof. apply String.eqb_neq. Qed.

Lemma IsEmpty_true k : IsEmpty k = true <-> UserKey k = "".
Proof. apply String.eqb_eq. Qed.

Lemma IsEmpty_false k : IsEmpty k = false <-> UserKey k <> "".
Proof. apply String.eqb_neq. Qed.

End y.

(** ** Tables (package [table])

    [table.Table] is an interface; the engine only consumes its query
    surface. The interface becomes a type class, so every function below
    is generic in the table implementation. *)
Module table.

Class Table (T : Type) := {
    ID : T -> N;
    Smallest : T -> y.Key;
    Biggest : T -> y.Key;
    Size : T -> Z;
    HasOverlap : T -> y.Key -> y.Key -> bool -> bool
}.

End table.

(** An entry yielded by an iterator: the key with its value. *)
Record Entry := mkEntry { ekey : y.Key; evalue : y.ValueStruct }.

Definition userKeyOf (e : Entry) : string := y.UserKey (ekey e).

(** ** Compaction definitions ([sdb/options.go], [sdb/compaction.go]) *)

(** [Decision]: what a compaction filter decides for an entry. *)
Inductive Decision := DecisionKeep | DecisionMarkTombstone | DecisionDrop.

(** [CompactionFilter.Filter(cf, key, val, userMeta)]. *)
Definition CompactionFilter : Type := Z -> string -> string -> string -> Decision.

(** [keyRange] *)
Record keyRange := mkKeyRange { left : y.Key; right : y.Key; inf : bool }.

(** [CompactDef]: the fields of the job that planning, execution and
    installation read. [MaxTableSize] is [cd.Opt.MaxTableSize]; the
    directory, the rate limiter and the object-storage options only
    parameterise file I/O, and the index and size bookkeeping of
    [fillTables] is only printed. *)
Record CompactDef (T : Type) := mkCompactDef {
  CF : Z;
  Level : Z;
  Top : list T;
  Bot : list T;
  SkippedTbls : list T;
  SafeTS : N;
  Filter : option CompactionFilter;
  HasOverlap : bool;
  MaxTableSize : Z;
  thisRange : keyRange;
  nextRange : keyRange
}.
Arguments mkCompactDef {T}.
Arguments CF {T}. Arguments Level {T}. Arguments Top {T}. Arguments Bot {T}.
Arguments SkippedTbls {T}. Arguments SafeTS {T}. Arguments Filter {T}.
Arguments HasOverlap {T}. Arguments MaxTableSize {T}.
Arguments thisRange {T}. Arguments nextRange {T}.

(** [y.CompactionStats] and [DiscardStats]: the accounting of a job. *)
Record CompactionStats := mkStats {
  KeysRead : Z; BytesRead : Z; KeysWrite : Z; BytesWrite : Z
}.

Record DiscardStats := mkDiscard { numSkips : Z; skippedBytes : Z }.

(** [ds.collect(vs)] *)
Definition collect (ds : DiscardStats) (vs : y.ValueStruct) : DiscardStats :=
  mkDiscard
    (wrap64 (numSkips ds + 1))
    (wrap64 (skippedBytes ds
             + wrap64 (Z.of_nat (String.length (y.Value vs))
                       + Z.of_nat (String.length (y.UserMeta vs))))).

(** [sstable.BuildResult]: the file id behind [FileName], the key range
    and the entries that were added to the builder, in order. *)
Record BuildResult := mkBuildResult {
  FileName : N;
  ResSmallest : y.Key;
  ResBiggest : y.Key;
  Entries : list Entry
}.

(** [shouldFinishFile] *)
Definition shouldFinishFile (lastKey : y.Key) (currentSize maxSize : Z) : bool :=
  if y.IsEmpty lastKey then false
  else negb (y.IsEmpty lastKey) && (maxSize <? currentSize)%Z.

Section Executor.

Context {T : Type} `{table.Table T}.

(** The sizes come from the table library: [vs.EncodedSize()],
    [key.Len()] and [builder.EstimateSize()] (a function of what the
    builder holds). *)
Variable EncodedSize : y.ValueStruct -> Z.
Variable KeyLen : y.Key -> Z.
Variable EstimateSize : list Entry -> Z.

(** The index [i] that the loop of [overSkipTables] reaches. *)
Fixpoint skipIndex (key : y.Key) (skippedTables : list T) : nat :=
  match skippedTables with
  | [] => 0
  | t :: rest =>
      match y.Compare key (table.Biggest t) with
      | Gt => S (skipIndex key rest)
      | _ => 0
      end
  end.

(** [overSkipTables]: returns [skippedTables[i:], i > 0]. *)
Definition overSkipTables (key : y.Key) (skippedTables : list T) : list T * bool :=
  let i := skipIndex key skippedTables in
  (drop i skippedTables, (0 <? i)%nat).

(** The variables of [CompactTables] that live across iterations. The
    builder is the list of entries added since it was last reset. *)
Record loopState := mkLoop {
  skippedTbls : list T;
  lastKey : y.Key;
  skipKey : y.Key;
  builder : list Entry;
  stats : CompactionStats;
  discardStats : DiscardStats
}.

Inductive control := Next (st : loopState) | Break (st : loopState).

Definition builderEmpty (b : list Entry) : bool :=
  match b with [] => true | _ => false end.

(** The user-key boundary block: [None] is [break]; otherwise the new
    [skippedTbls] and [lastKey]. The first component is [skippedTbls]
    as it stands when the block is left either way. *)
Definition boundary (cd : CompactDef T) (key : y.Key) (kvSize : Z) (st : loopState)
  : list T * option y.Key :=
  if y.SameUserKey key (lastKey st) then (skippedTbls st, Some (lastKey st))
  else
    let '(skipped, over) :=
      match skippedTbls st with
      | [] => (skippedTbls st, false)
      | _ => overSkipTables key (skippedTbls st)
      end in
    if over && negb (builderEmpty (builder st)) then (skipped, None)
    else if shouldFinishFile (lastKey st)
              (wrap64 (EstimateSize (builder st) + kvSize)) (MaxTableSize cd)
    then (skipped, None)
    else (skipped, Some (y.Copy (lastKey st) key)).

(** One pass through the body of the inner [for] loop on the entry the
    iterator stands on. [Next] covers both [continue] and reaching the
    end of the body (the iterator advances); [Break] leaves it in
    place. *)
Definition step (cd : CompactDef T) (e : Entry) (st : loopState) : control :=
  let key := ekey e in
  let vs := evalue e in
  let kvSize := wrap64 (EncodedSize vs + KeyLen key) in
  let stats1 := mkStats (wrap64 (KeysRead (stats st) + 1))
                        (wrap64 (BytesRead (stats st) + kvSize))
                        (KeysWrite (stats st)) (BytesWrite (stats st)) in
  if negb (y.IsEmpty (skipKey st)) && y.SameUserKey key (skipKey st) then
    Next (mkLoop (skippedTbls st) (lastKey st) (skipKey st) (builder st)
                 stats1 (collect (discardStats st) vs))
  else
    let skipKey1 :=
      if negb (y.IsEmpty (skipKey st)) then y.Reset (skipKey st) else skipKey st in
    match boundary cd key kvSize st with
    | (skipped, None) =>
        Break (mkLoop skipped (lastKey st) skipKey1 (builder st) stats1 (discardStats st))
    | (skipped, Some lastKey1) =>
        let add := fun skipKey2 =>
          Next (mkLoop skipped lastKey1 skipKey2 (builder st ++ [e])
                  (mkStats (KeysRead stats1) (BytesRead stats1)
                           (wrap64 (KeysWrite stats1 + 1))
                           (wrap64 (BytesWrite stats1 + kvSize)))
                  (discardStats st)) in
        if (y.Version key <=? SafeTS cd)%N then
          let skipKey2 := y.Copy skipKey1 key in
          if y.isDeleted (y.Meta vs) then
            if negb (HasOverlap cd)
            then Next (mkLoop skipped lastKey1 skipKey2 (builder st) stats1 (discardStats st))
            else add skipKey2
          else
            match Filter cd with
            | Some f =>
                match f (CF cd) (y.UserKey key) (y.Value vs) (y.UserMeta vs) with
                | DecisionMarkTombstone =>
                    Next (mkLoop skipped lastKey1 skipKey2
                            (if HasOverlap cd
                             then builder st ++ [mkEntry key (y.mkValue y.bitDelete "" "" 0)]
                             else builder st)
                            stats1 (collect (discardStats st) vs))
                | DecisionDrop =>
                    Next (mkLoop skipped lastKey1 skipKey2 (builder st)
                            stats1 (collect (discardStats st) vs))
                | DecisionKeep => add skipKey2
                end
            | None => add skipKey2
            end
        else add skipKey1
    end.

(** The inner loop [for ; it.Valid(); y.NextAllVersion(it)]: runs until
    the iterator is exhausted or the body breaks, and returns what is
    left of the iterator. *)
Fixpoint fileLoop (cd : CompactDef T) (it : list Entry) (st : loopState)
  : list Entry * loopState :=
  match it with
  | [] => ([], st)
  | e :: rest =>
      match step cd e st with
      | Next st' => fileLoop cd rest st'
      | Break st' => (it, st')
      end
  end.

(** [builder.Finish()]: the result spans the first and the last key
    added. *)
Definition finish (filename : N) (b : list Entry) : BuildResult :=
  mkBuildResult filename
    (from_option ekey y.zeroKey (head b))
    (from_option ekey y.zeroKey (last b))
    b.

(** The outer loop [for it.Valid()]. Every round takes a fresh file id
    from the allocator ([latest] is its counter), resets the builder and
    [lastKey], runs the inner loop and keeps the table unless the
    builder stayed empty. [fuel] bounds the number of rounds. *)
Fixpoint tablesLoop (fuel : nat) (cd : CompactDef T) (it : list Entry)
    (st : loopState) (latest : N) (buildResults : list BuildResult)
  : option (list BuildResult * loopState * N) :=
  match it with
  | [] => Some (buildResults, st, latest)
  | _ :: _ =>
      match fuel with
      | O => None
      | S fuel' =>
          let filename := wrapU64 (latest + 1) in
          let st0 := mkLoop (skippedTbls st) (y.Reset (lastKey st)) (skipKey st) []
                            (stats st) (discardStats st) in
          let '(it', st') := fileLoop cd it st0 in
          if builderEmpty (builder st')
          then tablesLoop fuel' cd it' st' filename buildResults
          else tablesLoop fuel' cd it' st' filename
                 (buildResults ++ [finish filename (builder st')])
      end
  end.

(** [CompactTables(cd, stats, discardStats, s3c)]. [it] is the sequence
    of entries that the merge iterator of [cd.buildIterator()] yields;
    [latest] is the state of the id allocator. Files are kept in memory,
    so no I/O error arises. *)
Definition CompactTables (cd : CompactDef T) (it : list Entry) (latest : N)
    (stats0 : CompactionStats) (discard0 : DiscardStats)
  : option (list BuildResult * loopState * N) :=
  tablesLoop (S (length it)) cd it
    (mkLoop (SkippedTbls cd) y.zeroKey y.zeroKey [] stats0 discard0) latest [].

(** All entries written by a compaction, table after table. *)
Definition outputEntries (results : list BuildResult) : list Entry :=
  concat (map Entries results).


(** *** What a compaction writes, independently of table rotation *)

(** What the rules below [SafeTS] leave of the entry [e] when it is the
    newest version of its user key at or below [SafeTS]. *)
Definition retained (cd : CompactDef T) (e : Entry) : list Entry :=
  if y.isDeleted (y.Meta (evalue e)) then
    if HasOverlap cd then [e] else []
  else
    match Filter cd with
    | Some f =>
        match f (CF cd) (userKeyOf e) (y.Value (evalue e)) (y.UserMeta (evalue e)) with
        | DecisionKeep => [e]
        | DecisionMarkTombstone =>
            if HasOverlap cd
            then [mkEntry (ekey e) (y.mkValue y.bitDelete "" "" 0)] else []
        | DecisionDrop => []
        end
    | None => [e]
    end.

(** The entries written from [it] on when [skipKey] holds [sk]. *)
Fixpoint survivors (cd : CompactDef T) (sk : y.Key) (it : list Entry) : list Entry :=
  match it with
  | [] => []
  | e :: rest =>
      if negb (y.IsEmpty sk) && y.SameUserKey (ekey e) sk then survivors cd sk rest
      else
        let sk1 := if negb (y.IsEmpty sk) then y.Reset sk else sk in
        if (y.Version (ekey e) <=? SafeTS cd)%N
        then retained cd e ++ survivors cd (y.Copy sk1 (ekey e)) rest
        else e :: survivors cd sk1 rest
  end.

Lemma step_Next_survivors cd e st st' rest :
  step cd e st = Next st' ->
  builder st' ++ survivors cd (skipKey st') rest
  = builder st ++ survivors cd (skipKey st) (e :: rest).
Proof.
  unfold step. cbn [survivors]. unfold retained, userKeyOf.
  destruct (negb (y.IsEmpty (skipKey st)) && y.SameUserKey (ekey e) (skipKey st)).
  { intros [= <-]. reflexivity. }
  destruct (boundary cd (ekey e) _ st) as [skipped [lk|]]; [|discriminate].
  destruct (y.Version (ekey e) <=? SafeTS cd)%N.
  - destruct (y.isDeleted (y.Meta (evalue e))).
    + destruct (HasOverlap cd); intros [= <-]; cbn; rewrite <- ?app_assoc; reflexivity.
    + destruct (Filter cd) as [f|].
      * destruct (f _ _ _ _); [| destruct (HasOverlap cd) |];
          intros [= <-]; cbn; rewrite <- ?app_assoc; reflexivity.
      * intros [= <-]; cbn; rewrite <- ?app_assoc; reflexivity.
  - intros [= <-]; cbn; rewrite <- ?app_assoc; reflexivity.
Qed.

Lemma step_Break_survivors cd e st st' rest :
  step cd e st = Break st' ->
  builder st' = builder st /\
  survivors cd (skipKey st') (e :: rest) = survivors cd (skipKey st) (e :: rest).
Proof.
  unfold step. cbn [survivors].
  destruct (negb (y.IsEmpty (skipKey st)) && y.SameUserKey (ekey e) (skipKey st)) eqn:G.
  { discriminate. }
  destruct (boundary cd (ekey e) _ st) as [skipped [lk|]].
  { repeat case_match; discriminate. }
  intros [= <-]. cbn. split; [reflexivity|].
  destruct (y.IsEmpty (skipKey st)) eqn:E; cbn.
  - rewrite E. cbn. reflexivity.
  - reflexivity.
Qed.

Lemma fileLoop_survivors cd it : forall st it' st',
  fileLoop cd it st = (it', st') ->
  builder st' ++ survivors cd (skipKey st') it'
  = builder st ++ survivors cd (skipKey st) it.
Proof.
  induction it as [|e rest IH]; intros st it' st'.
  - intros [= <- <-]. reflexivity.
  - cbn [fileLoop]. destruct (step cd e st) as [st1|st1] eqn:S.
    + intros L. rewrite (IH _ _ _ L). eapply step_Next_survivors; eauto.
    + intros [= <- <-]. destruct (step_Break_survivors _ _ _ _ rest S) as [-> ->].
      reflexivity.
Qed.


Lemma outputEntries_snoc results r :
  outputEntries (results ++ [r]) = outputEntries results ++ Entries r.
Proof.
  unfold outputEntries. rewrite map_app, concat_app. cbn.
  rewrite app_nil_r. reflexivity.
Qed.

Lemma tablesLoop_survivors cd fuel : forall it st latest results results' st' latest',
  tablesLoop fuel cd it st latest results = Some (results', st', latest') ->
  outputEntries results' = outputEntries results ++ survivors cd (skipKey st) it.
Proof.
  induction fuel as [|fuel IH]; intros it st latest results results' st' latest'.
  - destruct it; cbn; [|discriminate].
    intros [= <- <- <-]. rewrite app_nil_r. reflexivity.
  - destruct it as [|e rest]; cbn [tablesLoop].
    { intros [= <- <- <-]. cbn. rewrite app_nil_r. reflexivity. }
    destruct (fileLoop cd (e :: rest) _) as [it1 st1] eqn:L.
    apply fileLoop_survivors in L. cbn [builder skipKey] in L.
    destruct (builder st1) as [|b bs] eqn:B; cbn [builderEmpty]; intros R;
      apply IH in R; rewrite R.
    + f_equal. exact L.
    + rewrite outputEntries_snoc. cbn [finish Entries].
      rewrite <- app_assoc. f_equal. exact L.
Qed.

(** *** The executor terminates *)

Lemma step_fresh cd e st :
  builder st = [] -> y.IsEmpty (lastKey st) = true ->
  exists st', step cd e st = Next st'.
Proof.
  intros B E. unfold step.
  destruct (negb (y.IsEmpty (skipKey st)) && y.SameUserKey (ekey e) (skipKey st));
    [eauto|].
  unfold boundary, shouldFinishFile. rewrite B, E. cbn [builderEmpty negb].
  destruct (y.SameUserKey (ekey e) (lastKey st)).
  - repeat case_match; eauto.
  - destruct (match skippedTbls st with [] => _ | _ => _ end) as [skipped over].
    rewrite andb_false_r. repeat case_match; eauto.
Qed.

Lemma fileLoop_length cd it : forall st it' st',
  fileLoop cd it st = (it', st') -> length it' <= length it.
Proof.
  induction it as [|e rest IH]; intros st it' st'; cbn [fileLoop].
  - intros [= <- <-]. reflexivity.
  - destruct (step cd e st) as [st1|st1].
    + intros L. apply IH in L. cbn. lia.
    + intros [= <- <-]. reflexivity.
Qed.

Lemma fileLoop_fresh_length cd e rest st it' st' :
  builder st = [] -> y.IsEmpty (lastKey st) = true ->
  fileLoop cd (e :: rest) st = (it', st') -> length it' <= length rest.
Proof.
  intros B E. cbn [fileLoop].
  destruct (step_fresh cd e st B E) as [st1 ->].
  apply fileLoop_length.
Qed.

Lemma tablesLoop_total cd fuel : forall it st latest results,
  length it < fuel ->
  exists r, tablesLoop fuel cd it st latest results = Some r.
Proof.
  induction fuel as [|fuel IH]; intros it st latest results Hlen; [lia|].
  destruct it as [|e rest]; cbn [tablesLoop]; [eauto|].
  destruct (fileLoop cd (e :: rest) _) as [it1 st1] eqn:L.
  apply fileLoop_fresh_length in L; [|reflexivity..].
  cbn in Hlen. destruct (builderEmpty (builder st1)); apply IH; lia.
Qed.


(** *** The shape of one step *)

Lemma boundary_Some cd key kvSize st skipped lk :
  boundary cd key kvSize st = (skipped, Some lk) -> y.UserKey lk = y.UserKey key.
Proof.
  unfold boundary. destruct (y.SameUserKey key (lastKey st)) eqn:E.
  - intros [= <- <-]. symmetry. apply y.SameUserKey_true. exact E.
  - destruct (match skippedTbls st with [] => _ | _ => _ end) as [sk over].
    repeat case_match; intros [= <- <-]. reflexivity.
Qed.

Lemma boundary_None cd key kvSize st skipped :
  boundary cd key kvSize st = (skipped, None) ->
  y.UserKey key <> y.UserKey (lastKey st).
Proof.
  unfold boundary. destruct (y.SameUserKey key (lastKey st)) eqn:E.
  - discriminate.
  - intros _. apply y.SameUserKey_false. exact E.
Qed.

Lemma step_Next_shape cd e st st' :
  step cd e st = Next st' ->
  (lastKey st' = lastKey st /\ builder st' = builder st) \/
  (y.UserKey (lastKey st') = userKeyOf e /\
   (builder st' = builder st \/
    exists x, builder st' = builder st ++ [x] /\ ekey x = ekey e)).
Proof.
  unfold step.
  destruct (negb (y.IsEmpty (skipKey st)) && y.SameUserKey (ekey e) (skipKey st)).
  { intros [= <-]. left. split; reflexivity. }
  destruct (boundary cd (ekey e) _ st) as [skipped [lk|]] eqn:B; [|discriminate].
  apply boundary_Some in B. intros R. right.
  repeat case_match; injection R as <-; cbn; (split; [exact B|]); eauto.
Qed.

Lemma step_Break_shape cd e st st' :
  step cd e st = Break st' ->
  builder st' = builder st /\ userKeyOf e <> y.UserKey (lastKey st).
Proof.
  unfold step.
  destruct (negb (y.IsEmpty (skipKey st)) && y.SameUserKey (ekey e) (skipKey st)).
  { discriminate. }
  destruct (boundary cd (ekey e) _ st) as [skipped [lk|]] eqn:B.
  { repeat case_match; discriminate. }
  apply boundary_None in B. intros [= <-]. split; [reflexivity|exact B].
Qed.

(** *** The order in which the merge iterator yields entries *)

(** The iterator yields keys in the order of [y.Key.Compare]: user key
    ascending, version descending. *)
Definition keyLe (a b : Entry) : Prop := y.Compare (ekey a) (ekey b) <> Gt.

Definition IterOrdered (it : list Entry) : Prop := Sorted keyLe it.

Definition userKeyLe (a b : Entry) : Prop := bytes.le (userKeyOf a) (userKeyOf b).

Lemma keyLe_cases a b :
  keyLe a b <->
  bytes.lt (userKeyOf a) (userKeyOf b) \/
  (userKeyOf a = userKeyOf b /\ (y.Version (ekey b) <= y.Version (ekey a))%N).
Proof.
  unfold keyLe, y.Compare, userKeyOf, bytes.lt.
  destruct (bytes.Compare (y.UserKey (ekey a)) (y.UserKey (ekey b))) eqn:C.
  - apply bytes.compare_eq in C. rewrite N.compare_le_iff. split.
    + intros L. right. split; [exact C|exact L].
    + intros [D|[_ L]]; [discriminate|exact L].
  - split; [intros _; left; reflexivity|intros _; discriminate].
  - split; [intros N; destruct (N eq_refl)|].
    intros [D|[E _]]; [discriminate|].
    apply bytes.compare_eq in E. congruence.
Qed.

Lemma keyLe_trans : Transitive keyLe.
Proof.
  intros a b c. rewrite !keyLe_cases.
  intros [L1|[E1 V1]] [L2|[E2 V2]].
  - left. eapply bytes.lt_trans; eassumption.
  - left. rewrite <- E2. exact L1.
  - left. rewrite E1. exact L2.
  - right. split; [congruence|lia].
Qed.

Lemma keyLe_userKeyLe a b : keyLe a b -> userKeyLe a b.
Proof.
  rewrite keyLe_cases. unfold userKeyLe. rewrite bytes.le_lt_or_eq. tauto.
Qed.

Lemma IterOrdered_strong it : IterOrdered it -> StronglySorted keyLe it.
Proof. apply Sorted_StronglySorted. exact keyLe_trans. Qed.

Lemma IterOrdered_userKeys it : IterOrdered it -> StronglySorted userKeyLe it.
Proof.
  intros S. apply IterOrdered_strong in S.
  induction S as [|a l S IH F]; constructor; [exact IH|].
  eapply Forall_impl; [exact F|]. intros b. apply keyLe_userKeyLe.
Qed.

(** *** Versions at or below [SafeTS] *)

(** [below cd k e]: [e] is a version of user key [k] at or below [SafeTS]. *)
Definition below (cd : CompactDef T) (k : string) (e : Entry) : bool :=
  String.eqb (userKeyOf e) k && (y.Version (ekey e) <=? SafeTS cd)%N.

Lemma filter_all_false {A : Type} (f : A -> bool) (l : list A) :
  (forall x, In x l -> f x = false) -> List.filter f l = [].
Proof.
  induction l as [|a l IH]; intros F; [reflexivity|]. cbn.
  rewrite (F a) by (left; reflexivity). apply IH.
  intros x I. apply F. right. exact I.
Qed.

Lemma retained_keys cd e x : In x (retained cd e) -> ekey x = ekey e.
Proof.
  unfold retained. repeat case_match; cbn; intros I; try contradiction;
    destruct I as [<-|[]]; reflexivity.
Qed.

Lemma retained_cases cd e :
  retained cd e = [] \/ exists x, retained cd e = [x] /\ ekey x = ekey e.
Proof.
  unfold retained. repeat case_match; eauto.
Qed.

Lemma filter_below_retained cd k e :
  below cd k e = true -> List.filter (below cd k) (retained cd e) = retained cd e.
Proof.
  intros B. destruct (retained_cases cd e) as [->|[x [R K]]]; [reflexivity|].
  rewrite R. cbn. unfold below, userKeyOf in *. rewrite K, B. reflexivity.
Qed.

Lemma filter_below_retained_other cd k e :
  userKeyOf e <> k -> List.filter (below cd k) (retained cd e) = [].
Proof.
  intros N. destruct (retained_cases cd e) as [->|[x [R K]]]; [reflexivity|].
  rewrite R. cbn. unfold below, userKeyOf in *. rewrite K.
  apply String.eqb_neq in N. rewrite N. reflexivity.
Qed.

Lemma survivors_keys cd it : forall sk x,
  In x (survivors cd sk it) -> exists e, In e it /\ ekey x = ekey e.
Proof.
  induction it as [|e rest IH]; intros sk x; cbn [survivors]; [intros []|].
  destruct (negb (y.IsEmpty sk) && y.SameUserKey (ekey e) sk).
  { intros I. destruct (IH _ _ I) as [e' [I' K]]. exists e'. split; [right|]; assumption. }
  destruct (y.Version (ekey e) <=? SafeTS cd)%N.
  - intros I. apply in_app_or in I as [I|I].
    + exists e. split; [left; reflexivity|]. eapply retained_keys; eassumption.
    + destruct (IH _ _ I) as [e' [I' K]]. exists e'. split; [right|]; assumption.
  - intros [<-|I].
    + exists e. split; [left|]; reflexivity.
    + destruct (IH _ _ I) as [e' [I' K]]. exists e'. split; [right|]; assumption.
Qed.

(** While [skipKey] holds the user key [k], every further version of [k]
    is dropped. *)
Lemma survivors_skipped cd k it : forall sk,
  y.UserKey sk = k -> k <> "" ->
  StronglySorted userKeyLe it ->
  Forall (fun e => bytes.le k (userKeyOf e)) it ->
  forall x, In x (survivors cd sk it) -> userKeyOf x <> k.
Proof.
  induction it as [|e rest IH]; intros sk Hsk Hk S F x I; [destruct I|].
  apply StronglySorted_inv in S as [S Fe].
  apply Forall_cons in F as [Fk F].
  destruct (survivors_keys _ _ _ _ I) as [e' [I' K]].
  cbn [survivors] in I.
  assert (E : y.IsEmpty sk = false) by (apply y.IsEmpty_false; congruence).
  rewrite E in I. cbn [negb andb] in I.
  destruct (y.SameUserKey (ekey e) sk) eqn:Q.
  { eapply IH; eassumption. }
  apply y.SameUserKey_false in Q. rewrite Hsk in Q.
  assert (L : bytes.lt k (userKeyOf e)).
  { apply bytes.le_neq_lt; [exact Fk|]. unfold userKeyOf. congruence. }
  unfold userKeyOf at 1. rewrite K. fold (userKeyOf e').
  destruct I' as [<-|I'].
  - intros C. apply (bytes.lt_neq _ _ L). symmetry. exact C.
  - rewrite List.Forall_forall in Fe. specialize (Fe _ I').
    intros C. apply (bytes.lt_irrefl k).
    eapply bytes.lt_le_trans; [exact L|]. unfold userKeyLe in Fe.
    rewrite <- C. exact Fe.
Qed.

(** The versions of [k] at or below [SafeTS] that are written: what the
    rules leave of the first (newest) of them, and nothing else. *)
Lemma survivors_below cd k it : forall sk,
  k <> "" -> y.UserKey sk <> k ->
  StronglySorted userKeyLe it ->
  List.filter (below cd k) (survivors cd sk it)
  = match List.filter (below cd k) it with
    | [] => []
    | e0 :: _ => retained cd e0
    end.
Proof.
  induction it as [|e rest IH]; intros sk Hk Hsk S; [reflexivity|].
  apply StronglySorted_inv in S as [S Fe].
  cbn [survivors List.filter].
  destruct (negb (y.IsEmpty sk) && y.SameUserKey (ekey e) sk) eqn:G.
  { apply andb_prop in G as [_ G]. apply y.SameUserKey_true in G.
    assert (B : below cd k e = false).
    { unfold below, userKeyOf. rewrite G.
      apply String.eqb_neq in Hsk. rewrite Hsk. reflexivity. }
    rewrite B. apply IH; assumption. }
  set (sk1 := if negb (y.IsEmpty sk) then y.Reset sk else sk).
  assert (Hsk1 : y.UserKey sk1 <> k).
  { subst sk1. destruct (y.IsEmpty sk); cbn; [exact Hsk|congruence]. }
  unfold below at 2. fold (below cd k).
  destruct (y.Version (ekey e) <=? SafeTS cd)%N eqn:V.
  - rewrite List.filter_app.
    destruct (String.eqb (userKeyOf e) k) eqn:Q; cbn [andb].
    + apply String.eqb_eq in Q.
      rewrite filter_below_retained by (unfold below; rewrite V; apply String.eqb_eq in Q; rewrite Q; reflexivity).
      assert (N : List.filter (below cd k) (survivors cd (y.Copy sk1 (ekey e)) rest) = []).
      { apply filter_all_false. intros x I. unfold below.
        assert (D : userKeyOf x <> k).
        { eapply (survivors_skipped cd k rest (y.Copy sk1 (ekey e))); eauto.
          eapply Forall_impl; [exact Fe|]. intros b. unfold userKeyLe.
          rewrite Q. trivial. }
        apply String.eqb_neq in D. rewrite D. reflexivity. }
      rewrite N. apply app_nil_r.
    + apply String.eqb_neq in Q.
      rewrite filter_below_retained_other by exact Q. cbn [app].
      apply IH; [exact Hk| |exact S]. cbn. exact Q.
  - rewrite andb_false_r. cbn [List.filter].
    assert (B : below cd k e = false) by (unfold below; rewrite V; apply andb_false_r).
    rewrite B. apply IH; assumption.
Qed.

Lemma filter_head_first {A : Type} (R : A -> A -> Prop) (f : A -> bool) (l : list A) :
  forall a l', StronglySorted R l -> List.filter f l = a :: l' -> Forall (R a) l'.
Proof.
  induction l as [|x l IH]; intros a l' S; [discriminate|].
  apply StronglySorted_inv in S as [S F]. cbn.
  destruct (f x).
  - intros [= <- <-]. apply List.Forall_forall. intros b I.
    apply List.filter_In in I as [I _].
    rewrite List.Forall_forall in F. apply F. exact I.
  - apply IH. exact S.
Qed.

Lemma below_inv cd k e :
  below cd k e = true -> userKeyOf e = k /\ (y.Version (ekey e) <= SafeTS cd)%N.
Proof.
  unfold below. intros B. apply andb_prop in B as [Q V].
  apply String.eqb_eq in Q. apply N.leb_le in V. split; assumption.
Qed.

(** In iterator order the first version of [k] at or below [SafeTS] is
    the newest one. *)
Lemma below_newest_first cd k it e0 older :
  IterOrdered it -> List.filter (below cd k) it = e0 :: older ->
  Forall (fun e => (y.Version (ekey e) <= y.Version (ekey e0))%N) older.
Proof.
  intros S E. apply IterOrdered_strong in S.
  pose proof (filter_head_first keyLe _ _ _ _ S E) as F.
  assert (B0 : below cd k e0 = true).
  { assert (I : In e0 (List.filter (below cd k) it)) by (rewrite E; left; reflexivity).
    apply List.filter_In in I as [_ I]. exact I. }
  apply below_inv in B0 as [K0 _].
  apply List.Forall_forall. intros e I.
  assert (B : below cd k e = true).
  { assert (I' : In e (List.filter (below cd k) it)) by (rewrite E; right; exact I).
    apply List.filter_In in I' as [_ I']. exact I'. }
  apply below_inv in B as [K _].
  rewrite List.Forall_forall in F. specialize (F _ I).
  apply keyLe_cases in F as [L|[_ V]]; [|exact V].
  exfalso. rewrite K0, K in L. exact (bytes.lt_irrefl _ L).
Qed.

Lemma CompactTables_total cd it latest stats0 discard0 :
  exists r, CompactTables cd it latest stats0 discard0 = Some r.
Proof. unfold CompactTables. apply tablesLoop_total. lia. Qed.

Lemma CompactTables_survivors cd it latest stats0 discard0 results st' latest' :
  CompactTables cd it latest stats0 discard0 = Some (results, st', latest') ->
  outputEntries results = survivors cd y.zeroKey it.
Proof.
  unfold CompactTables. intros R. apply tablesLoop_survivors in R. exact R.
Qed.

(** The versions of a non-empty user key at or below [SafeTS] that a
    compaction writes. *)
Lemma CompactTables_below cd it latest stats0 discard0 results st' latest' k :
  IterOrdered it -> k <> "" ->
  CompactTables cd it latest stats0 discard0 = Some (results, st', latest') ->
  List.filter (below cd k) (outputEntries results)
  = match List.filter (below cd k) it with
    | [] => []
    | e0 :: _ => retained cd e0
    end.
Proof.
  intros S Hk R. rewrite (CompactTables_survivors _ _ _ _ _ _ _ _ R).
  apply survivors_below; [exact Hk| |apply IterOrdered_userKeys; exact S].
  cbn. congruence.
Qed.

(** *** Table rotation *)

(** Every user key of [b] is smaller than every user key of [it]. *)
Definition allBefore (b it : list Entry) : Prop :=
  forall x y, In x b -> In y it -> bytes.lt (userKeyOf x) (userKeyOf y).

Definition tableBefore (r1 r2 : BuildResult) : Prop :=
  allBefore (Entries r1) (Entries r2).

Lemma fileLoop_boundary cd it : forall st it' st',
  StronglySorted userKeyLe it ->
  Forall (fun x => bytes.le (userKeyOf x) (y.UserKey (lastKey st))) (builder st) ->
  Forall (fun e => bytes.le (y.UserKey (lastKey st)) (userKeyOf e)) it ->
  fileLoop cd it st = (it', st') ->
  (exists pre, it = pre ++ it') /\
  allBefore (builder st') it' /\
  (forall x, In x (builder st') ->
     In x (builder st) \/ exists e, In e it /\ ekey x = ekey e).
Proof.
  induction it as [|e rest IH]; intros st it' st' S I1 I2; cbn [fileLoop].
  { intros [= <- <-]. split; [exists []; reflexivity|].
    split; [intros x y _ []|]. intros x I. left. exact I. }
  apply StronglySorted_inv in S as [S Fe].
  apply Forall_cons in I2 as [I2e I2].
  destruct (step cd e st) as [st1|st1] eqn:E.
  - intros L. apply step_Next_shape in E.
    assert (J : Forall (fun x => bytes.le (userKeyOf x) (y.UserKey (lastKey st1))) (builder st1)
                /\ Forall (fun e0 => bytes.le (y.UserKey (lastKey st1)) (userKeyOf e0)) rest
                /\ (forall x, In x (builder st1) -> In x (builder st) \/ ekey x = ekey e)).
    { destruct E as [[-> ->]|[K B]].
      - split; [exact I1|]. split; [exact I2|]. intros x I. left. exact I.
      - rewrite K. split; [|split].
        + assert (O : Forall (fun x => bytes.le (userKeyOf x) (userKeyOf e)) (builder st)).
          { eapply Forall_impl; [exact I1|]. intros x Hx. cbn in Hx.
            eapply bytes.le_trans; [exact Hx|exact I2e]. }
          destruct B as [->|[x [-> Kx]]]; [exact O|].
          apply Forall_app. split; [exact O|]. constructor; [|constructor].
          unfold userKeyOf. rewrite Kx. apply bytes.le_refl.
        + exact Fe.
        + intros x I. destruct B as [B|[x0 [B Kx]]]; rewrite B in I.
          * left. exact I.
          * apply in_app_or in I as [I|[<-|[]]]; [left; exact I|right; exact Kx]. }
    destruct J as [J1 [J2 J3]].
    destruct (IH _ _ _ S J1 J2 L) as [[pre P] [A K]].
    split; [exists (e :: pre); rewrite P; reflexivity|]. split; [exact A|].
    intros x I. destruct (K x I) as [I'|[e' [I' Ke]]].
    + destruct (J3 x I') as [I''|Kx]; [left; exact I''|].
      right. exists e. split; [left; reflexivity|exact Kx].
    + right. exists e'. split; [right; exact I'|exact Ke].
  - intros [= <- <-]. apply step_Break_shape in E as [B D]. rewrite B.
    split; [exists []; reflexivity|]. split; [|intros x I; left; exact I].
    assert (L : bytes.lt (y.UserKey (lastKey st)) (userKeyOf e)).
    { apply bytes.le_neq_lt; [exact I2e|congruence]. }
    intros x y0 Ix Iy. rewrite List.Forall_forall in I1.
    eapply bytes.le_lt_trans; [apply I1; exact Ix|].
    destruct Iy as [<-|Iy]; [exact L|].
    eapply bytes.lt_le_trans; [exact L|].
    rewrite List.Forall_forall in Fe. apply Fe. exact Iy.
Qed.

Lemma ForallOrdPairs_snoc {A : Type} (R : A -> A -> Prop) (l : list A) (a : A) :
  ForallOrdPairs R l -> Forall (fun x => R x a) l -> ForallOrdPairs R (l ++ [a]).
Proof.
  induction 1 as [|x l Fx FO IH]; intros F; cbn.
  - constructor; constructor.
  - apply Forall_cons in F as [Rx F]. constructor; [|apply IH; exact F].
    apply Forall_app. split; [exact Fx|]. constructor; [exact Rx|constructor].
Qed.

Lemma ForallOrdPairs_lookup {A : Type} (R : A -> A -> Prop) (l : list A) :
  ForallOrdPairs R l ->
  forall i j a b, i < j -> l !! i = Some a -> l !! j = Some b -> R a b.
Proof.
  induction 1 as [|x l Fx FO IH]; intros i j a b Lt Ha Hb; [discriminate|].
  destruct j as [|j]; [lia|]. cbn in Hb. destruct i as [|i]; cbn in Ha.
  - injection Ha as <-. rewrite List.Forall_forall in Fx. apply Fx.
    apply list_elem_of_In. eapply list_elem_of_lookup_2. exact Hb.
  - eapply (IH i j); [lia|eassumption..].
Qed.

Lemma StronglySorted_suffix {A : Type} (R : A -> A -> Prop) (pre l : list A) :
  StronglySorted R (pre ++ l) -> StronglySorted R l.
Proof.
  induction pre as [|a pre IH]; cbn; [trivial|].
  intros S. apply StronglySorted_inv in S as [S _]. apply IH. exact S.
Qed.

Lemma tablesLoop_ordered cd fuel : forall it st latest results results' st' latest',
  StronglySorted userKeyLe it ->
  ForallOrdPairs tableBefore results ->
  (forall r, In r results -> allBefore (Entries r) it) ->
  tablesLoop fuel cd it st latest results = Some (results', st', latest') ->
  ForallOrdPairs tableBefore results'.
Proof.
  induction fuel as [|fuel IH]; intros it st latest results results' st' latest' S FO Bf.
  { destruct it; cbn; [|discriminate]. intros [= <- <- <-]. exact FO. }
  destruct it as [|e rest]; cbn [tablesLoop].
  { intros [= <- <- <-]. exact FO. }
  destruct (fileLoop cd (e :: rest) _) as [it1 st1] eqn:L.
  apply fileLoop_boundary in L as [[pre P] [A K]]; cbn [builder lastKey y.Reset y.UserKey].
  2: exact S.
  2: constructor.
  2: { apply List.Forall_forall. intros x _. apply bytes.empty_le. }
  cbn [builder] in K.
  assert (S1 : StronglySorted userKeyLe it1).
  { rewrite P in S. eapply StronglySorted_suffix. exact S. }
  assert (Bf1 : forall r, In r results -> allBefore (Entries r) it1).
  { intros r I x y0 Ix Iy. apply (Bf r I x y0 Ix). rewrite P.
    apply in_or_app. right. exact Iy. }
  destruct (builderEmpty (builder st1)).
  - apply IH; assumption.
  - apply IH; [exact S1| |].
    + apply ForallOrdPairs_snoc; [exact FO|].
      apply List.Forall_forall. intros r I x y0 Ix Iy. cbn [finish Entries] in Iy.
      destruct (K _ Iy) as [[]|[e' [Ie Ke]]].
      unfold userKeyOf at 2. rewrite Ke. apply (Bf r I x e' Ix Ie).
    + intros r I. apply in_app_or in I as [I|[<-|[]]]; [apply Bf1; exact I|].
      cbn [finish Entries]. exact A.
Qed.

Lemma CompactTables_ordered cd it latest stats0 discard0 results st' latest' :
  IterOrdered it ->
  CompactTables cd it latest stats0 discard0 = Some (results, st', latest') ->
  ForallOrdPairs tableBefore results.
Proof.
  intros S R. unfold CompactTables in R.
  eapply tablesLoop_ordered in R; [exact R| | |].
  - apply IterOrdered_userKeys. exact S.
  - constructor.
  - intros r [].
Qed.

(** *** Properties of the executor *)

(** C1 (as amended). Let the merged input be in iterator order and let a
    non-empty user key [k] have at least two versions at or below
    [SafeTS], the newest being [e0]. Then [CompactTables] returns, and the
    versions of [k] at or below [SafeTS] in the union of its output tables
    are exactly what the tombstone and filter rules leave of [e0]
    ([retained]): at most one entry, carrying the key of [e0]; it is [e0]
    itself when [e0] is not a delete marker and no filter is installed.
    Every older version is dropped. *)
Theorem gc_keeps_newest_below_safe_ts
    cd it latest stats0 discard0 k e0 e1 older :
  IterOrdered it -> k <> "" ->
  List.filter (below cd k) it = e0 :: e1 :: older ->
  exists results st' latest',
    CompactTables cd it latest stats0 discard0 = Some (results, st', latest') /\
    List.filter (below cd k) (outputEntries results) = retained cd e0 /\
    (retained cd e0 = [] \/ exists x, retained cd e0 = [x] /\ ekey x = ekey e0) /\
    (y.isDeleted (y.Meta (evalue e0)) = false -> Filter cd = None ->
     retained cd e0 = [e0]) /\
    Forall (fun e => (y.Version (ekey e) <= y.Version (ekey e0))%N) (e1 :: older).
Proof.
  intros S Hk E.
  destruct (CompactTables_total cd it latest stats0 discard0) as [[[results st'] latest'] R].
  exists results, st', latest'. split; [exact R|].
  split.
  { rewrite (CompactTables_below _ _ _ _ _ _ _ _ k S Hk R), E. reflexivity. }
  split; [apply retained_cases|]. split.
  - intros D F. unfold retained. rewrite D, F. reflexivity.
  - eapply below_newest_first; eassumption.
Qed.

(** C2 (as amended). Let the merged input be in iterator order and let
    [e0] be the newest version at or below [SafeTS] of a non-empty user
    key [k], carrying the delete bit. Then [CompactTables] returns and,
    among the versions of [k] at or below [SafeTS], it writes [e0] once
    and nothing else when [HasOverlap] is true, and nothing at all when
    [HasOverlap] is false. *)
Theorem tombstone_kept_iff_overlap
    cd it latest stats0 discard0 k e0 older :
  IterOrdered it -> k <> "" ->
  List.filter (below cd k) it = e0 :: older ->
  y.isDeleted (y.Meta (evalue e0)) = true ->
  exists results st' latest',
    CompactTables cd it latest stats0 discard0 = Some (results, st', latest') /\
    List.filter (below cd k) (outputEntries results)
    = if HasOverlap cd then [e0] else [].
Proof.
  intros S Hk E D.
  destruct (CompactTables_total cd it latest stats0 discard0) as [[[results st'] latest'] R].
  exists results, st', latest'. split; [exact R|].
  rewrite (CompactTables_below _ _ _ _ _ _ _ _ k S Hk R), E.
  unfold retained. rewrite D. reflexivity.
Qed.

(** C3. [shouldFinishFile] is false whenever the last key is empty or the
    size does not exceed the limit; the inner loop breaks only on an entry
    whose user key differs from the last key of the table being built;
    and, on an input in iterator order, [CompactTables] returns tables of
    which no two contain the same user key. *)
Theorem versions_of_a_key_stay_together :
  (forall lastKey currentSize maxSize,
      y.IsEmpty lastKey = true \/ (currentSize <= maxSize)%Z ->
      shouldFinishFile lastKey currentSize maxSize = false) /\
  (forall cd e st st',
      step cd e st = Break st' -> userKeyOf e <> y.UserKey (lastKey st)) /\
  (forall cd it latest stats0 discard0,
      IterOrdered it ->
      exists results st' latest',
        CompactTables cd it latest stats0 discard0 = Some (results, st', latest') /\
        forall i j r1 r2 x y,
          i <> j -> results !! i = Some r1 -> results !! j = Some r2 ->
          In x (Entries r1) -> In y (Entries r2) -> userKeyOf x <> userKeyOf y).
Proof.
  split; [|split].
  - intros lk cur mx [E|L]; unfold shouldFinishFile.
    + rewrite E. reflexivity.
    + destruct (y.IsEmpty lk); [reflexivity|]. cbn.
      apply Z.ltb_ge. exact L.
  - intros cd e st st' B. apply step_Break_shape in B as [_ D]. exact D.
  - intros cd it latest stats0 discard0 S.
    destruct (CompactTables_total cd it latest stats0 discard0) as [[[results st'] latest'] R].
    exists results, st', latest'. split; [exact R|].
    pose proof (CompactTables_ordered _ _ _ _ _ _ _ _ S R) as FO.
    intros i j r1 r2 x y0 D H1 H2 Ix Iy.
    destruct (Nat.lt_total i j) as [L|[L|L]]; [|contradiction|].
    + apply bytes.lt_neq.
      exact (ForallOrdPairs_lookup _ _ FO i j r1 r2 L H1 H2 x y0 Ix Iy).
    + intros C. symmetry in C. revert C. apply bytes.lt_neq.
      exact (ForallOrdPairs_lookup _ _ FO j i r2 r1 L H2 H1 y0 x Iy Ix).
Qed.

(** *** Further properties of the executor *)

(** [skipKey] shadows no version above [SafeTS] among the entries still
    to come. *)
Definition shadowsOnlyOld (cd : CompactDef T) (sk : y.Key) (it : list Entry) : Prop :=
  y.UserKey sk <> "" ->
  forall e, In e it -> userKeyOf e = y.UserKey sk ->
            (y.Version (ekey e) <= SafeTS cd)%N.

Lemma survivors_keep_new cd it : forall sk e,
  StronglySorted keyLe it -> shadowsOnlyOld cd sk it ->
  In e it -> (SafeTS cd < y.Version (ekey e))%N ->
  In e (survivors cd sk it).
Proof.
  induction it as [|e0 rest IH]; intros sk e S Sh I V; [destruct I|].
  apply StronglySorted_inv in S as [S F].
  assert (ShRest : shadowsOnlyOld cd sk rest).
  { intros Ne x Ix. apply Sh; [exact Ne|right; exact Ix]. }
  assert (ShEmpty : forall sk', y.UserKey sk' = "" -> shadowsOnlyOld cd sk' rest).
  { intros sk' E Ne. contradiction. }
  cbn [survivors].
  destruct (negb (y.IsEmpty sk) && y.SameUserKey (ekey e0) sk) eqn:G.
  - apply andb_prop in G as [G1 G2].
    apply negb_true_iff, y.IsEmpty_false in G1. apply y.SameUserKey_true in G2.
    assert (V0 : (y.Version (ekey e0) <= SafeTS cd)%N).
    { apply Sh; [exact G1|left; reflexivity|exact G2]. }
    destruct I as [<-|I]; [lia|]. apply IH; assumption.
  - set (sk1 := if negb (y.IsEmpty sk) then y.Reset sk else sk).
    assert (E1 : y.UserKey sk1 = "").
    { subst sk1. destruct (y.IsEmpty sk) eqn:E; cbn; [|reflexivity].
      apply y.IsEmpty_true. exact E. }
    destruct (y.Version (ekey e0) <=? SafeTS cd)%N eqn:V0.
    + apply N.leb_le in V0. apply in_or_app. right.
      destruct I as [<-|I]; [lia|]. apply IH; try assumption.
      intros _ x Ix Kx. cbn in Kx.
      rewrite List.Forall_forall in F. specialize (F x Ix).
      apply keyLe_cases in F as [L|[_ Le]]; [|lia].
      exfalso. unfold userKeyOf in *. rewrite Kx in L. exact (bytes.lt_irrefl _ L).
    + destruct I as [<-|I]; [left; reflexivity|right].
      apply IH; try assumption. apply ShEmpty. exact E1.
Qed.

(** Nothing is dropped while no version at or below [SafeTS] turns up. *)
Lemma survivors_all_new cd it : forall sk,
  y.UserKey sk = "" ->
  Forall (fun e => (SafeTS cd < y.Version (ekey e))%N) it ->
  survivors cd sk it = it.
Proof.
  induction it as [|e rest IH]; intros sk E F; [reflexivity|].
  apply Forall_cons in F as [V F]. cbn [survivors].
  apply y.IsEmpty_true in E as E'. rewrite E'. cbn [negb andb].
  apply N.leb_gt in V. rewrite V. f_equal. apply IH; assumption.
Qed.

(** The keys written are, in order, keys read. *)
Lemma survivors_sublist cd it : forall sk,
  sublist (ekey <$> survivors cd sk it) (ekey <$> it).
Proof.
  induction it as [|e rest IH]; intros sk; cbn [survivors]; [constructor|].
  destruct (negb (y.IsEmpty sk) && y.SameUserKey (ekey e) sk).
  { cbn. apply sublist_cons. apply IH. }
  destruct (y.Version (ekey e) <=? SafeTS cd)%N.
  - rewrite fmap_app. cbn [fmap list_fmap].
    destruct (retained_cases cd e) as [->|[x [-> K]]]; cbn.
    + apply sublist_cons. apply IH.
    + rewrite K. apply sublist_skip. apply IH.
  - cbn. apply sublist_skip. apply IH.
Qed.

(** Where a written entry comes from. *)
Lemma survivors_origin cd it : forall sk x,
  In x (survivors cd sk it) ->
  In x it \/
  exists e f, In e it /\ Filter cd = Some f /\
    f (CF cd) (userKeyOf e) (y.Value (evalue e)) (y.UserMeta (evalue e))
    = DecisionMarkTombstone /\
    (y.Version (ekey e) <= SafeTS cd)%N /\
    x = mkEntry (ekey e) (y.mkValue y.bitDelete "" "" 0).
Proof.
  induction it as [|e rest IH]; intros sk x; cbn [survivors];
    [intros []|].
  assert (Lift : forall sk', In x (survivors cd sk' rest) ->
            In x (e :: rest) \/
            exists e0 f, In e0 (e :: rest) /\ Filter cd = Some f /\
              f (CF cd) (userKeyOf e0) (y.Value (evalue e0)) (y.UserMeta (evalue e0))
              = DecisionMarkTombstone /\
              (y.Version (ekey e0) <= SafeTS cd)%N /\
              x = mkEntry (ekey e0) (y.mkValue y.bitDelete "" "" 0)).
  { intros sk' I. destruct (IH sk' x I) as [I'|(e0 & f & I' & Rest)].
    - left. right. exact I'.
    - right. exists e0, f. split; [right; exact I'|exact Rest]. }
  destruct (negb (y.IsEmpty sk) && y.SameUserKey (ekey e) sk); [apply Lift|].
  destruct (y.Version (ekey e) <=? SafeTS cd)%N eqn:V.
  - intros I. apply in_app_or in I as [I|I]; [|eapply Lift; exact I].
    apply N.leb_le in V. unfold retained in I.
    destruct (y.isDeleted (y.Meta (evalue e))).
    { destruct (HasOverlap cd); [destruct I as [<-|[]]; left; left; reflexivity|destruct I]. }
    destruct (Filter cd) as [f|] eqn:Ff;
      [|destruct I as [<-|[]]; left; left; reflexivity].
    destruct (f _ _ _ _) eqn:D.
    + destruct I as [<-|[]]. left. left. reflexivity.
    + destruct (HasOverlap cd); [|destruct I]. destruct I as [<-|[]].
      right. exists e, f. split; [left; reflexivity|]. auto.
    + destruct I.
  - intros [<-|I]; [left; left; reflexivity|eapply Lift; exact I].
Qed.

(** X1. On an input in iterator order [CompactTables] writes every
    entry whose version is above [SafeTS]: garbage collection never
    touches a version that a running snapshot may still read. *)
Theorem versions_above_safe_ts_survive cd it latest stats0 discard0 e :
  IterOrdered it -> In e it -> (SafeTS cd < y.Version (ekey e))%N ->
  exists results st' latest',
    CompactTables cd it latest stats0 discard0 = Some (results, st', latest') /\
    In e (outputEntries results).
Proof.
  intros S I V.
  destruct (CompactTables_total cd it latest stats0 discard0) as [[[results st'] latest'] R].
  exists results, st', latest'. split; [exact R|].
  rewrite (CompactTables_survivors _ _ _ _ _ _ _ _ R).
  apply survivors_keep_new; [apply IterOrdered_strong; exact S| |exact I|exact V].
  intros Ne. cbn in Ne. contradiction.
Qed.

(** X2. When every version of the input is above [SafeTS],
    [CompactTables] writes the input as it is: the output tables, one
    after the other, hold exactly the entries read, in the order read,
    whatever the filter, [HasOverlap] and the size limit are. *)
Theorem nothing_to_collect_copies_the_input cd it latest stats0 discard0 :
  Forall (fun e => (SafeTS cd < y.Version (ekey e))%N) it ->
  exists results st' latest',
    CompactTables cd it latest stats0 discard0 = Some (results, st', latest') /\
    outputEntries results = it.
Proof.
  intros F.
  destruct (CompactTables_total cd it latest stats0 discard0) as [[[results st'] latest'] R].
  exists results, st', latest'. split; [exact R|].
  rewrite (CompactTables_survivors _ _ _ _ _ _ _ _ R).
  apply survivors_all_new; [reflexivity|exact F].
Qed.

(** X3. [CompactTables] invents no key and reorders nothing: the keys
    of the output tables, one table after the other, are a subsequence of
    the keys of the input; and an entry it writes is an entry it read,
    unless it is the delete marker that replaces an entry at or below
    [SafeTS] for which the filter decided [DecisionMarkTombstone]. *)
Theorem output_keys_are_a_subsequence cd it latest stats0 discard0 :
  exists results st' latest',
    CompactTables cd it latest stats0 discard0 = Some (results, st', latest') /\
    sublist (ekey <$> outputEntries results) (ekey <$> it) /\
    forall x, In x (outputEntries results) ->
      In x it \/
      exists e f, In e it /\ Filter cd = Some f /\
        f (CF cd) (userKeyOf e) (y.Value (evalue e)) (y.UserMeta (evalue e))
        = DecisionMarkTombstone /\
        (y.Version (ekey e) <= SafeTS cd)%N /\
        x = mkEntry (ekey e) (y.mkValue y.bitDelete "" "" 0).
Proof.
  destruct (CompactTables_total cd it latest stats0 discard0) as [[[results st'] latest'] R].
  exists results, st', latest'. split; [exact R|].
  rewrite (CompactTables_survivors _ _ _ _ _ _ _ _ R).
  split; [apply survivors_sublist|]. apply survivors_origin.
Qed.

(** What [tablesLoop] keeps true of the tables built so far: none is
    empty, the file ids grow, and none exceeds the allocator's state. *)
Definition idsBelow (results : list BuildResult) (latest : N) : Prop :=
  Forall (fun r => Entries r <> [] /\ (FileName r <= latest)%N) results /\
  ForallOrdPairs (fun r1 r2 => (FileName r1 < FileName r2)%N) results.

Lemma wrapU64_small n : (n < 2 ^ 64)%N -> wrapU64 n = n.
Proof. intros L. unfold wrapU64. apply N.mod_small. exact L. Qed.

Lemma tablesLoop_ids cd fuel : forall it st latest results results' st' latest',
  (latest + N.of_nat (length it) < 2 ^ 64)%N ->
  idsBelow results latest ->
  tablesLoop fuel cd it st latest results = Some (results', st', latest') ->
  idsBelow results' latest' /\
  (latest <= latest')%N /\ (latest' <= latest + N.of_nat (length it))%N /\
  exists more, results' = results ++ more /\
               Forall (fun r => (latest < FileName r)%N) more.
Proof.
  induction fuel as [|fuel IH]; intros it st latest results results' st' latest' B I.
  { destruct it; cbn; [|discriminate]. intros [= <- <- <-].
    split; [exact I|]. split; [lia|]. split; [lia|].
    exists []. rewrite app_nil_r. split; [reflexivity|constructor]. }
  destruct it as [|e rest]; cbn [tablesLoop].
  { intros [= <- <- <-]. split; [exact I|]. split; [lia|]. split; [lia|].
    exists []. rewrite app_nil_r. split; [reflexivity|constructor]. }
  destruct (fileLoop cd (e :: rest) _) as [it1 st1] eqn:L.
  apply fileLoop_fresh_length in L; [|reflexivity..].
  cbn [length] in B.
  rewrite wrapU64_small by lia.
  assert (B1 : (latest + 1 + N.of_nat (length it1) < 2 ^ 64)%N) by lia.
  destruct I as [Fa Fo].
  assert (Fa1 : Forall (fun r => Entries r <> [] /\ (FileName r <= latest + 1)%N) results).
  { eapply Forall_impl; [exact Fa|]. intros r [Ne Le]. split; [exact Ne|lia]. }
  destruct (builder st1) as [|b bs] eqn:Bd; cbn [builderEmpty]; intros R.
  - apply IH in R; [|exact B1|split; assumption].
    destruct R as (I' & L1 & L2 & more & E & Fm).
    split; [exact I'|]. split; [lia|]. split; [cbn [length]; lia|].
    exists more. split; [exact E|].
    eapply Forall_impl; [exact Fm|]. intros r Lr. cbn in Lr. lia.
  - apply IH in R; [|exact B1|].
    + destruct R as (I' & L1 & L2 & more & E & Fm).
      split; [exact I'|]. split; [lia|]. split; [cbn [length]; lia|].
      exists (finish (latest + 1) (b :: bs) :: more).
      split; [rewrite E, <- app_assoc; reflexivity|].
      constructor; [cbn; lia|].
      eapply Forall_impl; [exact Fm|]. intros r Lr. cbn in Lr. lia.
    + split.
      * apply Forall_app. split; [exact Fa1|].
        constructor; [|constructor]. cbn. split; [discriminate|lia].
      * apply ForallOrdPairs_snoc; [exact Fo|].
        eapply Forall_impl; [exact Fa|]. intros r [_ Le]. cbn. lia.
Qed.

(** X4. [CompactTables] returns no empty table, and the tables carry
    file ids that are all new and all different: as long as the id
    counter does not wrap, every id is above the counter before the call,
    at most the counter after it, and the ids grow along the result; the
    counter advances by at most one per entry read. *)
Theorem output_tables_carry_fresh_ids cd it latest stats0 discard0 :
  (latest + N.of_nat (length it) < 2 ^ 64)%N ->
  exists results st' latest',
    CompactTables cd it latest stats0 discard0 = Some (results, st', latest') /\
    Forall (fun r => Entries r <> [] /\ (latest < FileName r <= latest')%N) results /\
    (forall i j r1 r2, (i < j)%nat -> results !! i = Some r1 -> results !! j = Some r2 ->
                       (FileName r1 < FileName r2)%N) /\
    (latest' <= latest + N.of_nat (length it))%N.
Proof.
  intros B.
  destruct (CompactTables_total cd it latest stats0 discard0) as [[[results st'] latest'] R].
  exists results, st', latest'. split; [exact R|].
  unfold CompactTables in R. apply tablesLoop_ids in R.
  - destruct R as ([Fa Fo] & L1 & L2 & more & E & Fm). cbn [app] in E. subst more.
    split; [|split; [|exact L2]].
    + rewrite Forall_forall in Fa, Fm. apply Forall_forall. intros r I.
      destruct (Fa r I) as [Ne Le]. specialize (Fm r I). split; [exact Ne|lia].
    + intros i j r1 r2 Lt H1 H2.
      exact (ForallOrdPairs_lookup _ _ Fo i j r1 r2 Lt H1 H2).
  - exact B.
  - split; constructor.
Qed.

(** X5. [overSkipTables] drops from the front of the skipped tables
    exactly those the key has passed: every dropped table has its biggest
    key below [key], the first table that stays (if any) has not, and the
    flag tells whether any table was dropped. *)
Theorem overSkipTables_drops_the_passed_tables key (skippedTables : list T) :
  exists passed,
    skippedTables = passed ++ fst (overSkipTables key skippedTables) /\
    Forall (fun t => y.Compare key (table.Biggest t) = Gt) passed /\
    (forall t, head (fst (overSkipTables key skippedTables)) = Some t ->
               y.Compare key (table.Biggest t) <> Gt) /\
    snd (overSkipTables key skippedTables) = negb (bool_decide (passed = [])).
Proof.
  unfold overSkipTables. cbn [fst snd].
  induction skippedTables as [|t rest IH]; cbn [skipIndex].
  { exists []. cbn. repeat split; [constructor|discriminate]. }
  destruct (y.Compare key (table.Biggest t)) eqn:C.
  - exists []. cbn. repeat split; [constructor|].
    intros t' [= <-]. rewrite C. discriminate.
  - exists []. cbn. repeat split; [constructor|].
    intros t' [= <-]. rewrite C. discriminate.
  - destruct IH as (passed & E & F & Hd & _).
    exists (t :: passed). cbn [drop]. split; [cbn; f_equal; exact E|].
    split; [constructor; assumption|]. split; [exact Hd|]. reflexivity.
Qed.

End Executor.

(** ** A concrete table implementation for worked examples

    The metadata of an on-disk table, with the range test of
    [HasOverlap] decided on the key range alone. *)
Record sstInfo := mkSST {
  sstID : N;
  sstSmallest : y.Key;
  sstBiggest : y.Key;
  sstSize : Z
}.

Definition sstHasOverlap (t : sstInfo) (lo hi : y.Key) (includeEnd : bool) : bool :=
  match y.Compare lo (sstBiggest t) with
  | Gt => false
  | _ =>
      match y.Compare hi (sstSmallest t) with
      | Lt => false
      | Eq => includeEnd
      | Gt => true
      end
  end.

#[global] Instance sstInfo_Table : table.Table sstInfo := {|
  table.ID := sstID;
  table.Smallest := sstSmallest;
  table.Biggest := sstBiggest;
  table.Size := sstSize;
  table.HasOverlap := sstHasOverlap
|}.

Definition exEncodedSize (vs : y.ValueStruct) : Z :=
  Z.of_nat (String.length (y.Value vs)) + Z.of_nat (String.length (y.UserMeta vs)) + 2.

Definition exKeyLen (k : y.Key) : Z := Z.of_nat (String.length (y.UserKey k)) + 8.

Definition exEstimateSize (b : list Entry) : Z :=
  fold_right (fun e acc => exEncodedSize (evalue e) + exKeyLen (ekey e) + acc)%Z 0%Z b.

Definition exPut (k : string) (version : N) (v : string) : Entry :=
  mkEntry (y.mkKey k version) (y.mkValue 0 "" v version).

Definition exDel (k : string) (version : N) : Entry :=
  mkEntry (y.mkKey k version) (y.mkValue y.bitDelete "" "" version).

Definition exJob (safeTS : N) (hasOverlap : bool) (maxTableSize : Z)
  : CompactDef sstInfo :=
  mkCompactDef 0 1 [] [] [] safeTS None hasOverlap maxTableSize
    (mkKeyRange y.zeroKey y.zeroKey false) (mkKeyRange y.zeroKey y.zeroKey false).

Definition exRun (cd : CompactDef sstInfo) (it : list Entry) :=
  CompactTables exEncodedSize exKeyLen exEstimateSize cd it 0
    (mkStats 0 0 0 0) (mkDiscard 0 0).

Ltac iter_ordered :=
  unfold IterOrdered;
  repeat (constructor; try (unfold keyLe; vm_compute; discriminate)).

(** Two versions of ["k"] below [SafeTS = 30]: the newer one survives. *)
Lemma gc_keeps_newest_below_safe_ts_witness :
  exists results st' latest',
    exRun (exJob 30 false 100) [exPut "k" 20 "new"; exPut "k" 10 "old"]
    = Some (results, st', latest') /\
    List.filter (below (exJob 30 false 100) "k") (outputEntries results)
    = [exPut "k" 20 "new"].
Proof.
  assert (S : IterOrdered [exPut "k" 20 "new"; exPut "k" 10 "old"]) by iter_ordered.
  assert (N : "k" <> "") by discriminate.
  destruct (gc_keeps_newest_below_safe_ts exEncodedSize exKeyLen exEstimateSize
              (exJob 30 false 100) _ 0%N (mkStats 0 0 0 0) (mkDiscard 0 0)
              "k" (exPut "k" 20 "new") (exPut "k" 10 "old") [] S N eq_refl)
    as (results & st' & latest' & R & F & _).
  exists results, st', latest'. split; [exact R|exact F].
Defined.

(** C1 as stated fails: ["k"] has two versions at or below [SafeTS = 30],
    the newer one a delete marker; with [HasOverlap = false] no version of
    ["k"] is written at all. *)
Lemma gc_exactly_one_counterexample :
  let cd := exJob 30 false 100 in
  let it := [exDel "k" 20; exPut "k" 10 "old"] in
  IterOrdered it /\
  length (List.filter (below cd "k") it) = 2 /\
  exists results st' latest',
    exRun cd it = Some (results, st', latest') /\
    List.filter (fun e => String.eqb (userKeyOf e) "k") (outputEntries results) = [].
Proof.
  cbv zeta. split; [iter_ordered|]. split; [reflexivity|].
  eexists _, _, _. split; [vm_compute; reflexivity|reflexivity].
Qed.

(** A delete marker that is the newest version at or below [SafeTS] is
    kept under [HasOverlap = true]. *)
Lemma tombstone_kept_iff_overlap_witness :
  exists results st' latest',
    exRun (exJob 40 true 100) [exDel "k" 30; exPut "k" 5 "old"]
    = Some (results, st', latest') /\
    List.filter (below (exJob 40 true 100) "k") (outputEntries results)
    = [exDel "k" 30].
Proof.
  assert (S : IterOrdered [exDel "k" 30; exPut "k" 5 "old"]) by iter_ordered.
  assert (N : "k" <> "") by discriminate.
  exact (tombstone_kept_iff_overlap exEncodedSize exKeyLen exEstimateSize
           (exJob 40 true 100) _ 0%N (mkStats 0 0 0 0) (mkDiscard 0 0)
           "k" (exDel "k" 30) [exPut "k" 5 "old"] S N eq_refl eq_refl).
Defined.

(** C2 as stated fails: the delete marker ["k"@10] is at or below
    [SafeTS = 30] and [HasOverlap] is true, yet it is not written, because
    the newer version ["k"@20] shadows it. *)
Lemma shadowed_tombstone_counterexample :
  let cd := exJob 30 true 100 in
  let it := [exPut "k" 20 "new"; exDel "k" 10] in
  IterOrdered it /\
  In (exDel "k" 10) it /\
  (y.Version (ekey (exDel "k" 10)) <= SafeTS cd)%N /\
  y.isDeleted (y.Meta (evalue (exDel "k" 10))) = true /\
  HasOverlap cd = true /\
  exists results st' latest',
    exRun cd it = Some (results, st', latest') /\
    outputEntries results = [exPut "k" 20 "new"] /\
    ~ In (exDel "k" 10) (outputEntries results).
Proof.
  cbv zeta. split; [iter_ordered|]. split; [right; left; reflexivity|].
  split; [vm_compute; discriminate|]. split; [reflexivity|]. split; [reflexivity|].
  eexists _, _, _. split; [vm_compute; reflexivity|]. split; [reflexivity|].
  intros [E|[]]. discriminate E.
Qed.

(** Three user keys and a table size limit of zero: every key gets a
    table of its own, and no table shares a key with another. *)
Lemma versions_of_a_key_stay_together_witness :
  exists results st' latest',
    exRun (exJob 30 true 0)
      [exPut "k" 40 "a"; exPut "k" 20 "b"; exPut "l" 5 "c"; exPut "m" 50 "d"]
    = Some (results, st', latest') /\
    forall i j r1 r2 x y,
      i <> j -> results !! i = Some r1 -> results !! j = Some r2 ->
      In x (Entries r1) -> In y (Entries r2) -> userKeyOf x <> userKeyOf y.
Proof.
  assert (S : IterOrdered
                [exPut "k" 40 "a"; exPut "k" 20 "b"; exPut "l" 5 "c"; exPut "m" 50 "d"])
    by iter_ordered.
  exact (proj2 (proj2 (versions_of_a_key_stay_together
                         exEncodedSize exKeyLen exEstimateSize))
           (exJob 30 true 0) _ 0%N (mkStats 0 0 0 0) (mkDiscard 0 0) S).
Defined.

(** ** The job builder *)

Definition minSkippedTableSize : Z := 1024 * 1024.

Section Builder.

Context {T : Type} `{table.Table T}.

Definition setBot (cd : CompactDef T) (bot : list T) : CompactDef T :=
  mkCompactDef (CF cd) (Level cd) (Top cd) bot (SkippedTbls cd) (SafeTS cd)
    (Filter cd) (HasOverlap cd) (MaxTableSize cd) (thisRange cd) (nextRange cd).

Definition setSkippedTbls (cd : CompactDef T) (skipped : list T) : CompactDef T :=
  mkCompactDef (CF cd) (Level cd) (Top cd) (Bot cd) skipped (SafeTS cd)
    (Filter cd) (HasOverlap cd) (MaxTableSize cd) (thisRange cd) (nextRange cd).

(** The inner loop of [fillBottomTables] over [cd.Top]: appends [t] to
    [bot] at the first top table that overlaps it; returns the new [bot]
    and the flag [added]. *)
Fixpoint addIfOverlapped (tops : list T) (t : T) (bot : list T) : list T * bool :=
  match tops with
  | [] => (bot, false)
  | topTbl :: rest =>
      if table.HasOverlap topTbl (table.Smallest t) (table.Biggest t) true
      then (bot ++ [t], true)
      else addIfOverlapped rest t bot
  end.

(** [cd.fillBottomTables(overlappingTables)] *)
Fixpoint fillBottomTables (cd : CompactDef T) (overlappingTables : list T)
  : CompactDef T :=
  match overlappingTables with
  | [] => cd
  | t :: rest =>
      let '(bot, added) := addIfOverlapped (Top cd) t (Bot cd) in
      let cd1 := setBot cd bot in
      let cd2 :=
        if negb added then
          if (minSkippedTableSize <=? table.Size t)%Z
          then setSkippedTbls cd1 (SkippedTbls cd1 ++ [t])
          else setBot cd1 (Bot cd1 ++ [t])
        else cd1 in
      fillBottomTables cd2 rest
  end.

(** [cd.moveDown()] *)
Definition moveDown (cd : CompactDef T) : bool :=
  (0 <? Level cd)%Z
  && (length (Bot cd) =? 0)%nat
  && (length (SkippedTbls cd) =? 0)%nat.

(** No table of [tops] overlaps the key range of [b], end included. *)
Definition untouched (tops : list T) (b : T) : bool :=
  forallb (fun topTbl =>
             negb (table.HasOverlap topTbl (table.Smallest b) (table.Biggest b) true))
          tops.

(** [b] qualifies for [SkippedTbls]. *)
Definition skippable (tops : list T) (b : T) : bool :=
  untouched tops b && (minSkippedTableSize <=? table.Size b)%Z.

Lemma addIfOverlapped_spec tops t bot :
  addIfOverlapped tops t bot
  = if untouched tops t then (bot, false) else (bot ++ [t], true).
Proof.
  induction tops as [|topTbl rest IH]; cbn; [reflexivity|].
  destruct (table.HasOverlap topTbl _ _ true); cbn; [reflexivity|exact IH].
Qed.

Lemma fillBottomTables_fields ts : forall cd,
  Top (fillBottomTables cd ts) = Top cd /\
  SkippedTbls (fillBottomTables cd ts)
  = SkippedTbls cd ++ List.filter (skippable (Top cd)) ts /\
  Bot (fillBottomTables cd ts)
  = Bot cd ++ List.filter (fun b => negb (skippable (Top cd) b)) ts.
Proof.
  induction ts as [|t rest IH]; intros cd; cbn [fillBottomTables List.filter].
  { rewrite !app_nil_r. auto. }
  rewrite addIfOverlapped_spec.
  destruct (skippable (Top cd) t) eqn:K; unfold skippable in K;
    destruct (untouched (Top cd) t); cbn [andb] in K; try discriminate K;
    cbn [negb]; rewrite ?K; cbn [negb];
    match goal with
    | |- context [fillBottomTables ?c rest] => destruct (IH c) as [-> [-> ->]]
    end; cbn; rewrite <- ?app_assoc; auto.
Qed.

(** C6. [fillBottomTables] moves a bottom table [b] of the overlap window
    to [SkippedTbls] iff no top table overlaps the key range of [b]
    (inclusive) and [b.Size() >= minSkippedTableSize], which is 1 MiB;
    every other table of the window goes to [Bot]; both lists keep the
    order of the window. *)
Theorem fillBottomTables_skips_untouched_big_tables (cd : CompactDef T) (window : list T) :
  minSkippedTableSize = 1048576%Z /\
  SkippedTbls (fillBottomTables cd window)
  = SkippedTbls cd ++ List.filter (skippable (Top cd)) window /\
  Bot (fillBottomTables cd window)
  = Bot cd ++ List.filter (fun b => negb (skippable (Top cd) b)) window /\
  forall b,
    skippable (Top cd) b = true <->
    (forall topTbl, In topTbl (Top cd) ->
       table.HasOverlap topTbl (table.Smallest b) (table.Biggest b) true = false) /\
    (minSkippedTableSize <= table.Size b)%Z.
Proof.
  split; [reflexivity|].
  destruct (fillBottomTables_fields window cd) as [_ [S B]].
  split; [exact S|]. split; [exact B|].
  intros b. unfold skippable, untouched.
  rewrite andb_true_iff, forallb_forall, Z.leb_le.
  split; intros [U Sz]; (split; [|exact Sz]); intros t I; specialize (U t I).
  - apply negb_true_iff. exact U.
  - apply negb_true_iff. exact U.
Qed.

End Builder.

(** ** Change sets (package [protos]) *)

Definition uint32 (z : Z) : Z := (z mod 2 ^ 32)%Z.
Definition int32 (z : Z) : Z := ((z + 2 ^ 31) mod 2 ^ 32 - 2 ^ 31)%Z.

Module protos.

Module TableCreate.
Record t := mk {
  ID : N;
  Level : Z;
  CF : Z;
  Smallest : string;
  Biggest : string
}.
#[global] Instance eq_dec : EqDecision t.
Proof. solve_decision. Defined.
End TableCreate.

Module ShardCompaction.
Record t := mk {
  Cf : Z;
  Level : Z;
  TableCreates : list TableCreate.t;
  TopDeletes : list N;
  BottomDeletes : list N
}.
#[global] Instance eq_dec : EqDecision t.
Proof. solve_decision. Defined.
End ShardCompaction.

(** [ShardChangeSet]: flushes and split-file changes are applied by
    functions outside the compaction subsystem; of those only the
    presence matters for dispatch. *)
Module ShardChangeSet.
Record t := mk {
  ShardID : N;
  ShardVer : N;
  Flush : bool;
  Compaction : option ShardCompaction.t;
  SplitFiles : bool
}.
#[global] Instance eq_dec : EqDecision t.
Proof. solve_decision. Defined.
End ShardChangeSet.

End protos.

(** ** Errors, panics and the state monad of the engine *)

Inductive error :=
| errShardNotMatch
| errDupChange
| errIO (what : string)
| errorf (msg : string).

Inductive result (A : Type) :=
| Ok (a : A)
| Err (e : error)
| Panic (msg : string).
Arguments Ok {A}. Arguments Err {A}. Arguments Panic {A}.

(** A Go method with a receiver that it mutates: state in, outcome and
    state out. A panic or an error stops the method where it arises. *)
Definition M (S A : Type) : Type := S -> result A * S.

#[global] Instance M_ret {S : Type} : MRet (M S) := fun A a s => (Ok a, s).

#[global] Instance M_bind {S : Type} : MBind (M S) := fun A B k m s =>
  match m s with
  | (Ok a, s') => k a s'
  | (Err e, s') => (Err e, s')
  | (Panic msg, s') => (Panic msg, s')
  end.

Definition fail {S A : Type} (e : error) : M S A := fun s => (Err e, s).
Definition panic {S A : Type} (msg : string) : M S A := fun s => (Panic msg, s).
Definition get {S : Type} : M S S := fun s => (Ok s, s).
Definition put {S : Type} (s : S) : M S unit := fun _ => (Ok tt, s).
Definition modify {S : Type} (f : S -> S) : M S unit := fun s => (Ok tt, f s).

(** Unfolds the operations of the monad. *)
Ltac run_monad :=
  unfold mbind, M_bind, mret, M_ret, get, put, modify, fail, panic in *.

(** [for _, x := range xs { body x }] with early exit on error or panic. *)
Fixpoint forEach {S A : Type} (xs : list A) (body : A -> M S unit) : M S unit :=
  match xs with
  | [] => mret tt
  | x :: rest => body x;; forEach rest body
  end.

(** The index expression [l[i]] of Go for an [int] index: [None] is the
    run-time panic for an index out of range. *)
Definition index {A : Type} (l : list A) (i : Z) : option A :=
  if (i <? 0)%Z then None else l !! Z.to_nat i.

(** ** The level hierarchy and the engine state *)

Section Engine.

Context {T : Type} `{table.Table T}.

(** [sort.Slice(x, less)] of the Go library: some sorting algorithm,
    not necessarily a stable one. *)
Variable sortSlice : forall A : Type, (A -> A -> bool) -> list A -> list A.

(** [levelHandler]. Handlers are shared by pointer and installed by
    compare-and-swap on that pointer, so the address [hptr] is part of
    the value. *)
Record levelHandler := mkLevelHandler {
  hptr : N;
  hlevel : Z;
  tables : list T;
  totalSize : Z
}.

(** A table of the L0 pool of a shard. *)
Record shardL0Table := mkL0 { fid : N; l0size : Z }.

(** [Shard]: [cfs] holds, per column family, the slots
    [levels[level-1]].

    Modelled from the spec: the shard type is not among the sources;
    section 3 gives it the lifecycle flags [compacting], [passive] (what
    [IsPassive()] reports) and [splitting] (what [isSplitting()]
    reports). *)
Record Shard := mkShard {
  ID : N;
  Ver : N;
  cfs : list (list levelHandler);
  l0s : list shardL0Table;
  estimatedSize : Z;
  compacting : bool;
  passive : bool;
  splitting : bool
}.

(** [Options]: the options that planning and installation read.
    [CFs] holds the field [Managed] of each [CFConfig];
    [optMaxTableSize] is [TableBuilderOptions.MaxTableSize]. *)
Record Options := mkOptions {
  CFs : list bool;
  optMaxTableSize : Z;
  CompactionFilterFactory : option (Z -> string -> string -> CompactionFilter)
}.

(** The engine as far as installation touches it: the options, the two
    safe timestamps, the table files in the local directory, the object
    storage when a client is configured
    ([s3c]), the records of the manifest, the shard of [shardMap], the
    next free address for a new [levelHandler], what was handed to the
    reclaimer by [guard.Delete], and what the [MetaChangeListener], when
    one is configured, was notified of. *)
Record Engine := mkEngine {
  opt : Options;
  numCFs : Z;
  mangedSafeTS : N;
  safeTs : N;
  files : gmap N T;
  s3c : option (gmap N T);
  manifest : list protos.ShardChangeSet.t;
  shard : Shard;
  nextPtr : N;
  reclaimed : list T;
  metaChangeListener : option (list protos.ShardChangeSet.t)
}.

Definition setShard (en : Engine) (s : Shard) : Engine :=
  mkEngine (opt en) (numCFs en) (mangedSafeTS en) (safeTs en) (files en) (s3c en) (manifest en) s (nextPtr en)
    (reclaimed en) (metaChangeListener en).

Definition setFiles (en : Engine) (f : gmap N T) : Engine :=
  mkEngine (opt en) (numCFs en) (mangedSafeTS en) (safeTs en) f (s3c en) (manifest en) (shard en) (nextPtr en)
    (reclaimed en) (metaChangeListener en).

Definition setManifest (en : Engine) (m : list protos.ShardChangeSet.t) : Engine :=
  mkEngine (opt en) (numCFs en) (mangedSafeTS en) (safeTs en) (files en) (s3c en) m (shard en) (nextPtr en)
    (reclaimed en) (metaChangeListener en).

Definition setNextPtr (en : Engine) (p : N) : Engine :=
  mkEngine (opt en) (numCFs en) (mangedSafeTS en) (safeTs en) (files en) (s3c en) (manifest en) (shard en) p
    (reclaimed en) (metaChangeListener en).

Definition setReclaimed (en : Engine) (r : list T) : Engine :=
  mkEngine (opt en) (numCFs en) (mangedSafeTS en) (safeTs en) (files en) (s3c en) (manifest en) (shard en) (nextPtr en)
    r (metaChangeListener en).

Definition setListener (en : Engine) (l : option (list protos.ShardChangeSet.t)) : Engine :=
  mkEngine (opt en) (numCFs en) (mangedSafeTS en) (safeTs en) (files en) (s3c en) (manifest en) (shard en) (nextPtr en)
    (reclaimed en) l.

Definition setCfs (s : Shard) (c : list (list levelHandler)) : Shard :=
  mkShard (ID s) (Ver s) c (l0s s) (estimatedSize s) (compacting s)
    (passive s) (splitting s).

Definition setL0s (s : Shard) (l : list shardL0Table) : Shard :=
  mkShard (ID s) (Ver s) (cfs s) l (estimatedSize s) (compacting s)
    (passive s) (splitting s).

Definition setEstimatedSize (s : Shard) (z : Z) : Shard :=
  mkShard (ID s) (Ver s) (cfs s) (l0s s) z (compacting s)
    (passive s) (splitting s).

(** [shard.markCompacting(b)] *)
Definition markCompacting (b : bool) (s : Shard) : Shard :=
  mkShard (ID s) (Ver s) (cfs s) (l0s s) (estimatedSize s) b
    (passive s) (splitting s).

(** [shard.addEstimatedSize(delta)]: an atomic add on an [int64]. *)
Definition addEstimatedSize (delta : Z) (s : Shard) : Shard :=
  setEstimatedSize s (wrap64 (estimatedSize s + delta)).

(** *** Slots

    Modelled from the spec: section 4.1, [get_level(shard, cf, level)]
    returns the current snapshot and [cas_level(old, new)] publishes
    [new] iff the current pointer still equals [old]. The slot of level
    [level] of a column family is [levels[level-1]]; an index out of
    range is a run-time panic. *)
Definition slot (s : Shard) (cf level : Z) : option levelHandler :=
  scf ← index (cfs s) cf; index scf (level - 1).

Definition getLevelHandler (cf level : Z) : M Engine levelHandler :=
  fun en =>
    match slot (shard en) cf level with
    | Some h => (Ok h, en)
    | None => (Panic "index out of range", en)
    end.

Definition casLevelHandler (cf level : Z) (oldH newH : levelHandler) : M Engine bool :=
  fun en =>
    match slot (shard en) cf level with
    | Some cur =>
        if (hptr cur =? hptr oldH)%N then
          (Ok true,
           setShard en
             (setCfs (shard en)
                (alter (fun scf => <[Z.to_nat (level - 1) := newH]> scf)
                       (Z.to_nat cf) (cfs (shard en)))))
        else (Ok false, en)
    | None => (Panic "index out of range", en)
    end.

(** [newLevelHandler(..., level, ...)]: a fresh, empty handler. *)
Definition newLevelHandler (level : Z) : M Engine levelHandler :=
  fun en =>
    (Ok (mkLevelHandler (nextPtr en) level [] 0), setNextPtr en (nextPtr en + 1)%N).

(** *** Table order *)

(** [sortTables]: [sort.Slice] by [Smallest()]. *)
Definition sortTables (ts : list T) : list T :=
  sortSlice T
    (fun a b => match y.Compare (table.Smallest a) (table.Smallest b) with
                | Lt => true
                | _ => false
                end)
    ts.

(** The test of [assertTablesOrder] on the neighbours [tables[i]] and
    [tables[i+1]]. *)
Definition outOfOrder (t1 t2 : T) : bool :=
  match y.Compare (table.Smallest t1) (table.Biggest t1) with Gt => true | _ => false end
  || match y.Compare (table.Smallest t1) (table.Smallest t2) with Lt => false | _ => true end
  || match y.Compare (table.Biggest t1) (table.Biggest t2) with Lt => false | _ => true end.

(** The loop [for i := 0; i < len(tables)-1; i++]: whether some [i]
    trips the test. *)
Fixpoint orderViolated (tbls : list T) : bool :=
  match tbls with
  | t1 :: rest =>
      match rest with
      | t2 :: _ => outOfOrder t1 t2 || orderViolated rest
      | [] => false
      end
  | [] => false
  end.

(** [assertTablesOrder(level, tables, cd)] *)
Definition assertTablesOrder {S : Type} (level : Z) (tbls : list T) : M S unit :=
  if (level =? 0)%Z then mret tt
  else if orderViolated tbls
       then panic "the order of level tables is invalid"
       else mret tt.

(** *** Installing a change set *)

(** [containsUint64] *)
Fixpoint containsUint64 (slice : list N) (v : N) : bool :=
  match slice with
  | [] => false
  | sv :: rest => if (sv =? v)%N then true else containsUint64 rest v
  end.

(** [sstable.OpenTable] on the file of table [id] in the local
    directory. *)
Definition openTable (id : N) : M Engine T :=
  fun en =>
    match files en !! id with
    | Some t => (Ok t, en)
    | None => (Err (errIO "open table file"), en)
    end.

Definition appendTable (h : levelHandler) (t : T) : levelHandler :=
  mkLevelHandler (hptr h) (hlevel h) (tables h ++ [t])
    (wrap64 (totalSize h + table.Size t)).

(** The first loop of [compactionUpdateLevelHandler], over [creates]. *)
Fixpoint openCreates (cf : Z) (creates : list protos.TableCreate.t)
    (newLevel : levelHandler) : M Engine levelHandler :=
  match creates with
  | [] => mret newLevel
  | tbl :: rest =>
      if negb (protos.TableCreate.CF tbl =? cf)%Z then openCreates cf rest newLevel
      else
        t ← openTable (protos.TableCreate.ID tbl);
        openCreates cf rest (appendTable newLevel t)
  end.

(** The second loop, over [oldLevel.tables]; [del] is the map
    [deletions.resources], [del.add(id, tbl)] an insertion. *)
Fixpoint keepOld (oldTables : list T) (delIDs : list N)
    (newLevel : levelHandler) (del : gmap N T) : levelHandler * gmap N T :=
  match oldTables with
  | [] => (newLevel, del)
  | oldTbl :: rest =>
      if containsUint64 delIDs (table.ID oldTbl)
      then keepOld rest delIDs newLevel (<[table.ID oldTbl := oldTbl]> del)
      else keepOld rest delIDs (appendTable newLevel oldTbl) del
  end.

(** [compactionUpdateLevelHandler]. [env] is what other goroutines do
    to the shard between the load of [oldLevel] and the
    compare-and-swap; the identity when nothing runs concurrently. The
    result of the compare-and-swap is not looked at. *)
Definition compactionUpdateLevelHandler (env : Shard -> Shard) (cf level : Z)
    (creates : list protos.TableCreate.t) (delIDs : list N) (del : gmap N T)
  : M Engine (gmap N T) :=
  oldLevel ← getLevelHandler cf level;
  newLevel0 ← newLevelHandler level;
  newLevel1 ← openCreates cf creates newLevel0;
  let '(newLevel2, del') := keepOld (tables oldLevel) delIDs newLevel1 del in
  let newLevel := mkLevelHandler (hptr newLevel2) (hlevel newLevel2)
                    (sortTables (tables newLevel2)) (totalSize newLevel2) in
  assertTablesOrder level (tables newLevel);;
  modify (fun en => setShard en (env (shard en)));;
  casLevelHandler cf level oldLevel newLevel;;
  modify (fun en =>
            setShard en
              (addEstimatedSize (wrap64 (totalSize newLevel - totalSize oldLevel))
                 (shard en)));;
  mret del'.

(** Modelled from the spec: [loadFileFromS3] is not among the sources;
    section 6 names the object-storage client as the optional place
    tables are fetched from. A table that is already in the local
    directory needs no fetch; otherwise it is copied from the object
    storage, and the load fails when it is not there. *)
Definition loadFileFromS3 (store : gmap N T) (id : N) : M Engine unit :=
  fun en =>
    match files en !! id with
    | Some _ => (Ok tt, en)
    | None =>
        match store !! id with
        | Some t => (Ok tt, setFiles en (<[id := t]> (files en)))
        | None => (Err (errIO "load file from s3"), en)
        end
    end.

(** [s3c.BatchSchedule(bt)]: every task runs; the first error, if any,
    is returned. *)
Fixpoint batchSchedule (tasks : list (M Engine unit)) : M Engine unit :=
  match tasks with
  | [] => mret tt
  | task :: rest =>
      fun en =>
        match task en with
        | (Ok _, en1) => batchSchedule rest en1
        | (r, en1) => (r, snd (batchSchedule rest en1))
        end
  end.

(** Modelled from the spec: [manifest.writeChangeSet] is not among the
    sources; section 7 asks that a duplicate change set on replay be
    recognised ([errDupChange]). The manifest keeps the change sets it
    recorded; writing one that is already recorded reports the
    duplicate, any other is recorded. The outcome is the [error] value
    of the Go function, [None] for [nil]. *)
Definition writeChangeSet (changeSet : protos.ShardChangeSet.t) : M Engine (option error) :=
  fun en =>
    if decide (changeSet ∈ manifest en) then (Ok (Some errDupChange), en)
    else (Ok None, setManifest en (manifest en ++ [changeSet])).

(** Modelled from the spec: [atomicRemoveL0(shard, cnt)] is not among
    the sources; section 4.5 has the compacted L0 tables removed from the
    tail of the pool. Returns the total size of what was removed. *)
Definition atomicRemoveL0 (cnt : nat) : M Engine Z :=
  fun en =>
    let old := l0s (shard en) in
    if (length old <? cnt)%nat then (Panic "slice bounds out of range", en)
    else
      let remaining := (length old - cnt)%nat in
      (Ok (fold_right (fun t acc => wrap64 (l0size t + acc)) 0%Z (drop remaining old)),
       setShard en (setL0s (shard en) (take remaining old))).

(** [guard.Delete(del.collect())] *)
Definition guardDelete (del : gmap N T) : M Engine unit :=
  modify (fun en => setReclaimed en (reclaimed en ++ (snd <$> map_to_list del))).

(** The loop [for cf := 0; cf < sdb.numCFs; cf++] of the L0 case. *)
Fixpoint updateLevelOne (env : Z -> Z -> Shard -> Shard) (cfsLeft : list Z)
    (comp : protos.ShardCompaction.t) (del : gmap N T) : M Engine (gmap N T) :=
  match cfsLeft with
  | [] => mret del
  | cf :: rest =>
      del' ← compactionUpdateLevelHandler (env cf 1%Z) cf 1
                (protos.ShardCompaction.TableCreates comp)
                (protos.ShardCompaction.BottomDeletes comp) del;
      updateLevelOne env rest comp del'
  end.

(** [del.remove(create.ID)] for every created table. *)
Definition removeCreates (creates : list protos.TableCreate.t) (del : gmap N T) : gmap N T :=
  fold_left (fun d create => delete (protos.TableCreate.ID create) d) creates del.

(** The two branches of [applyCompaction] on [comp.Level]: the update
    of the level handlers. [env cf level] is the interference during the
    update of that slot. *)
Definition installLevels (env : Z -> Z -> Shard -> Shard)
    (comp : protos.ShardCompaction.t) : M Engine (gmap N T) :=
  if (protos.ShardCompaction.Level comp =? 0)%Z then
    en ← get;
    del ← updateLevelOne env (Z.of_nat <$> seq 0 (Z.to_nat (numCFs en))) comp ∅;
    removed ← atomicRemoveL0 (length (protos.ShardCompaction.TopDeletes comp));
    modify (fun en => setShard en (addEstimatedSize (wrap64 (- removed)) (shard en)));;
    mret del
  else
    let cf := protos.ShardCompaction.Cf comp in
    let level := protos.ShardCompaction.Level comp in
    del ← compactionUpdateLevelHandler (env cf level) cf level []
             (protos.ShardCompaction.TopDeletes comp) ∅;
    let del1 := removeCreates (protos.ShardCompaction.TableCreates comp) del in
    compactionUpdateLevelHandler (env cf (uint32 (level + 1))) cf
      (uint32 (level + 1))
      (protos.ShardCompaction.TableCreates comp)
      (protos.ShardCompaction.BottomDeletes comp) del1.

(** The part of [applyCompaction] from the manifest write on. *)
Definition recordAndInstall (env : Z -> Z -> Shard -> Shard)
    (changeSet : protos.ShardChangeSet.t) (comp : protos.ShardCompaction.t)
  : M Engine unit :=
  dup ← writeChangeSet changeSet;
  match dup with
  | Some errDupChange => mret tt
  | Some e => fail e
  | None =>
      del ← installLevels env comp;
      guardDelete del
  end.

(** The body of [applyCompaction], without the deferred call. *)
Definition applyCompactionBody (env : Z -> Z -> Shard -> Shard)
    (changeSet : protos.ShardChangeSet.t) : M Engine unit :=
  match protos.ShardChangeSet.Compaction changeSet with
  | None => panic "nil pointer dereference"
  | Some comp =>
      en ← get;
      match s3c en with
      | Some store =>
          batchSchedule
            (map (fun tbl => loadFileFromS3 store (protos.TableCreate.ID tbl))
                 (protos.ShardCompaction.TableCreates comp))
      | None => mret tt
      end;;
      recordAndInstall env changeSet comp
  end.

(** [applyCompaction]: the deferred [shard.markCompacting(false)] runs
    however the body ends. *)
Definition applyCompaction (env : Z -> Z -> Shard -> Shard)
    (changeSet : protos.ShardChangeSet.t) : M Engine unit :=
  fun en =>
    let '(r, en') := applyCompactionBody env changeSet en in
    (r, setShard en' (markCompacting false (shard en'))).

(** Flushes and split files are installed by [applyFlush] and
    [applySplitFiles]. *)
Variable applyFlush : protos.ShardChangeSet.t -> M Engine unit.
Variable applySplitFiles : protos.ShardChangeSet.t -> M Engine unit.

(** [ApplyChangeSet]. [GetShard] finds the shard by its id; for an
    unknown id it returns [nil] and the access to [shard.Ver] panics. *)
Definition ApplyChangeSet (env : Z -> Z -> Shard -> Shard)
    (changeSet : protos.ShardChangeSet.t) : M Engine unit :=
  en ← get;
  if negb (ID (shard en) =? protos.ShardChangeSet.ShardID changeSet)%N
  then panic "nil pointer dereference"
  else if negb (Ver (shard en) =? protos.ShardChangeSet.ShardVer changeSet)%N
  then fail errShardNotMatch
  else if protos.ShardChangeSet.Flush changeSet then applyFlush changeSet
  else match protos.ShardChangeSet.Compaction changeSet with
       | Some _ => applyCompaction env changeSet
       | None =>
           if protos.ShardChangeSet.SplitFiles changeSet
           then applySplitFiles changeSet
           else mret tt
       end.

(** *** Running a job *)

(** The [compactor] interface: [compact(cd, stats, discardStats)] reads
    the input tables and writes the output tables. *)
Variable compact : CompactDef T -> M Engine (list BuildResult).

(** [sst.PrepareForCompaction()] of the table library; [None] is
    [nil]. *)
Variable PrepareForCompaction : T -> option error.

(** [sdb.getCFSafeTS(cf)] *)
Definition getCFSafeTS (cf : Z) : M Engine N :=
  fun en =>
    match index (CFs (opt en)) cf with
    | Some managed => (Ok (if managed then mangedSafeTS en else safeTs en), en)
    | None => (Panic "index out of range", en)
    end.

(** [cd.smallest()] *)
Definition smallest (cd : CompactDef T) : y.Key :=
  if (0 <? length (Bot cd))%nat
     && match y.Compare (left (nextRange cd)) (left (thisRange cd)) with
        | Lt => true
        | _ => false
        end
  then left (nextRange cd) else left (thisRange cd).

(** [cd.biggest()] *)
Definition biggest (cd : CompactDef T) : y.Key :=
  if (0 <? length (Bot cd))%nat
     && match y.Compare (right (nextRange cd)) (right (thisRange cd)) with
        | Gt => true
        | _ => false
        end
  then right (nextRange cd) else right (thisRange cd).

Definition prepareTable (t : T) : M Engine unit :=
  match PrepareForCompaction t with
  | Some e => fail e
  | None => mret tt
  end.

(** [sdb.prepareCompactionDef(cf, cd)]: returns the definition as the
    method leaves it. *)
Definition prepareCompactionDef (cf : Z) (cd : CompactDef T) : M Engine (CompactDef T) :=
  safeTS ← getCFSafeTS cf;
  en ← get;
  let filter :=
    match CompactionFilterFactory (opt en) with
    | Some factory =>
        Some (factory (wrap64 (Level cd + 1))
                (y.UserKey (smallest cd)) (y.UserKey (biggest cd)))
    | None => Filter cd
    end in
  let cd' := mkCompactDef (CF cd) (Level cd) (Top cd) (Bot cd) (SkippedTbls cd)
               safeTS filter (HasOverlap cd) (optMaxTableSize (opt en))
               (thisRange cd) (nextRange cd) in
  forEach (Top cd) prepareTable;;
  forEach (Bot cd) prepareTable;;
  mret cd'.

(** [newTableCreate(tbl, cf, level)] *)
Definition newTableCreate (cf level : Z) (tbl : T) : protos.TableCreate.t :=
  protos.TableCreate.mk (table.ID tbl) (uint32 level) (int32 cf)
    (y.UserKey (table.Smallest tbl)) (y.UserKey (table.Biggest tbl)).

(** [newTableCreateByResult(result, cf, level)] *)
Definition newTableCreateByResult (cf level : Z) (res : BuildResult) : protos.TableCreate.t :=
  protos.TableCreate.mk (FileName res) (uint32 level) (int32 cf)
    (y.UserKey (ResSmallest res)) (y.UserKey (ResBiggest res)).

(** [sdb.compactBuildTables(cf, cd)] *)
Definition compactBuildTables (cf : Z) (cd : CompactDef T)
  : M Engine (list protos.TableCreate.t) :=
  cd' ← prepareCompactionDef cf cd;
  buildResults ← compact cd';
  mret (newTableCreateByResult cf (wrap64 (Level cd + 1)) <$> buildResults).

(** The first half of [runCompactionDef]: the [ShardCompaction] record
    of the job. *)
Definition buildCompaction (cf : Z) (cd : CompactDef T) : M Engine protos.ShardCompaction.t :=
  if moveDown cd then
    mret (protos.ShardCompaction.mk (int32 cf) (uint32 (Level cd))
            (newTableCreate cf (wrap64 (Level cd + 1)) <$> Top cd)
            (table.ID <$> Top cd)
            [])
  else
    creates ← compactBuildTables cf cd;
    mret (protos.ShardCompaction.mk (int32 cf) (uint32 (Level cd))
            creates (table.ID <$> Top cd) (table.ID <$> Bot cd)).

(** Modelled from the spec: [newShardChangeSet(shard)] is not among the
    sources; a change set names the shard by id and version. *)
Definition newShardChangeSet (s : Shard) (comp : protos.ShardCompaction.t)
  : protos.ShardChangeSet.t :=
  protos.ShardChangeSet.mk (ID s) (Ver s) false (Some comp) false.

(** [sdb.runCompactionDef(shard, cf, cd, guard)] *)
Definition runCompactionDef (env : Z -> Z -> Shard -> Shard) (cf : Z)
    (cd : CompactDef T) : M Engine unit :=
  comp ← buildCompaction cf cd;
  en ← get;
  let change := newShardChangeSet (shard en) comp in
  match metaChangeListener en with
  | Some notified => put (setListener en (Some (notified ++ [change])))
  | None => applyCompaction env change
  end.

(** *** Properties of planning and installation *)

Lemma moveDown_true (cd : CompactDef T) :
  moveDown cd = true <-> (0 < Level cd)%Z /\ Bot cd = [] /\ SkippedTbls cd = [].
Proof.
  unfold moveDown. rewrite !andb_true_iff, Z.ltb_lt, !Nat.eqb_eq.
  rewrite !length_zero_iff_nil. tauto.
Qed.

(** C7. When a job has [Level > 0], an empty [Bot] and an empty
    [SkippedTbls], [runCompactionDef] is a logical move: the change set
    creates exactly the [Top] tables, re-tagged to [Level+1] with their
    ids, and deletes those same ids from the top level; the change set
    is built without a step of the compactor (whatever [compact] and
    [PrepareForCompaction] are, they are not run: the engine is handed
    unchanged to the listener or to [applyCompaction]). *)
Theorem move_down_is_a_logical_move env cf (cd : CompactDef T) en :
  (0 < Level cd)%Z -> Bot cd = [] -> SkippedTbls cd = [] ->
  let comp :=
    protos.ShardCompaction.mk (int32 cf) (uint32 (Level cd))
      (newTableCreate cf (wrap64 (Level cd + 1)) <$> Top cd)
      (table.ID <$> Top cd) [] in
  buildCompaction cf cd en = (Ok comp, en) /\
  runCompactionDef env cf cd en
  = match metaChangeListener en with
    | Some notified =>
        (Ok tt, setListener en (Some (notified ++ [newShardChangeSet (shard en) comp])))
    | None => applyCompaction env (newShardChangeSet (shard en) comp) en
    end /\
  protos.TableCreate.ID <$> protos.ShardCompaction.TableCreates comp
  = protos.ShardCompaction.TopDeletes comp /\
  Forall (fun c => protos.TableCreate.Level c = uint32 (wrap64 (Level cd + 1)))
         (protos.ShardCompaction.TableCreates comp).
Proof.
  intros L B S comp.
  assert (Mv : moveDown cd = true) by (apply moveDown_true; auto).
  assert (E : buildCompaction cf cd en = (Ok comp, en)).
  { unfold buildCompaction. rewrite Mv. reflexivity. }
  split; [exact E|]. split.
  - unfold runCompactionDef. run_monad. rewrite E. cbn.
    destruct (metaChangeListener en); reflexivity.
  - split.
    + subst comp. cbn. rewrite <- list_fmap_compose. reflexivity.
    + subst comp. cbn. apply Forall_fmap. apply Forall_true. intros t. reflexivity.
Qed.

(** What [assertTablesOrder] asks of two neighbours, in the order of
    [y.Key.Compare]. *)
Definition neighboursOrdered (tbls : list T) : Prop :=
  forall i t1 t2,
    tbls !! i = Some t1 -> tbls !! S i = Some t2 ->
    y.Compare (table.Smallest t1) (table.Biggest t1) <> Gt /\
    y.Compare (table.Smallest t1) (table.Smallest t2) = Lt /\
    y.Compare (table.Biggest t1) (table.Biggest t2) = Lt.

(** Strict order and disjointness on user keys: every table ends before
    the next one starts. *)
Definition strictlyDisjoint (tbls : list T) : Prop :=
  forall i t1 t2,
    tbls !! i = Some t1 -> tbls !! S i = Some t2 ->
    bytes.lt (y.UserKey (table.Biggest t1)) (y.UserKey (table.Smallest t2)).

Lemma outOfOrder_false t1 t2 :
  outOfOrder t1 t2 = false <->
  y.Compare (table.Smallest t1) (table.Biggest t1) <> Gt /\
  y.Compare (table.Smallest t1) (table.Smallest t2) = Lt /\
  y.Compare (table.Biggest t1) (table.Biggest t2) = Lt.
Proof.
  unfold outOfOrder.
  destruct (y.Compare (table.Smallest t1) (table.Biggest t1));
    destruct (y.Compare (table.Smallest t1) (table.Smallest t2));
    destruct (y.Compare (table.Biggest t1) (table.Biggest t2));
    cbn; (split;
          [intros E; try discriminate E; repeat split; (discriminate || reflexivity)
          |intros (A & B & C); try discriminate B; try discriminate C;
           try (exfalso; apply A; reflexivity); reflexivity]).
Qed.

Lemma orderViolated_false tbls :
  orderViolated tbls = false <-> neighboursOrdered tbls.
Proof.
  unfold neighboursOrdered. induction tbls as [|t1 rest IH]; cbn [orderViolated].
  { split; [intros _ i t1 t2 E; discriminate E|reflexivity]. }
  destruct rest as [|t2 rest].
  { split; [intros _ i a b E1 E2; destruct i; discriminate E2|reflexivity]. }
  rewrite orb_false_iff, IH. split.
  - intros [O R] i a b E1 E2. destruct i as [|i].
    + cbn in E1, E2. injection E1 as <-. injection E2 as <-.
      apply outOfOrder_false. exact O.
    + apply (R i a b); assumption.
  - intros R. split.
    + apply outOfOrder_false. apply (R 0 t1 t2); reflexivity.
    + intros i a b E1 E2. apply (R (S i) a b); assumption.
Qed.

Lemma assertTablesOrder_Ok {S : Type} level tbls (s : S) :
  level = 0%Z \/ neighboursOrdered tbls ->
  assertTablesOrder level tbls s = (Ok tt, s).
Proof.
  unfold assertTablesOrder. intros [->|O]; [reflexivity|].
  apply orderViolated_false in O. rewrite O.
  destruct (level =? 0)%Z; reflexivity.
Qed.

Lemma assertTablesOrder_Panic {S : Type} level tbls (s : S) :
  level <> 0%Z -> ~ neighboursOrdered tbls ->
  assertTablesOrder level tbls s
  = (Panic "the order of level tables is invalid", s).
Proof.
  unfold assertTablesOrder. intros L O.
  apply Z.eqb_neq in L. rewrite L.
  destruct (orderViolated tbls) eqn:V; [reflexivity|].
  apply orderViolated_false in V. contradiction.
Qed.

Lemma assertTablesOrder_inv {S : Type} level tbls (s s' : S) :
  assertTablesOrder level tbls s = (Ok tt, s') ->
  s' = s /\ (level = 0%Z \/ neighboursOrdered tbls).
Proof.
  unfold assertTablesOrder. destruct (level =? 0)%Z eqn:L.
  - intros [= <-]. apply Z.eqb_eq in L. auto.
  - destruct (orderViolated tbls) eqn:V; [discriminate|].
    intros [= <-]. apply orderViolated_false in V. auto.
Qed.

Lemma openCreates_state cf creates : forall newLevel en r en',
  openCreates cf creates newLevel en = (r, en') -> en' = en.
Proof.
  induction creates as [|tbl rest IH]; intros newLevel en r en'; cbn [openCreates].
  { intros [= _ <-]. reflexivity. }
  destruct (negb (protos.TableCreate.CF tbl =? cf)%Z); [apply IH|].
  run_monad. unfold openTable.
  destruct (files en !! protos.TableCreate.ID tbl); [apply IH|].
  intros [= _ <-]. reflexivity.
Qed.

(** The slots after a successful compare-and-swap of slot [(cf, level)]. *)
Definition swapped (c : list (list levelHandler)) (cf level : Z) (newH : levelHandler)
  : list (list levelHandler) :=
  alter (fun scf => <[Z.to_nat (level - 1) := newH]> scf) (Z.to_nat cf) c.

(** The handler that [compactionUpdateLevelHandler] builds from
    [oldLevel], once the created tables are opened. *)
Definition builtLevel (newLevel1 oldLevel : levelHandler) (delIDs : list N)
    (del : gmap N T) : levelHandler :=
  let nl2 := fst (keepOld (tables oldLevel) delIDs newLevel1 del) in
  mkLevelHandler (hptr nl2) (hlevel nl2) (sortTables (tables nl2)) (totalSize nl2).

(** What a run of [compactionUpdateLevelHandler] that returns [nil] has
    done. *)
Lemma compactionUpdateLevelHandler_Ok env cf level creates delIDs del en del' en' :
  compactionUpdateLevelHandler env cf level creates delIDs del en = (Ok del', en') ->
  exists oldLevel newLevel1 cur,
    slot (shard en) cf level = Some oldLevel /\
    openCreates cf creates (mkLevelHandler (nextPtr en) level [] 0)
      (setNextPtr en (nextPtr en + 1)%N)
    = (Ok newLevel1, setNextPtr en (nextPtr en + 1)%N) /\
    del' = snd (keepOld (tables oldLevel) delIDs newLevel1 del) /\
    (level = 0%Z \/ neighboursOrdered (tables (builtLevel newLevel1 oldLevel delIDs del))) /\
    slot (env (shard en)) cf level = Some cur /\
    cfs (shard en')
    = if (hptr cur =? hptr oldLevel)%N
      then swapped (cfs (env (shard en))) cf level
             (builtLevel newLevel1 oldLevel delIDs del)
      else cfs (env (shard en)).
Proof.
  unfold compactionUpdateLevelHandler, getLevelHandler, newLevelHandler. run_monad.
  destruct (slot (shard en) cf level) as [oldLevel|] eqn:So; [|discriminate].
  destruct (openCreates cf creates _ _) as [[newLevel1|e|msg] en1] eqn:O;
    [|discriminate..].
  pose proof (openCreates_state _ _ _ _ _ _ O) as ->.
  unfold builtLevel.
  destruct (keepOld (tables oldLevel) delIDs newLevel1 del) as [nl2 del2] eqn:K.
  cbn [fst snd].
  destruct (assertTablesOrder level _ _) as [[[]|e|msg] en2] eqn:A; [|discriminate..].
  apply assertTablesOrder_inv in A as [-> A].
  unfold casLevelHandler. cbn [shard setShard setNextPtr].
  destruct (slot (env (shard en)) cf level) as [cur|] eqn:Sc; [|discriminate].
  cbn [tables hptr].
  destruct (hptr cur =? hptr oldLevel)%N eqn:P; intros [= <- <-];
    exists oldLevel, newLevel1, cur; unfold swapped; cbn; rewrite ?K, ?P; cbn;
    auto 10.
Qed.

Lemma slot_swapped s s' cf level cur newH :
  slot s cf level = Some cur ->
  cfs s' = swapped (cfs s) cf level newH ->
  slot s' cf level = Some newH.
Proof.
  unfold slot, index, swapped. intros So ->.
  destruct (cf <? 0)%Z; [discriminate|]. cbn in *.
  rewrite list_lookup_alter.
  destruct (cfs s !! Z.to_nat cf) as [scf|]; [|discriminate]. cbn in *.
  destruct (level - 1 <? 0)%Z; [discriminate|].
  case_decide; [|congruence]. cbn.
  apply list_lookup_insert_eq. eapply lookup_lt_Some. exact So.
Qed.

Lemma slot_same_cfs s s' cf level :
  cfs s' = cfs s -> slot s' cf level = slot s cf level.
Proof. unfold slot. intros ->. reflexivity. Qed.

(** A run of [compactionUpdateLevelHandler] in which the created tables
    open and the order check passes returns [nil], whatever becomes of
    the compare-and-swap. *)
Lemma compactionUpdateLevelHandler_run env cf level creates delIDs del en
    oldLevel newLevel1 cur :
  slot (shard en) cf level = Some oldLevel ->
  openCreates cf creates (mkLevelHandler (nextPtr en) level [] 0)
    (setNextPtr en (nextPtr en + 1)%N)
  = (Ok newLevel1, setNextPtr en (nextPtr en + 1)%N) ->
  level = 0%Z \/ neighboursOrdered (tables (builtLevel newLevel1 oldLevel delIDs del)) ->
  slot (env (shard en)) cf level = Some cur ->
  exists en',
    compactionUpdateLevelHandler env cf level creates delIDs del en
    = (Ok (snd (keepOld (tables oldLevel) delIDs newLevel1 del)), en').
Proof.
  intros So O A Sc.
  unfold compactionUpdateLevelHandler, getLevelHandler, newLevelHandler. run_monad.
  rewrite So, O. unfold builtLevel in A.
  destruct (keepOld (tables oldLevel) delIDs newLevel1 del) as [nl2 del2] eqn:K.
  cbn [fst snd] in *.
  rewrite (assertTablesOrder_Ok _ _ _ A).
  unfold casLevelHandler. cbn [shard setShard setNextPtr].
  rewrite Sc. destruct (hptr cur =? _)%N; eauto.
Qed.

(** C4 (as amended). At a level other than 0 [assertTablesOrder] panics
    exactly when some table and its right neighbour fail one of three
    tests in key order: [smallest <= biggest] for the left table,
    [smallest_i < smallest_(i+1)] and [biggest_i < biggest_(i+1)]; at
    level 0 it never panics. After an install by
    [compactionUpdateLevelHandler] that returns at a level other than 0,
    with nothing running concurrently, the slot holds a table sequence
    that passes these three tests. *)
Theorem install_keeps_neighbours_ordered :
  (forall (S : Type) level tbls (s : S),
      (level = 0%Z \/ neighboursOrdered tbls ->
       assertTablesOrder level tbls s = (Ok tt, s)) /\
      (level <> 0%Z -> ~ neighboursOrdered tbls ->
       exists msg, assertTablesOrder level tbls s = (Panic msg, s))) /\
  (forall cf level creates delIDs del en del' en',
      level <> 0%Z ->
      compactionUpdateLevelHandler (fun s => s) cf level creates delIDs del en
      = (Ok del', en') ->
      exists h, slot (shard en') cf level = Some h /\ neighboursOrdered (tables h)).
Proof.
  split.
  - intros S level tbls s. split.
    + apply assertTablesOrder_Ok.
    + intros L O. eexists. apply assertTablesOrder_Panic; assumption.
  - intros cf level creates delIDs del en del' en' L R.
    apply compactionUpdateLevelHandler_Ok in R
      as (oldLevel & newLevel1 & cur & So & _ & _ & A & Sc & C).
    rewrite So in Sc. injection Sc as <-. rewrite N.eqb_refl in C.
    exists (builtLevel newLevel1 oldLevel delIDs del). split.
    + eapply slot_swapped; eassumption.
    + destruct A as [A|A]; [contradiction|exact A].
Qed.

(** What [compactionUpdateLevelHandler] does when it loses the
    compare-and-swap of its slot (another goroutine replaced the handler
    after it was loaded): an install that returns [nil] when nothing
    interferes returns [nil] under the interference too, with the same
    deletions, and the slots are left as the other goroutine made them.
    The result of [casLevelHandler] is not looked at, nothing is rolled
    back and the caller goes on; [applySplitFiles] wraps the same call in
    [y.Assert]. *)
Theorem failed_swap_goes_unreported
    env cf level creates delIDs del en del0 en0 oldLevel cur :
  compactionUpdateLevelHandler (fun s => s) cf level creates delIDs del en
  = (Ok del0, en0) ->
  slot (shard en) cf level = Some oldLevel ->
  slot (env (shard en)) cf level = Some cur ->
  hptr cur <> hptr oldLevel ->
  exists en',
    compactionUpdateLevelHandler env cf level creates delIDs del en = (Ok del0, en') /\
    cfs (shard en') = cfs (env (shard en)).
Proof.
  intros R So Sc P.
  apply compactionUpdateLevelHandler_Ok in R
    as (oldLevel' & newLevel1 & cur0 & So' & O & -> & A & _ & _).
  rewrite So in So'. injection So' as <-.
  destruct (compactionUpdateLevelHandler_run env cf level creates delIDs del en
              oldLevel newLevel1 cur So O A Sc) as [en' R'].
  exists en'. split; [exact R'|].
  apply compactionUpdateLevelHandler_Ok in R'
    as (oldLevel' & newLevel1' & cur' & So' & _ & _ & _ & Sc' & C).
  rewrite So in So'. injection So' as <-.
  rewrite Sc in Sc'. injection Sc' as <-.
  apply N.eqb_neq in P. rewrite P in C. exact C.
Qed.

(** *** Replaying a change set *)

(** What the update of the level handlers leaves alone: the local files,
    the object storage and the manifest. *)
Definition sameStore (en en' : Engine) : Prop :=
  files en' = files en /\ s3c en' = s3c en /\ manifest en' = manifest en.

Lemma sameStore_refl en : sameStore en en.
Proof. repeat split. Qed.

Lemma sameStore_trans en1 en2 en3 :
  sameStore en1 en2 -> sameStore en2 en3 -> sameStore en1 en3.
Proof. unfold sameStore. intros [A [B C]] [D [E F]]. repeat split; congruence. Qed.

Lemma compactionUpdateLevelHandler_sameStore env cf level creates delIDs del en r en' :
  compactionUpdateLevelHandler env cf level creates delIDs del en = (r, en') ->
  sameStore en en'.
Proof.
  unfold compactionUpdateLevelHandler, getLevelHandler, newLevelHandler. run_monad.
  destruct (slot (shard en) cf level) as [oldLevel|]; [|intros [= _ <-]; apply sameStore_refl].
  destruct (openCreates cf creates _ _) as [r1 en1] eqn:O.
  pose proof (openCreates_state _ _ _ _ _ _ O) as ->.
  destruct r1 as [newLevel1|e|msg]; [|intros [= _ <-]; repeat split..].
  destruct (keepOld (tables oldLevel) delIDs newLevel1 del) as [nl2 del2].
  unfold assertTablesOrder, casLevelHandler. run_monad. cbn [shard setShard setNextPtr].
  repeat case_match; intros; simplify_eq; repeat split.
Qed.

Lemma updateLevelOne_sameStore env comp cfsLeft : forall del en r en',
  updateLevelOne env cfsLeft comp del en = (r, en') -> sameStore en en'.
Proof.
  induction cfsLeft as [|cf rest IH]; intros del en r en'; cbn [updateLevelOne].
  { intros [= _ <-]. apply sameStore_refl. }
  run_monad.
  destruct (compactionUpdateLevelHandler _ _ _ _ _ _ en) as [r1 en1] eqn:U.
  apply compactionUpdateLevelHandler_sameStore in U.
  destruct r1 as [del1|e|msg]; [|intros [= _ <-]; exact U..].
  intros R. apply IH in R. eapply sameStore_trans; eassumption.
Qed.

(** A load from the object storage only adds local files. *)
Lemma batchSchedule_load store ids : forall en r en',
  batchSchedule (map (loadFileFromS3 store) ids) en = (r, en') ->
  s3c en' = s3c en /\ manifest en' = manifest en /\
  shard en' = shard en /\
  (forall id, is_Some (files en !! id) -> is_Some (files en' !! id)) /\
  (r = Ok tt -> forall id, In id ids -> is_Some (files en' !! id)).
Proof.
  induction ids as [|id rest IH]; intros en r en'; cbn [map batchSchedule].
  { intros [= <- <-]. repeat split; auto. intros _ id []. }
  unfold loadFileFromS3 at 1.
  destruct (files en !! id) as [t|] eqn:L.
  - intros R. destruct (IH _ _ _ R) as (A & B & C & D & E).
    repeat split; auto. intros -> x [<-|I]; [|auto].
    apply D. rewrite L. eauto.
  - destruct (store !! id) as [t|] eqn:St.
    + intros R. destruct (IH _ _ _ R) as (A & B & C & D & E). cbn in *.
      repeat split; auto.
      * intros x Sx. apply D. destruct (decide (id = x)) as [->|Ne].
        -- rewrite lookup_insert_eq. eauto.
        -- rewrite lookup_insert_ne by exact Ne. exact Sx.
      * intros -> x [<-|I]; [|auto]. apply D. rewrite lookup_insert_eq. eauto.
    + destruct (batchSchedule _ en) as [r2 en2] eqn:R. cbn [snd].
      intros [= <- <-]. destruct (IH _ _ _ R) as (A & B & C & D & E).
      repeat split; auto. discriminate.
Qed.

(** Tables that are all in the local directory need no fetch. *)
Lemma batchSchedule_local store ids : forall en,
  (forall id, In id ids -> is_Some (files en !! id)) ->
  batchSchedule (map (loadFileFromS3 store) ids) en = (Ok tt, en).
Proof.
  induction ids as [|id rest IH]; intros en L; cbn [map batchSchedule]; [reflexivity|].
  unfold loadFileFromS3 at 1.
  destruct (L id (or_introl eq_refl)) as [t ->].
  apply IH. intros x I. apply L. right. exact I.
Qed.

Lemma installLevels_sameStore env comp en r en' :
  installLevels env comp en = (r, en') -> sameStore en en'.
Proof.
  unfold installLevels. destruct (protos.ShardCompaction.Level comp =? 0)%Z.
  - run_monad.
    destruct (updateLevelOne _ _ _ _ en) as [r1 en1] eqn:U.
    apply updateLevelOne_sameStore in U.
    destruct r1 as [del|e|msg]; [|intros [= _ <-]; exact U..].
    unfold atomicRemoveL0.
    destruct (length (l0s (shard en1)) <? _)%nat; intros [= _ <-];
      destruct U as (A & B & C); repeat split; assumption.
  - run_monad.
    destruct (compactionUpdateLevelHandler _ _ _ _ _ _ en) as [r1 en1] eqn:U.
    apply compactionUpdateLevelHandler_sameStore in U.
    destruct r1 as [del|e|msg]; [|intros [= _ <-]; exact U..].
    intros R. apply compactionUpdateLevelHandler_sameStore in R.
    eapply sameStore_trans; eassumption.
Qed.

Lemma recordAndInstall_Ok env changeSet comp enS en1 :
  recordAndInstall env changeSet comp enS = (Ok tt, en1) ->
  changeSet ∈ manifest en1 /\ s3c en1 = s3c enS /\ files en1 = files enS.
Proof.
  unfold recordAndInstall, writeChangeSet. run_monad.
  destruct (decide (changeSet ∈ manifest enS)) as [I|NI].
  - intros [= <-]. auto.
  - destruct (installLevels env comp _) as [rI enI] eqn:I.
    apply installLevels_sameStore in I as (A & B & C). cbn in A, B, C.
    destruct rI as [del|e|msg]; [|discriminate..].
    unfold guardDelete. run_monad. intros [= <-]. cbn.
    split; [|split; assumption].
    rewrite C. apply elem_of_app. right. apply list_elem_of_singleton. reflexivity.
Qed.

(** What a run of [applyCompaction] that returns [nil] leaves behind:
    the change set is in the manifest and, when an object storage is
    configured, the created tables are in the local directory. *)
Lemma applyCompactionBody_Ok env changeSet en en1 :
  applyCompactionBody env changeSet en = (Ok tt, en1) ->
  exists comp,
    protos.ShardChangeSet.Compaction changeSet = Some comp /\
    changeSet ∈ manifest en1 /\
    s3c en1 = s3c en /\
    (forall store, s3c en = Some store ->
       forall id, In id (map protos.TableCreate.ID (protos.ShardCompaction.TableCreates comp)) ->
         is_Some (files en1 !! id)).
Proof.
  unfold applyCompactionBody.
  destruct (protos.ShardChangeSet.Compaction changeSet) as [comp|]; [|discriminate].
  intros R. exists comp. split; [reflexivity|]. revert R.
  fold (recordAndInstall env changeSet comp). run_monad.
  destruct (s3c en) as [store|] eqn:C.
  - destruct (batchSchedule _ en) as [rS enS] eqn:S.
    rewrite <- (map_map protos.TableCreate.ID (loadFileFromS3 store)) in S.
    apply batchSchedule_load in S as (A & _ & _ & _ & E).
    destruct rS as [[]|e|msg]; [|discriminate..].
    intros R. apply recordAndInstall_Ok in R as (I & Sc & F).
    split; [exact I|]. split; [congruence|].
    intros store' _ id Iid. rewrite F. apply E; [reflexivity|exact Iid].
  - intros R. apply recordAndInstall_Ok in R as (I & Sc & F).
    split; [exact I|]. split; [congruence|]. discriminate.
Qed.

(** C9. Applying a compaction change set a second time changes
    nothing: when the first application returned [nil], the second one
    finds the record in the manifest, returns [nil] and leaves the whole
    engine (every level handler and the L0 pool included) as the first
    one left it; the same holds through [ApplyChangeSet] as long as the
    shard still has the id and version the change set names. *)
Theorem replayed_change_set_is_a_no_op env env' changeSet en en1 :
  applyCompaction env changeSet en = (Ok tt, en1) ->
  applyCompaction env' changeSet en1 = (Ok tt, en1) /\
  cfs (shard (snd (applyCompaction env' changeSet en1))) = cfs (shard en1) /\
  l0s (shard (snd (applyCompaction env' changeSet en1))) = l0s (shard en1) /\
  (ID (shard en1) = protos.ShardChangeSet.ShardID changeSet ->
   Ver (shard en1) = protos.ShardChangeSet.ShardVer changeSet ->
   protos.ShardChangeSet.Flush changeSet = false ->
   ApplyChangeSet env' changeSet en1 = (Ok tt, en1)).
Proof.
  unfold applyCompaction at 1.
  destruct (applyCompactionBody env changeSet en) as [r e1] eqn:B.
  intros [= -> <-].
  apply applyCompactionBody_Ok in B as (comp & Hc & I & Sc & F).
  set (en1 := setShard e1 (markCompacting false (shard e1))).
  assert (R : applyCompaction env' changeSet en1 = (Ok tt, en1)).
  { unfold applyCompaction, applyCompactionBody. rewrite Hc. run_monad.
    assert (L : (match s3c en1 with
                 | Some store =>
                     batchSchedule
                       (map (fun tbl => loadFileFromS3 store (protos.TableCreate.ID tbl))
                          (protos.ShardCompaction.TableCreates comp))
                 | None => fun s => (Ok tt, s)
                 end) en1 = (Ok tt, en1)).
    { destruct (s3c en1) as [store|] eqn:C; [|reflexivity].
      rewrite <- (map_map protos.TableCreate.ID (loadFileFromS3 store)).
      apply batchSchedule_local. intros id Iid.
      destruct (s3c en) as [store0|] eqn:C0.
      - exact (F store0 eq_refl id Iid).
      - subst en1. cbn in C. congruence. }
    rewrite L. unfold recordAndInstall, writeChangeSet. run_monad.
    destruct (decide (changeSet ∈ manifest en1)) as [_|NI]; [|contradiction].
    subst en1. destruct e1 as [? ? ? ? ? ? ? [? ? ? ? ? ? ? ?] ? ? ?]. reflexivity. }
  split; [exact R|]. rewrite R. cbn [snd]. split; [reflexivity|]. split; [reflexivity|].
  intros Hid Hver Hf. unfold ApplyChangeSet. run_monad.
  rewrite Hid, Hver, !N.eqb_refl, Hf, Hc. cbn [negb]. exact R.
Qed.

(** *** The planner *)

(** [CompactionPriority]; the fields [CF], [Level] and [Shard] carry a
    prefix here. [Score] is a [float64] in the source; it only takes part
    in comparisons, which are made on the rationals. *)
Record CompactionPriority := mkPriority {
  PriCF : Z;
  PriLevel : Z;
  Score : Q;
  PriShard : Shard
}.

(** [sdb.getCompactionPriority(shard)] computes the score in [float64]
    arithmetic; the planner only compares its result. *)
Variable getCompactionPriority : Shard -> CompactionPriority.

(** The callback of [shardMap.Range] in [GetCompactionPriorities]. *)
Definition visitShard (results : list CompactionPriority) (s : Shard)
  : list CompactionPriority :=
  if negb (passive s) && negb (compacting s) then
    let pri := getCompactionPriority s in
    if negb (Qle_bool (Score pri) 1) then results ++ [pri] else results
  else results.

(** The comparison handed to [sort.Slice]:
    [results[i].Score > results[j].Score]. *)
Definition higherScore (a b : CompactionPriority) : bool :=
  negb (Qle_bool (Score a) (Score b)).

(** [sdb.GetCompactionPriorities(buf)]. [visited] lists the shards of
    [shardMap] in the order in which [Range] calls back. *)
Definition GetCompactionPriorities (visited : list Shard) : list CompactionPriority :=
  sortSlice CompactionPriority higherScore (fold_left visitShard visited []).

(** What [sort.Slice] promises for a comparison that is asymmetric and
    whose negation is transitive: a sorted rearrangement. *)
Definition SortContract : Prop :=
  forall (A : Type) (less : A -> A -> bool) (l : list A),
    Permutation (sortSlice A less l) l /\
    ((forall a b, less a b = true -> less b a = false) ->
     (forall a b c, less b a = false -> less c b = false -> less c a = false) ->
     StronglySorted (fun a b => less b a = false) (sortSlice A less l)).

(** The shards that [GetCompactionPriorities] keeps. *)
Definition kept (s : Shard) : bool :=
  negb (passive s) && negb (compacting s)
  && negb (Qle_bool (Score (getCompactionPriority s)) 1).

Lemma StronglySorted_weaken {A : Type} (R R' : A -> A -> Prop) (l : list A) :
  (forall a b, R a b -> R' a b) -> StronglySorted R l -> StronglySorted R' l.
Proof.
  intros I. induction 1 as [|a l S IH F]; constructor; [exact IH|].
  eapply Forall_impl; [exact F|]. intros b. apply I.
Qed.

Lemma fold_visitShard visited : forall results,
  fold_left visitShard visited results
  = results ++ (getCompactionPriority <$> List.filter kept visited).
Proof.
  induction visited as [|s rest IH]; intros results; cbn [fold_left List.filter].
  { cbn. rewrite app_nil_r. reflexivity. }
  rewrite IH. unfold visitShard, kept.
  destruct (negb (passive s) && negb (compacting s)); cbn [andb].
  - destruct (negb (Qle_bool (Score (getCompactionPriority s)) 1)); cbn.
    + rewrite <- app_assoc. reflexivity.
    + reflexivity.
  - reflexivity.
Qed.

(** C8 (as amended). [GetCompactionPriorities] returns the priorities of
    exactly the visited shards that are not passive, not compacting and
    have a score above 1 (whether a shard is splitting is not looked at
    here), sorted by score descending; the order among equal scores is
    the one [sort.Slice] happens to produce. *)
Theorem priorities_are_the_eligible_shards_by_score visited :
  SortContract ->
  Permutation (GetCompactionPriorities visited)
              (getCompactionPriority <$> List.filter kept visited) /\
  StronglySorted (fun a b => (Score b <= Score a)%Q) (GetCompactionPriorities visited) /\
  (forall s, kept s = true <->
             passive s = false /\ compacting s = false /\
             (1 < Score (getCompactionPriority s))%Q).
Proof.
  intros C. unfold GetCompactionPriorities. rewrite fold_visitShard. cbn [app].
  destruct (C CompactionPriority higherScore
              (getCompactionPriority <$> List.filter kept visited)) as [P S].
  split; [exact P|]. split.
  - assert (SS : StronglySorted (fun a b => higherScore b a = false)
                   (sortSlice CompactionPriority higherScore
                      (getCompactionPriority <$> List.filter kept visited))).
    { apply S.
      - intros a b L. unfold higherScore in *. apply negb_true_iff in L.
        apply negb_false_iff. apply Qle_bool_iff.
        destruct (Qlt_le_dec (Score b) (Score a)) as [Lt|Le].
        + apply Qlt_le_weak. exact Lt.
        + apply Qle_bool_iff in Le. congruence.
      - intros a b c L1 L2. unfold higherScore in *.
        apply negb_false_iff in L1, L2. apply negb_false_iff.
        apply Qle_bool_iff in L1, L2. apply Qle_bool_iff.
        eapply Qle_trans; eassumption. }
    eapply StronglySorted_weaken; [|exact SS].
    intros a b L. unfold higherScore in L. apply negb_false_iff in L.
    apply Qle_bool_iff. exact L.
  - intros s. unfold kept. rewrite !andb_true_iff, !negb_true_iff. split.
    + intros [[Pv Cv] Sc]. repeat split; try assumption.
      apply Qnot_le_lt. intros Le. apply Qle_bool_iff in Le. congruence.
    + intros (Pv & Cv & Sc). repeat split; try assumption.
      destruct (Qle_bool (Score (getCompactionPriority s)) 1) eqn:E; [|reflexivity].
      apply Qle_bool_iff in E. exfalso. exact (Qlt_not_le _ _ Sc E).
Qed.

End Engine.


(** ** More of the key order, key ranges and level handlers *)

Lemma Compare_antisym (a b : y.Key) : y.Compare a b = CompOpp (y.Compare b a).
Proof.
  unfold y.Compare.
  destruct (bytes.Compare (y.UserKey a) (y.UserKey b)) eqn:C.
  - apply bytes.compare_eq in C. rewrite C, bytes.compare_refl.
    apply N.compare_antisym.
  - assert (C' : bytes.Compare (y.UserKey b) (y.UserKey a) = Gt)
      by (apply bytes.compare_gt_lt; exact C).
    rewrite C'. reflexivity.
  - apply bytes.compare_gt_lt in C. rewrite C. reflexivity.
Qed.

Lemma Compare_Lt_cases (a b : y.Key) :
  y.Compare a b = Lt <->
  bytes.lt (y.UserKey a) (y.UserKey b) \/
  (y.UserKey a = y.UserKey b /\ (y.Version b < y.Version a)%N).
Proof.
  unfold y.Compare, bytes.lt.
  destruct (bytes.Compare (y.UserKey a) (y.UserKey b)) eqn:C.
  - apply bytes.compare_eq in C. rewrite N.compare_lt_iff. split.
    + intros L. right. split; assumption.
    + intros [D|[_ L]]; [discriminate|exact L].
  - split; [intros _; left; reflexivity|reflexivity].
  - split; [discriminate|]. intros [D|[E _]]; [discriminate|].
    apply bytes.compare_eq in E. congruence.
Qed.

Lemma Compare_le_cases (a b : y.Key) :
  y.Compare a b <> Gt <->
  bytes.lt (y.UserKey a) (y.UserKey b) \/
  (y.UserKey a = y.UserKey b /\ (y.Version b <= y.Version a)%N).
Proof.
  exact (keyLe_cases (mkEntry a (y.mkValue 0 "" "" 0)) (mkEntry b (y.mkValue 0 "" "" 0))).
Qed.

Lemma Compare_Lt_trans (a b c : y.Key) :
  y.Compare a b = Lt -> y.Compare b c = Lt -> y.Compare a c = Lt.
Proof.
  rewrite !Compare_Lt_cases. intros [L1|[E1 V1]] [L2|[E2 V2]].
  - left. eapply bytes.lt_trans; eassumption.
  - left. rewrite <- E2. exact L1.
  - left. rewrite E1. exact L2.
  - right. split; [congruence|lia].
Qed.

Lemma Compare_le_trans (a b c : y.Key) :
  y.Compare a b <> Gt -> y.Compare b c <> Gt -> y.Compare a c <> Gt.
Proof.
  rewrite !Compare_le_cases. intros [L1|[E1 V1]] [L2|[E2 V2]].
  - left. eapply bytes.lt_trans; eassumption.
  - left. rewrite <- E2. exact L1.
  - left. rewrite E1. exact L2.
  - right. split; [congruence|lia].
Qed.

Lemma Compare_refl (a : y.Key) : y.Compare a a = Eq.
Proof. unfold y.Compare. rewrite bytes.compare_refl. apply N.compare_refl. Qed.

Lemma Compare_Gt_Lt (a b : y.Key) : y.Compare a b = Gt <-> y.Compare b a = Lt.
Proof.
  rewrite (Compare_antisym a b). destruct (y.Compare b a); cbn; split; congruence.
Qed.

Section Ranges.

Context {T : Type} `{table.Table T}.

(** [infRange] *)
Definition infRange : keyRange := mkKeyRange y.zeroKey y.zeroKey true.

(** [r.overlapsWith(dst)] *)
Definition overlapsWith (r dst : keyRange) : bool :=
  if inf r || inf dst then true
  else
    match y.Compare (left r) (right dst) with
    | Gt => false
    | _ =>
        match y.Compare (right r) (left dst) with
        | Lt => false
        | _ => true
        end
    end.

(** The loop of [getKeyRange] over [tables[1:]]. *)
Fixpoint widen (tbls : list T) (smallest biggest : y.Key) : keyRange :=
  match tbls with
  | [] => mkKeyRange smallest biggest false
  | t :: rest =>
      let smallest' :=
        match y.Compare (table.Smallest t) smallest with
        | Lt => table.Smallest t
        | _ => smallest
        end in
      let biggest' :=
        match y.Compare (table.Biggest t) biggest with
        | Gt => table.Biggest t
        | _ => biggest
        end in
      widen rest smallest' biggest'
  end.

(** [getKeyRange(tables)]; [y.Assert(len(tables) > 0)] panics on an
    empty list. *)
Definition getKeyRange {S : Type} (tbls : list T) : M S keyRange :=
  match tbls with
  | [] => panic "Assert failed"
  | t :: rest => mret (widen rest (table.Smallest t) (table.Biggest t))
  end.

Lemma overlapsWith_finite r dst :
  inf r = false -> inf dst = false ->
  overlapsWith r dst = true <->
  y.Compare (left r) (right dst) <> Gt /\ y.Compare (left dst) (right r) <> Gt.
Proof.
  intros Ir Id. unfold overlapsWith. rewrite Ir, Id. cbn [orb].
  rewrite (Compare_antisym (left dst) (right r)).
  destruct (y.Compare (left r) (right dst));
    destruct (y.Compare (right r) (left dst)); cbn;
    (split; [intros E; try discriminate E; split; discriminate
            |intros [A B]; try reflexivity; congruence]).
Qed.

(** X6. [overlapsWith] is symmetric; an infinite range overlaps every
    range; and two finite ranges overlap exactly when each starts no
    later than the other ends, in key order. *)
Theorem overlapsWith_is_symmetric r dst :
  overlapsWith r dst = overlapsWith dst r /\
  (inf r = true \/ inf dst = true -> overlapsWith r dst = true) /\
  (inf r = false -> inf dst = false ->
   (overlapsWith r dst = true <->
    y.Compare (left r) (right dst) <> Gt /\ y.Compare (left dst) (right r) <> Gt)).
Proof.
  split; [|split].
  - unfold overlapsWith. rewrite (orb_comm (inf dst)).
    destruct (inf r || inf dst); [reflexivity|].
    rewrite (Compare_antisym (left dst) (right r)),
            (Compare_antisym (right dst) (left r)).
    destruct (y.Compare (left r) (right dst));
      destruct (y.Compare (right r) (left dst)); reflexivity.
  - unfold overlapsWith. intros [-> | ->]; [reflexivity|].
    rewrite orb_true_r. reflexivity.
  - apply overlapsWith_finite.
Qed.

Lemma widen_spec tbls : forall smallest biggest,
  let r := widen tbls smallest biggest in
  inf r = false /\
  y.Compare (left r) smallest <> Gt /\ y.Compare biggest (right r) <> Gt /\
  Forall (fun t => y.Compare (left r) (table.Smallest t) <> Gt /\
                   y.Compare (table.Biggest t) (right r) <> Gt) tbls /\
  (left r = smallest \/ exists t, In t tbls /\ left r = table.Smallest t) /\
  (right r = biggest \/ exists t, In t tbls /\ right r = table.Biggest t).
Proof.
  induction tbls as [|t rest IH]; intros smallest biggest; cbn [widen].
  { cbn. rewrite !Compare_refl. repeat split; try discriminate; auto. }
  set (s' := match y.Compare (table.Smallest t) smallest with Lt => _ | _ => _ end).
  set (b' := match y.Compare (table.Biggest t) biggest with Gt => _ | _ => _ end).
  destruct (IH s' b') as (I & Ls & Lb & F & Al & Ar). cbn zeta.
  assert (Ss : y.Compare s' smallest <> Gt /\ y.Compare s' (table.Smallest t) <> Gt).
  { subst s'. destruct (y.Compare (table.Smallest t) smallest) eqn:C.
    - rewrite Compare_refl. split; [discriminate|].
      rewrite Compare_antisym, C. discriminate.
    - rewrite C, Compare_refl. split; discriminate.
    - rewrite Compare_refl. split; [discriminate|].
      apply Compare_Gt_Lt in C. rewrite C. discriminate. }
  assert (Bs : y.Compare biggest b' <> Gt /\ y.Compare (table.Biggest t) b' <> Gt).
  { subst b'. destruct (y.Compare (table.Biggest t) biggest) eqn:C.
    - rewrite Compare_refl, C. split; discriminate.
    - rewrite Compare_refl, C. split; discriminate.
    - rewrite Compare_refl. split; [|discriminate].
      apply Compare_Gt_Lt in C. rewrite C. discriminate. }
  destruct Ss as [Ss1 Ss2]. destruct Bs as [Bs1 Bs2].
  split; [exact I|]. split; [eapply Compare_le_trans; eassumption|].
  split; [eapply Compare_le_trans; eassumption|]. split.
  - constructor; [|exact F].
    split; eapply Compare_le_trans; eassumption.
  - split.
    + destruct Al as [E|(t' & I' & E)].
      * rewrite E. subst s'. destruct (y.Compare (table.Smallest t) smallest);
          [left; reflexivity|right; exists t; split; [left|]; reflexivity|left; reflexivity].
      * right. exists t'. split; [right; exact I'|exact E].
    + destruct Ar as [E|(t' & I' & E)].
      * rewrite E. subst b'. destruct (y.Compare (table.Biggest t) biggest);
          [left; reflexivity|left; reflexivity|right; exists t; split; [left|]; reflexivity].
      * right. exists t'. split; [right; exact I'|exact E].
Qed.

(** X7. [getKeyRange] panics on an empty list; on any other list it
    returns the tight bounding range: finite, starting at the smallest
    key of one of the tables and ending at the biggest key of one of
    them, with every table's smallest and biggest key inside. *)
Theorem getKeyRange_is_the_bounding_range (S : Type) (tbls : list T) (s : S) :
  (tbls = [] -> exists msg, getKeyRange tbls s = (Panic msg, s)) /\
  (tbls <> [] ->
   exists r,
     getKeyRange tbls s = (Ok r, s) /\ inf r = false /\
     Forall (fun t => y.Compare (left r) (table.Smallest t) <> Gt /\
                      y.Compare (table.Biggest t) (right r) <> Gt) tbls /\
     (exists t, In t tbls /\ left r = table.Smallest t) /\
     (exists t, In t tbls /\ right r = table.Biggest t)).
Proof.
  split.
  - intros ->. eexists. reflexivity.
  - destruct tbls as [|t rest]; [contradiction|]. intros _.
    destruct (widen_spec rest (table.Smallest t) (table.Biggest t))
      as (I & Ls & Lb & F & Al & Ar).
    exists (widen rest (table.Smallest t) (table.Biggest t)).
    split; [reflexivity|]. split; [exact I|]. split; [constructor; [split|]; assumption|].
    split.
    + destruct Al as [E|(t' & I' & E)].
      * exists t. split; [left; reflexivity|exact E].
      * exists t'. split; [right; exact I'|exact E].
    + destruct Ar as [E|(t' & I' & E)].
      * exists t. split; [left; reflexivity|exact E].
      * exists t'. split; [right; exact I'|exact E].
Qed.

End Ranges.

Section Levels.

Context {T : Type} `{table.Table T}.

Variable sortSlice : forall A : Type, (A -> A -> bool) -> list A -> list A.

(** *** Sizes *)

(** [sumTableSize(tables)]: an [int64] sum. *)
Definition sumTableSize (tbls : list T) : Z :=
  fold_left (fun size t => wrap64 (size + table.Size t)) tbls 0%Z.

(** The sum of the sizes without the wrap-around. *)
Definition sizeSum (tbls : list T) : Z :=
  fold_right (fun t acc => (table.Size t + acc)%Z) 0%Z tbls.

Lemma wrap64_add_l a b : wrap64 (wrap64 a + b) = wrap64 (a + b).
Proof.
  unfold wrap64. f_equal.
  replace ((a + 2 ^ 63) mod 2 ^ 64 - 2 ^ 63 + b + 2 ^ 63)%Z
    with ((a + 2 ^ 63) mod 2 ^ 64 + b)%Z by lia.
  rewrite Zplus_mod_idemp_l. f_equal. lia.
Qed.

Lemma wrap64_idem a : wrap64 (wrap64 a) = wrap64 a.
Proof.
  replace (wrap64 a) with (wrap64 a + 0)%Z at 1 by lia.
  rewrite wrap64_add_l. f_equal. lia.
Qed.

Lemma fold_wrap64 tbls : forall a,
  fold_left (fun size t => wrap64 (size + table.Size t)) tbls (wrap64 a)
  = wrap64 (a + sizeSum tbls).
Proof.
  induction tbls as [|t rest IH]; intros a; cbn [fold_left sizeSum fold_right].
  - f_equal. cbn. lia.
  - rewrite wrap64_add_l, IH. f_equal. unfold sizeSum. cbn. lia.
Qed.

Lemma sumTableSize_sizeSum tbls : sumTableSize tbls = wrap64 (sizeSum tbls).
Proof.
  unfold sumTableSize. change 0%Z with (wrap64 0) at 1.
  rewrite fold_wrap64. reflexivity.
Qed.

Lemma sizeSum_app a b : sizeSum (a ++ b) = (sizeSum a + sizeSum b)%Z.
Proof.
  induction a as [|t a IH]; [reflexivity|].
  cbn [app]. unfold sizeSum in *. cbn [fold_right]. rewrite IH. lia.
Qed.

Lemma sizeSum_Permutation a b : Permutation a b -> sizeSum a = sizeSum b.
Proof.
  unfold sizeSum.
  induction 1 as [|x l l' P IH|x x' l|l l' l'' P1 IH1 P2 IH2]; cbn [fold_right].
  - reflexivity.
  - rewrite IH. reflexivity.
  - lia.
  - congruence.
Qed.

(** *** What an install puts into a slot *)

(** The records of [creates] that are for column family [cf]. *)
Definition createdFor (cf : Z) (creates : list protos.TableCreate.t)
  : list protos.TableCreate.t :=
  List.filter (fun c => (protos.TableCreate.CF c =? cf)%Z) creates.

(** The old tables that [delIDs] names, and the others. *)
Definition droppedTables (delIDs : list N) (old : list T) : list T :=
  List.filter (fun t => containsUint64 delIDs (table.ID t)) old.

Definition keptTables (delIDs : list N) (old : list T) : list T :=
  List.filter (fun t => negb (containsUint64 delIDs (table.ID t))) old.

Lemma containsUint64_In slice v : containsUint64 slice v = true <-> In v slice.
Proof.
  induction slice as [|sv rest IH]; cbn.
  - split; [discriminate|contradiction].
  - destruct (sv =? v)%N eqn:E.
    + apply N.eqb_eq in E. split; auto.
    + apply N.eqb_neq in E. rewrite IH. split; [auto|].
      intros [E'|I]; [contradiction|exact I].
Qed.

Lemma openCreates_Ok cf creates : forall newLevel (en : Engine) newLevel' en',
  openCreates cf creates newLevel en = (Ok newLevel', en') ->
  exists opened,
    Forall2 (fun c t => files en !! protos.TableCreate.ID c = Some t)
            (createdFor cf creates) opened /\
    tables newLevel' = tables newLevel ++ opened /\
    hptr newLevel' = hptr newLevel /\
    hlevel newLevel' = hlevel newLevel /\
    totalSize newLevel'
    = fold_left (fun size t => wrap64 (size + table.Size t)) opened (totalSize newLevel).
Proof.
  induction creates as [|tbl rest IH]; intros newLevel en newLevel' en';
    cbn [openCreates createdFor List.filter].
  { intros [= <- <-]. exists []. rewrite app_nil_r. repeat split. constructor. }
  destruct (protos.TableCreate.CF tbl =? cf)%Z; cbn [negb].
  - run_monad. unfold openTable.
    destruct (files en !! protos.TableCreate.ID tbl) as [t|] eqn:F; [|discriminate].
    intros O. apply IH in O as (opened & F2 & Tb & P & L & Sz).
    exists (t :: opened). cbn [appendTable tables hptr hlevel totalSize] in *.
    split; [constructor; assumption|].
    rewrite Tb, <- app_assoc. repeat split; assumption.
  - apply IH.
Qed.


Lemma keepOld_spec delIDs old : forall newLevel (del : gmap N T),
  tables (fst (keepOld old delIDs newLevel del)) = tables newLevel ++ keptTables delIDs old /\
  hptr (fst (keepOld old delIDs newLevel del)) = hptr newLevel /\
  hlevel (fst (keepOld old delIDs newLevel del)) = hlevel newLevel /\
  totalSize (fst (keepOld old delIDs newLevel del))
  = fold_left (fun size t => wrap64 (size + table.Size t)) (keptTables delIDs old)
      (totalSize newLevel) /\
  snd (keepOld old delIDs newLevel del)
  = fold_left (fun d t => <[table.ID t := t]> d) (droppedTables delIDs old) del.
Proof.
  induction old as [|t rest IH]; intros newLevel del;
    cbn [keepOld keptTables droppedTables List.filter].
  { cbn. rewrite app_nil_r. auto. }
  destruct (containsUint64 delIDs (table.ID t)); cbn [negb].
  - apply IH.
  - destruct (IH (appendTable newLevel t) del) as (A & B & C & D & E).
    cbn [appendTable tables hptr hlevel totalSize] in *.
    rewrite A, <- app_assoc. auto.
Qed.

(** What the deletions hold after the ids of [dropped] were added. *)
Lemma deletions_spec (dropped : list T) : forall (del : gmap N T),
  let del' := fold_left (fun d t => <[table.ID t := t]> d) dropped del in
  (forall t, In t dropped ->
     exists t', del' !! table.ID t = Some t' /\ In t' dropped /\ table.ID t' = table.ID t) /\
  (forall id, ~ In id (table.ID <$> dropped) -> del' !! id = del !! id).
Proof.
  induction dropped as [|d rest IH]; intros del; cbn [fold_left].
  { split; [contradiction|reflexivity]. }
  destruct (IH (<[table.ID d := d]> del)) as [A B]. cbn zeta. split.
  - intros t [->|Hin].
    + destruct (in_dec N.eq_dec (table.ID t) (table.ID <$> rest)) as [Hid|Hid].
      * apply in_map_iff in Hid as (t2 & E & Hin2).
        destruct (A t2 Hin2) as (t' & L & Hin' & E').
        rewrite E in L.
        exists t'. split; [exact L|]. split; [right; exact Hin'|congruence].
      * rewrite (B _ Hid), lookup_insert_eq. exists t. split; [reflexivity|].
        split; [left|]; reflexivity.
    + destruct (A t Hin) as (t' & L & Hin' & E').
      exists t'. split; [exact L|]. split; [right; exact Hin'|exact E'].
  - intros id Hid. cbn in Hid. rewrite B.
    + apply lookup_insert_ne. intros E. apply Hid. left. exact E.
    + intros Hin. apply Hid. right. exact Hin.
Qed.

(** A run of [compactionUpdateLevelHandler] that returns [nil] while
    nothing else touches the shard. *)
Lemma compactionUpdateLevelHandler_alone cf level creates delIDs del (en : Engine) del' en' :
  compactionUpdateLevelHandler sortSlice (fun s => s) cf level creates delIDs del en
  = (Ok del', en') ->
  exists oldLevel newLevel1,
    slot (shard en) cf level = Some oldLevel /\
    openCreates cf creates (mkLevelHandler (nextPtr en) level [] 0)
      (setNextPtr en (nextPtr en + 1)%N)
    = (Ok newLevel1, setNextPtr en (nextPtr en + 1)%N) /\
    del' = snd (keepOld (tables oldLevel) delIDs newLevel1 del) /\
    en' = setShard (setNextPtr en (nextPtr en + 1)%N)
            (addEstimatedSize
               (wrap64 (totalSize (builtLevel sortSlice newLevel1 oldLevel delIDs del)
                        - totalSize oldLevel))
               (setCfs (shard en)
                  (swapped (cfs (shard en)) cf level
                     (builtLevel sortSlice newLevel1 oldLevel delIDs del)))).
Proof.
  unfold compactionUpdateLevelHandler, getLevelHandler, newLevelHandler. run_monad.
  destruct (slot (shard en) cf level) as [oldLevel|] eqn:So; [|discriminate].
  destruct (openCreates cf creates _ _) as [[newLevel1|e|msg] en1] eqn:O;
    [|discriminate..].
  pose proof (openCreates_state _ _ _ _ _ _ O) as ->.
  unfold builtLevel.
  destruct (keepOld (tables oldLevel) delIDs newLevel1 del) as [nl2 del2] eqn:K.
  cbn [fst snd].
  destruct (assertTablesOrder level _ _) as [[[]|e|msg] en2] eqn:A; [|discriminate..].
  apply assertTablesOrder_inv in A as [-> A].
  unfold casLevelHandler. cbn [shard setShard setNextPtr].
  rewrite So, N.eqb_refl. intros [= <- <-].
  exists oldLevel, newLevel1. unfold swapped. cbn. rewrite ?K. cbn. auto.
Qed.

(** X8. With nothing running concurrently, an install by
    [compactionUpdateLevelHandler] that returns [nil] leaves in the slot
    a new handler of the same level that holds, in some order, the
    tables opened from the files of the created records of this column
    family followed by the old tables whose ids are not in [delIDs]; its
    [totalSize] is the sum of the sizes of its tables; the estimated
    size of the shard moves by the difference of the two [totalSize]s;
    and the deletions gain the old tables named in [delIDs], one per id,
    and nothing else. *)
Theorem install_swaps_deleted_tables_for_created_ones
    cf level creates delIDs del (en : Engine) del' en' :
  SortContract sortSlice ->
  compactionUpdateLevelHandler sortSlice (fun s => s) cf level creates delIDs del en
  = (Ok del', en') ->
  exists oldLevel h opened,
    slot (shard en) cf level = Some oldLevel /\
    slot (shard en') cf level = Some h /\
    Forall2 (fun c t => files en !! protos.TableCreate.ID c = Some t)
            (createdFor cf creates) opened /\
    Permutation (tables h) (opened ++ keptTables delIDs (tables oldLevel)) /\
    hlevel h = level /\ hptr h = nextPtr en /\
    totalSize h = sumTableSize (tables h) /\
    estimatedSize (shard en')
    = wrap64 (estimatedSize (shard en) + wrap64 (totalSize h - totalSize oldLevel)) /\
    (forall t, In t (droppedTables delIDs (tables oldLevel)) ->
       exists t', del' !! table.ID t = Some t' /\
                  In t' (droppedTables delIDs (tables oldLevel)) /\
                  table.ID t' = table.ID t) /\
    (forall id, ~ In id (table.ID <$> droppedTables delIDs (tables oldLevel)) ->
       del' !! id = del !! id).
Proof.
  intros C R.
  apply compactionUpdateLevelHandler_alone in R as (oldLevel & nl1 & So & O & -> & ->).
  apply openCreates_Ok in O as (opened & F2 & Tb & P & L & Sz).
  cbn [tables hptr hlevel totalSize files setNextPtr app] in *.
  destruct (keepOld_spec delIDs (tables oldLevel) nl1 del) as (KT & KP & KL & KS & KD).
  set (h := builtLevel sortSlice nl1 oldLevel delIDs del).
  assert (PT : Permutation (tables h) (opened ++ keptTables delIDs (tables oldLevel))).
  { unfold h, builtLevel, sortTables. cbn [tables].
    rewrite (proj1 (C T _ _)), KT, Tb. reflexivity. }
  exists oldLevel, h, opened.
  split; [exact So|]. split.
  { eapply slot_swapped; [exact So|]. reflexivity. }
  split; [exact F2|]. split; [exact PT|].
  split; [unfold h, builtLevel; cbn; congruence|].
  split; [unfold h, builtLevel; cbn; congruence|].
  split.
  { rewrite sumTableSize_sizeSum, (sizeSum_Permutation _ _ PT), <- sumTableSize_sizeSum.
    unfold h, builtLevel. cbn [totalSize]. rewrite KS, Sz, <- fold_left_app.
    reflexivity. }
  split; [reflexivity|].
  rewrite KD. apply deletions_spec.
Qed.


(** *** Deleting tables from a level *)

(** The loop over [old.tables] of [deleteTables]: the tables kept so
    far and the running [totalSize]. *)
Fixpoint dropDeleted (toDelMap : gset N) (oldTables newTables : list T) (total : Z)
  : list T * Z :=
  match oldTables with
  | [] => (newTables, total)
  | t :: rest =>
      if decide (table.ID t ∈ toDelMap)
      then dropDeleted toDelMap rest newTables (wrap64 (total - table.Size t))
      else dropDeleted toDelMap rest (newTables ++ [t]) total
  end.

(** [sdb.deleteTables(old, toDel)] *)
Definition deleteTables (old : @levelHandler T) (toDel : list T)
  : M (@Engine T) (@levelHandler T) :=
  newHandler ← newLevelHandler (hlevel old);
  let toDelMap : gset N := fold_left (fun m t => {[table.ID t]} ∪ m) toDel ∅ in
  let '(newTables, total) := dropDeleted toDelMap (tables old) [] (totalSize old) in
  assertTablesOrder (hlevel newHandler) newTables;;
  mret (mkLevelHandler (hptr newHandler) (hlevel newHandler) newTables total).

Lemma toDelMap_spec (toDel : list T) : forall (m : gset N) id,
  id ∈ fold_left (fun m t => {[table.ID t]} ∪ m) toDel m
  <-> id ∈ m \/ In id (table.ID <$> toDel).
Proof.
  induction toDel as [|t rest IH]; intros m id; cbn [fold_left].
  { cbn. tauto. }
  rewrite IH, elem_of_union, elem_of_singleton. cbn. intuition congruence.
Qed.

Lemma dropDeleted_spec (toDel : list T) (m : gset N) old :
  (forall id, id ∈ m <-> In id (table.ID <$> toDel)) ->
  forall newTables total,
    dropDeleted m old newTables total
    = (newTables ++ keptTables (table.ID <$> toDel) old,
       fold_left (fun a t => wrap64 (a - table.Size t))
         (droppedTables (table.ID <$> toDel) old) total).
Proof.
  intros M. induction old as [|t rest IH]; intros newTables total;
    cbn [dropDeleted keptTables droppedTables List.filter].
  { rewrite app_nil_r. reflexivity. }
  destruct (decide (table.ID t ∈ m)) as [Hin|Hin].
  - apply M, containsUint64_In in Hin. rewrite Hin. cbn [negb]. apply IH.
  - destruct (containsUint64 (table.ID <$> toDel) (table.ID t)) eqn:E.
    + apply containsUint64_In, M in E. contradiction.
    + cbn [negb]. rewrite IH, <- app_assoc. reflexivity.
Qed.

Lemma orderViolated_tail t (l : list T) :
  orderViolated (t :: l) = false -> orderViolated l = false.
Proof.
  cbn [orderViolated]. destruct l as [|t2 l]; [reflexivity|].
  intros E. apply orb_false_iff in E. apply E.
Qed.

Lemma orderViolated_head t1 (l : list T) :
  orderViolated (t1 :: l) = false -> forall t, In t l -> outOfOrder t1 t = false.
Proof.
  revert t1. induction l as [|t2 l IH]; intros t1 V t Hin; [contradiction|].
  cbn [orderViolated] in V. apply orb_false_iff in V as [O V].
  destruct Hin as [<-|Hin]; [exact O|].
  specialize (IH t2 V t Hin).
  apply outOfOrder_false in O as (A & B & C).
  apply outOfOrder_false in IH as (A' & B' & C').
  apply outOfOrder_false. split; [exact A|].
  split; eapply Compare_Lt_trans; eassumption.
Qed.

Lemma orderViolated_filter (f : T -> bool) (l : list T) :
  orderViolated l = false -> orderViolated (List.filter f l) = false.
Proof.
  induction l as [|t1 l IH]; intros V; [reflexivity|].
  pose proof (orderViolated_tail _ _ V) as Vt. specialize (IH Vt).
  cbn [List.filter]. destruct (f t1); [|exact IH].
  destruct (List.filter f l) as [|t2 r] eqn:F; [reflexivity|].
  cbn [orderViolated]. apply orb_false_iff. split; [|exact IH].
  apply (orderViolated_head t1 l V).
  assert (Hin : In t2 (List.filter f l)) by (rewrite F; left; reflexivity).
  apply filter_In in Hin. apply Hin.
Qed.

Lemma sizeSum_filter (f : T -> bool) (l : list T) :
  sizeSum l = (sizeSum (List.filter f l) + sizeSum (List.filter (fun t => negb (f t)) l))%Z.
Proof.
  unfold sizeSum. induction l as [|t l IH]; [reflexivity|].
  cbn [List.filter fold_right]. destruct (f t); cbn [negb fold_right]; lia.
Qed.

Lemma fold_wrap64_sub (l : list T) : forall a,
  fold_left (fun a t => wrap64 (a - table.Size t)) l (wrap64 a)
  = wrap64 (a - sizeSum l).
Proof.
  induction l as [|t rest IH]; intros a; cbn [fold_left].
  - f_equal. cbn. lia.
  - replace (wrap64 a - table.Size t)%Z with (wrap64 a + - table.Size t)%Z by lia.
    rewrite wrap64_add_l, IH. f_equal. unfold sizeSum. cbn. lia.
Qed.

(** X10. [deleteTables] on a handler whose tables pass the order check
    of their level never panics: it returns a fresh handler of the same
    level with the tables whose ids are not among those of [toDel], in
    their old order, which pass the order check again; and when
    [totalSize] was the sum of the table sizes before, it is so
    after. *)
Theorem deleteTables_keeps_order_and_size (old : levelHandler) (toDel : list T)
    (en : Engine) :
  hlevel old = 0%Z \/ neighboursOrdered (tables old) ->
  exists h,
    deleteTables old toDel en = (Ok h, setNextPtr en (nextPtr en + 1)%N) /\
    tables h = keptTables (table.ID <$> toDel) (tables old) /\
    hlevel h = hlevel old /\ hptr h = nextPtr en /\
    (hlevel old = 0%Z \/ neighboursOrdered (tables h)) /\
    (totalSize old = sumTableSize (tables old) -> totalSize h = sumTableSize (tables h)).
Proof.
  intros O. unfold deleteTables, newLevelHandler. run_monad.
  rewrite (dropDeleted_spec toDel).
  2:{ intros id. rewrite toDelMap_spec. split; [intros [E|E]; [set_solver|exact E]|auto]. }
  cbn [app hlevel hptr].
  assert (O' : hlevel old = 0%Z \/ neighboursOrdered (keptTables (table.ID <$> toDel) (tables old))).
  { destruct O as [O|O]; [left; exact O|right].
    apply orderViolated_false. apply orderViolated_filter.
    apply orderViolated_false. exact O. }
  rewrite (assertTablesOrder_Ok _ _ _ O').
  eexists. split; [reflexivity|]. cbn [tables hlevel hptr totalSize].
  split; [reflexivity|]. split; [reflexivity|]. split; [reflexivity|].
  split; [exact O'|].
  intros ->. rewrite !sumTableSize_sizeSum, fold_wrap64_sub. f_equal.
  rewrite (sizeSum_filter (fun t => containsUint64 (table.ID <$> toDel) (table.ID t))
             (tables old)).
  unfold keptTables, droppedTables. lia.
Qed.

(** *** The managed safe timestamp *)

Definition setMangedSafeTS (en : @Engine T) (ts : N) : @Engine T :=
  mkEngine (opt en) (numCFs en) ts (safeTs en) (files en) (s3c en) (manifest en)
    (shard en) (nextPtr en) (reclaimed en) (metaChangeListener en).

(** [sdb.UpdateMangedSafeTs(ts)]: a loop around a compare-and-swap.
    [env] lists, round by round, what other goroutines make of
    [mangedSafeTS] between the load and the compare-and-swap; when the
    list is used up nothing interferes any more. *)
Fixpoint UpdateMangedSafeTs (env : list (N -> N)) (ts : N) : M (@Engine T) unit :=
  fun en =>
    let old := mangedSafeTS en in
    if (old <? ts)%N then
      match env with
      | [] => (Ok tt, setMangedSafeTS en ts)
      | f :: rest =>
          let en1 := setMangedSafeTS en (f old) in
          if (mangedSafeTS en1 =? old)%N then (Ok tt, setMangedSafeTS en1 ts)
          else UpdateMangedSafeTs rest ts en1
      end
    else (Ok tt, en).

(** X11. [UpdateMangedSafeTs(ts)] returns with [mangedSafeTS] at [ts]
    or above, whatever other goroutines stored in between; alone it
    leaves the larger of the old value and [ts]; when the others only
    raise the value it never goes down; nothing else of the engine
    changes; and afterwards [getCFSafeTS] of a managed column family
    gives [ts] or more. *)
Theorem UpdateMangedSafeTs_raises_to_at_least_ts env ts (en : Engine) :
  exists en',
    UpdateMangedSafeTs env ts en = (Ok tt, en') /\
    (ts <= mangedSafeTS en')%N /\
    (env = [] -> mangedSafeTS en' = N.max (mangedSafeTS en) ts) /\
    (Forall (fun f => forall v, (v <= f v)%N) env ->
     (mangedSafeTS en <= mangedSafeTS en')%N) /\
    en' = setMangedSafeTS en (mangedSafeTS en') /\
    (forall cf, index (CFs (opt en)) cf = Some true ->
       exists v, getCFSafeTS cf en' = (Ok v, en') /\ (ts <= v)%N).
Proof.
  assert (G : exists en',
    UpdateMangedSafeTs env ts en = (Ok tt, en') /\
    (ts <= mangedSafeTS en')%N /\
    (env = [] -> mangedSafeTS en' = N.max (mangedSafeTS en) ts) /\
    (Forall (fun f => forall v, (v <= f v)%N) env ->
     (mangedSafeTS en <= mangedSafeTS en')%N) /\
    en' = setMangedSafeTS en (mangedSafeTS en')).
  { revert en. induction env as [|f rest IH]; intros en; cbn [UpdateMangedSafeTs].
    - destruct (mangedSafeTS en <? ts)%N eqn:L.
      + apply N.ltb_lt in L. exists (setMangedSafeTS en ts).
        split; [reflexivity|]. cbn [mangedSafeTS setMangedSafeTS].
        split; [lia|]. split; [intros _; lia|]. split; [intros _; lia|reflexivity].
      + apply N.ltb_ge in L. exists en. split; [reflexivity|].
        split; [lia|]. split; [intros _; lia|]. split; [intros _; lia|].
        destruct en; reflexivity.
    - destruct (mangedSafeTS en <? ts)%N eqn:L.
      + apply N.ltb_lt in L. cbn [mangedSafeTS setMangedSafeTS].
        destruct (f (mangedSafeTS en) =? mangedSafeTS en)%N eqn:E.
        * exists (setMangedSafeTS (setMangedSafeTS en (f (mangedSafeTS en))) ts).
          split; [reflexivity|]. cbn [mangedSafeTS setMangedSafeTS].
          split; [lia|]. split; [discriminate|]. split; [intros _; lia|reflexivity].
        * destruct (IH (setMangedSafeTS en (f (mangedSafeTS en))))
            as (en' & R & A & _ & B & C).
          exists en'. split; [exact R|]. split; [exact A|].
          split; [discriminate|]. split.
          -- intros F. inversion F as [|? ? Ff Fr]; subst.
             specialize (B Fr). cbn [mangedSafeTS setMangedSafeTS] in B.
             specialize (Ff (mangedSafeTS en)). lia.
          -- rewrite C at 1. reflexivity.
      + apply N.ltb_ge in L. exists en. split; [reflexivity|].
        split; [lia|]. split; [discriminate|]. split; [intros _; lia|].
        destruct en; reflexivity. }
  destruct G as (en' & R & A & B & C & D).
  exists en'. repeat (split; [assumption|]).
  intros cf M. unfold getCFSafeTS. rewrite D. cbn [opt setMangedSafeTS mangedSafeTS].
  rewrite M. eexists. split; [reflexivity|exact A].
Qed.

End Levels.

(** ** Building the level-1 tables of a level-0 compaction *)

Module L0Build.

Section Helper.

Context {T : Type} `{table.Table T}.

Variable EncodedSize : y.ValueStruct -> Z.
Variable KeyLen : y.Key -> Z.
Variable EstimateSize : list Entry -> Z.

(** [shardL0BuildHelper]: the fields that [buildOne] reads and writes.
    The builder is the list of entries added since it was last reset;
    [iter] is what the merge iterator has still to yield. *)
Record shardL0BuildHelper := mkHelper {
  builder : list Entry;
  lastKey : y.Key;
  skipKey : y.Key;
  safeTS : N;
  filter : option CompactionFilter;
  iter : list Entry
}.

Inductive control := Next (h : shardL0BuildHelper) | Break (h : shardL0BuildHelper).

Definition setIter (h : shardL0BuildHelper) (it : list Entry) : shardL0BuildHelper :=
  mkHelper (builder h) (lastKey h) (skipKey h) (safeTS h) (filter h) it.

(** One pass through the body of the loop of [buildOne] on the entry
    the iterator stands on. [Next] covers [continue] and reaching the
    end of the body (the iterator advances); [Break] leaves it in
    place. [maxTableSize] is [h.db.opt.TableBuilderOptions.MaxTableSize]. *)
Definition step (maxTableSize : Z) (e : Entry) (h : shardL0BuildHelper) : control :=
  let key := ekey e in
  let vs := evalue e in
  if negb (y.IsEmpty (skipKey h)) && y.SameUserKey key (skipKey h) then Next h
  else
    let skipKey1 :=
      if negb (y.IsEmpty (skipKey h)) then y.Reset (skipKey h) else skipKey h in
    if negb (y.SameUserKey key (lastKey h))
       && (maxTableSize <? EstimateSize (builder h))%Z
    then Break (mkHelper (builder h) (lastKey h) skipKey1 (safeTS h) (filter h) (iter h))
    else
      let lastKey1 :=
        if y.SameUserKey key (lastKey h) then lastKey h else y.Copy (lastKey h) key in
      let add := fun skipKey2 =>
        Next (mkHelper (builder h ++ [e]) lastKey1 skipKey2 (safeTS h) (filter h) (iter h)) in
      if (y.Version key <=? safeTS h)%N then
        let skipKey2 := y.Copy skipKey1 key in
        if negb (y.isDeleted (y.Meta vs)) then
          match filter h with
          | Some f =>
              match f 0%Z (y.UserKey key) (y.Value vs) (y.UserMeta vs) with
              | DecisionMarkTombstone =>
                  Next (mkHelper (builder h ++ [mkEntry key (y.mkValue y.bitDelete "" "" 0)])
                          lastKey1 skipKey2 (safeTS h) (filter h) (iter h))
              | DecisionDrop =>
                  Next (mkHelper (builder h) lastKey1 skipKey2 (safeTS h) (filter h) (iter h))
              | DecisionKeep => add skipKey2
              end
          | None => add skipKey2
          end
        else add skipKey2
      else add skipKey1.

(** The loop [for ; it.Valid(); y.NextAllVersion(it)] of [buildOne]:
    runs until the iterator is exhausted or the body breaks; the helper
    keeps the iterator where the loop left it. *)
Fixpoint loop (maxTableSize : Z) (it : list Entry) (h : shardL0BuildHelper)
  : shardL0BuildHelper :=
  match it with
  | [] => setIter h []
  | e :: rest =>
      match step maxTableSize e h with
      | Next h' => loop maxTableSize rest h'
      | Break h' => setIter h' it
      end
  end.

(** [h.buildOne()]. [latest] is the counter of the id allocator; files
    are kept in memory, so no I/O error arises. [None] is the [nil]
    result of an empty builder. *)
Definition buildOne (maxTableSize : Z) (h : shardL0BuildHelper) (latest : N)
  : option BuildResult * shardL0BuildHelper * N :=
  let filename := wrapU64 (latest + 1) in
  let h0 := mkHelper [] (y.Reset (lastKey h)) (y.Reset (skipKey h))
              (safeTS h) (filter h) (iter h) in
  let h1 := loop maxTableSize (iter h0) h0 in
  if builderEmpty (builder h1) then (None, h1, filename)
  else (Some (finish filename (builder h1)), h1, filename).

(** The loop around [buildOne] in [compactShardMultiCFL0]: tables are
    built until [buildOne] returns [nil]. [fuel] bounds the number of
    rounds. *)
Fixpoint buildTables (fuel : nat) (maxTableSize : Z) (h : shardL0BuildHelper)
    (latest : N) (results : list BuildResult)
  : option (list BuildResult * shardL0BuildHelper * N) :=
  match fuel with
  | O => None
  | S fuel' =>
      match buildOne maxTableSize h latest with
      | (None, h', latest') => Some (results, h', latest')
      | (Some result, h', latest') =>
          buildTables fuel' maxTableSize h' latest' (results ++ [result])
      end
  end.

(** The job of [CompactTables] that treats entries as the helper does:
    safe timestamp and filter of the helper, column family 0 in the
    call of the filter, and tombstones kept as under an overlap. *)
Definition describes (cd : CompactDef T) (h : shardL0BuildHelper) : Prop :=
  SafeTS cd = safeTS h /\ Filter cd = filter h /\ HasOverlap cd = true /\ CF cd = 0%Z.

Lemma survivors_skipKey_ext (cd : CompactDef T) it : forall sk sk',
  y.UserKey sk = y.UserKey sk' -> survivors cd sk it = survivors cd sk' it.
Proof.
  induction it as [|e rest IH]; intros sk sk' E; [reflexivity|].
  cbn [survivors]. unfold y.IsEmpty, y.SameUserKey. rewrite <- E.
  destruct (negb (String.eqb (y.UserKey sk) "")
            && String.eqb (y.UserKey (ekey e)) (y.UserKey sk)); [apply IH; exact E|].
  assert (E1 : y.UserKey (if negb (String.eqb (y.UserKey sk) "") then y.Reset sk else sk)
               = y.UserKey (if negb (String.eqb (y.UserKey sk) "") then y.Reset sk' else sk')).
  { destruct (negb (String.eqb (y.UserKey sk) "")); [reflexivity|exact E]. }
  destruct (y.Version (ekey e) <=? SafeTS cd)%N.
  - f_equal.
  - f_equal. apply IH. exact E1.
Qed.

Lemma step_fields maxTableSize e h :
  match step maxTableSize e h with
  | Next h' | Break h' => safeTS h' = safeTS h /\ filter h' = filter h
  end.
Proof.
  unfold step.
  destruct (negb (y.IsEmpty (skipKey h)) && y.SameUserKey (ekey e) (skipKey h));
    [split; reflexivity|].
  destruct (negb (y.SameUserKey (ekey e) (lastKey h)) && _); [split; reflexivity|].
  destruct (y.Version (ekey e) <=? safeTS h)%N; [|split; reflexivity].
  destruct (negb (y.isDeleted (y.Meta (evalue e)))); [|split; reflexivity].
  destruct (filter h) as [f|]; [|split; reflexivity].
  destruct (f _ _ _ _); split; reflexivity.
Qed.

Lemma describes_fields (cd : CompactDef T) h h' :
  describes cd h -> safeTS h' = safeTS h -> filter h' = filter h -> describes cd h'.
Proof. unfold describes. intros (A & B & C & D) -> ->. auto. Qed.

Lemma step_describes cd maxTableSize e h :
  describes cd h ->
  match step maxTableSize e h with Next h' | Break h' => describes cd h' end.
Proof.
  intros D. pose proof (step_fields maxTableSize e h) as F.
  destruct (step maxTableSize e h) as [h'|h']; destruct F as [A B];
    eapply describes_fields; eassumption.
Qed.

Lemma build_step_Next_survivors cd maxTableSize e h h' rest :
  describes cd h -> step maxTableSize e h = Next h' ->
  builder h' ++ survivors cd (skipKey h') rest
  = builder h ++ survivors cd (skipKey h) (e :: rest).
Proof.
  intros (Ts & Fl & Ov & Cf). unfold step. cbn [survivors].
  unfold retained, userKeyOf. rewrite Ts, Fl, Ov, Cf.
  destruct (negb (y.IsEmpty (skipKey h)) && y.SameUserKey (ekey e) (skipKey h)).
  { intros [= <-]. reflexivity. }
  destruct (negb (y.SameUserKey (ekey e) (lastKey h)) && _); [discriminate|].
  destruct (y.Version (ekey e) <=? safeTS h)%N.
  - destruct (y.isDeleted (y.Meta (evalue e))); cbn [negb].
    + intros [= <-]; cbn; rewrite <- ?app_assoc; reflexivity.
    + destruct (filter h) as [f|].
      * destruct (f _ _ _ _); intros [= <-]; cbn; rewrite <- ?app_assoc; reflexivity.
      * intros [= <-]; cbn; rewrite <- ?app_assoc; reflexivity.
  - intros [= <-]; cbn; rewrite <- ?app_assoc; reflexivity.
Qed.

(** What a [break] leaves: nothing was added, [skipKey] is empty, the
    user key is new and the table is over the limit. *)
Lemma step_Break_inv maxTableSize e h h' :
  step maxTableSize e h = Break h' ->
  builder h' = builder h /\ lastKey h' = lastKey h /\
  y.UserKey (skipKey h') = "" /\
  (negb (y.IsEmpty (skipKey h)) && y.SameUserKey (ekey e) (skipKey h) = false) /\
  userKeyOf e <> y.UserKey (lastKey h) /\
  (maxTableSize < EstimateSize (builder h))%Z.
Proof.
  unfold step.
  destruct (negb (y.IsEmpty (skipKey h)) && y.SameUserKey (ekey e) (skipKey h)) eqn:G.
  { discriminate. }
  destruct (negb (y.SameUserKey (ekey e) (lastKey h))
            && (maxTableSize <? EstimateSize (builder h))%Z) eqn:B.
  2:{ repeat case_match; discriminate. }
  intros [= <-]. cbn. apply andb_prop in B as [B1 B2].
  apply negb_true_iff, y.SameUserKey_false in B1. apply Z.ltb_lt in B2.
  repeat split; try assumption.
  destruct (y.IsEmpty (skipKey h)) eqn:E; cbn; [|reflexivity].
  apply y.IsEmpty_true. exact E.
Qed.

Lemma build_step_Break_survivors (cd : CompactDef T) maxTableSize e h h' rest :
  step maxTableSize e h = Break h' ->
  survivors cd (skipKey h') (e :: rest) = survivors cd (skipKey h) (e :: rest).
Proof.
  intros B. pose proof (step_Break_inv _ _ _ _ B) as (_ & _ & E & G & _ & _).
  cbn [survivors]. rewrite G.
  assert (E' : y.IsEmpty (skipKey h') = true) by (apply y.IsEmpty_true; exact E).
  rewrite E'. cbn [negb andb].
  assert (X : y.UserKey (skipKey h')
              = y.UserKey (if negb (y.IsEmpty (skipKey h)) then y.Reset (skipKey h)
                           else skipKey h)).
  { rewrite E. destruct (y.IsEmpty (skipKey h)) eqn:Q; cbn; [|reflexivity].
    symmetry. apply y.IsEmpty_true. exact Q. }
  destruct (y.Version (ekey e) <=? SafeTS cd)%N; [reflexivity|].
  f_equal. apply survivors_skipKey_ext. exact X.
Qed.

(** Where the loop of one [buildOne] stops. *)
Lemma loop_shape maxTableSize it : forall h,
  let h' := loop maxTableSize it h in
  safeTS h' = safeTS h /\ filter h' = filter h /\
  (exists pre, it = pre ++ iter h' /\ (builder h' <> builder h -> pre <> [])) /\
  (iter h' = [] \/
   (y.UserKey (skipKey h') = "" /\ (maxTableSize < EstimateSize (builder h'))%Z)).
Proof.
  induction it as [|e rest IH]; intros h; cbn [loop].
  { cbn. split; [reflexivity|]. split; [reflexivity|]. split; [|left; reflexivity].
    exists []. split; [reflexivity|]. intros N. contradiction. }
  pose proof (step_fields maxTableSize e h) as D.
  destruct (step maxTableSize e h) as [h1|h1] eqn:S.
  - destruct D as (Ts & Fl).
    destruct (IH h1) as (Ts' & Fl' & (pre & P & _) & End). cbn zeta.
    split; [congruence|]. split; [congruence|]. split; [|exact End].
    exists (e :: pre). split; [cbn; rewrite <- P; reflexivity|discriminate].
  - destruct D as (Ts & Fl).
    pose proof (step_Break_inv _ _ _ _ S) as (B & _ & E & _ & _ & Sz).
    cbn. split; [congruence|]. split; [congruence|]. split.
    + exists []. split; [reflexivity|]. intros N. rewrite B in N. contradiction.
    + right. split; [exact E|]. rewrite B. exact Sz.
Qed.

Lemma loop_survivors cd maxTableSize it : forall h,
  describes cd h ->
  builder (loop maxTableSize it h)
  ++ survivors cd (skipKey (loop maxTableSize it h)) (iter (loop maxTableSize it h))
  = builder h ++ survivors cd (skipKey h) it.
Proof.
  induction it as [|e rest IH]; intros h D; cbn [loop]; [reflexivity|].
  pose proof (step_describes cd maxTableSize e h D) as D1.
  destruct (step maxTableSize e h) as [h1|h1] eqn:S.
  - rewrite (IH h1 D1). eapply build_step_Next_survivors; eassumption.
  - pose proof (step_Break_inv _ _ _ _ S) as (B & _).
    cbn. rewrite B. f_equal. eapply build_step_Break_survivors. exact S.
Qed.

(** The loop around [buildOne] returns: every table it adds took at
    least one entry from the iterator. *)
Lemma buildTables_shape maxTableSize fuel : forall h latest results,
  length (iter h) < fuel ->
  exists new h' latest',
    buildTables fuel maxTableSize h latest results = Some (results ++ new, h', latest') /\
    safeTS h' = safeTS h /\ filter h' = filter h /\
    Forall (fun r => Entries r <> []) new /\
    Forall (fun r => (maxTableSize < EstimateSize (Entries r))%Z) (removelast new) /\
    (iter h = [] -> new = []) /\
    ((EstimateSize [] <= maxTableSize)%Z -> iter h' = []).
Proof.
  induction fuel as [|fuel IH]; intros h latest results Hlen; [lia|].
  cbn [buildTables]. unfold buildOne. cbn [iter].
  set (h0 := mkHelper [] _ _ _ _ _).
  destruct (loop_shape maxTableSize (iter h) h0) as (Ts & Fl & (pre & P & Np) & End).
  cbn [safeTS filter builder] in Ts, Fl, Np.
  destruct (builder (loop maxTableSize (iter h) h0)) as [|b bs] eqn:B; cbn [builderEmpty].
  - exists [], (loop maxTableSize (iter h) h0), (wrapU64 (latest + 1)).
    rewrite app_nil_r. split; [reflexivity|].
    split; [exact Ts|]. split; [exact Fl|].
    split; [constructor|]. split; [constructor|]. split; [reflexivity|].
    intros Le. destruct End as [E|[_ Sz]]; [exact E|]. try rewrite B in Sz; cbn in Sz; lia.
  - assert (Hp : pre <> []) by (apply Np; discriminate).
    assert (Hl : length (iter (loop maxTableSize (iter h) h0)) < fuel).
    { rewrite P, length_app in Hlen. destruct pre; [contradiction|]. cbn in Hlen. lia. }
    destruct (IH (loop maxTableSize (iter h) h0) (wrapU64 (latest + 1))
                 (results ++ [finish (wrapU64 (latest + 1)) (b :: bs)]) Hl)
      as (new & h' & latest' & R & Ts' & Fl' & Ne & Ov & Em & Ex).
    exists (finish (wrapU64 (latest + 1)) (b :: bs) :: new), h', latest'.
    split; [rewrite R, <- app_assoc; reflexivity|].
    split; [etransitivity; [exact Ts'|exact Ts]|].
    split; [etransitivity; [exact Fl'|exact Fl]|].
    split; [constructor; [discriminate|exact Ne]|]. split.
    + destruct new as [|n new]; [constructor|].
      change (removelast (?a :: n :: new)) with (a :: removelast (n :: new)).
      constructor; [|exact Ov]. cbn [finish Entries].
      destruct End as [E|[_ Sz]]; [|try rewrite B in Sz; exact Sz].
      specialize (Em E). discriminate.
    + split; [|exact Ex]. intros E. rewrite E in P.
      destruct pre; [contradiction|discriminate].
Qed.

Lemma buildTables_survivors cd maxTableSize fuel :
  forall h latest results results' h' latest',
  describes cd h -> (EstimateSize [] <= maxTableSize)%Z ->
  buildTables fuel maxTableSize h latest results = Some (results', h', latest') ->
  outputEntries results' = outputEntries results ++ survivors cd y.zeroKey (iter h).
Proof.
  induction fuel as [|fuel IH]; intros h latest results results' h' latest' D Le;
    [discriminate|].
  cbn [buildTables]. unfold buildOne. cbn [iter].
  set (h0 := mkHelper [] _ _ _ _ _).
  assert (D0 : describes cd h0) by exact D.
  assert (Sv : builder (loop maxTableSize (iter h) h0)
               ++ survivors cd (skipKey (loop maxTableSize (iter h) h0))
                    (iter (loop maxTableSize (iter h) h0))
               = survivors cd y.zeroKey (iter h))
    by exact (loop_survivors cd maxTableSize (iter h) h0 D0).
  destruct (loop_shape maxTableSize (iter h) h0) as (Ts & Fl & _ & End).
  assert (Z0 : survivors cd (skipKey (loop maxTableSize (iter h) h0))
                 (iter (loop maxTableSize (iter h) h0))
               = survivors cd y.zeroKey (iter (loop maxTableSize (iter h) h0))).
  { destruct End as [E|[E _]]; [rewrite E; reflexivity|].
    apply survivors_skipKey_ext. exact E. }
  destruct (builder (loop maxTableSize (iter h) h0)) as [|b bs] eqn:B; cbn [builderEmpty].
  - intros [= <- <- <-]. rewrite <- Sv. cbn [app].
    destruct End as [E|[_ Sz]]; [|try rewrite B in Sz; lia].
    rewrite E, app_nil_r. reflexivity.
  - intros R. apply IH in R; [|eapply describes_fields; eassumption|exact Le].
    rewrite R, outputEntries_snoc, <- app_assoc. cbn [finish Entries].
    f_equal. rewrite <- Sv, Z0. reflexivity.
Qed.

(** *** Tables end at user-key boundaries *)

Lemma build_step_Next_shape maxTableSize e h h' :
  step maxTableSize e h = Next h' ->
  (lastKey h' = lastKey h /\ builder h' = builder h) \/
  (y.UserKey (lastKey h') = userKeyOf e /\
   (builder h' = builder h \/
    exists x, builder h' = builder h ++ [x] /\ ekey x = ekey e)).
Proof.
  unfold step.
  destruct (negb (y.IsEmpty (skipKey h)) && y.SameUserKey (ekey e) (skipKey h)).
  { intros [= <-]. left. split; reflexivity. }
  destruct (negb (y.SameUserKey (ekey e) (lastKey h)) && _); [discriminate|].
  assert (K : y.UserKey (if y.SameUserKey (ekey e) (lastKey h) then lastKey h
                         else y.Copy (lastKey h) (ekey e)) = userKeyOf e).
  { destruct (y.SameUserKey (ekey e) (lastKey h)) eqn:Q; [|reflexivity].
    symmetry. apply y.SameUserKey_true. exact Q. }
  intros R. right.
  repeat case_match; injection R as <-; cbn [lastKey builder]; (split; [exact K|]); eauto.
Qed.

Lemma loop_boundary maxTableSize it : forall h,
  StronglySorted userKeyLe it ->
  Forall (fun x => bytes.le (userKeyOf x) (y.UserKey (lastKey h))) (builder h) ->
  Forall (fun e => bytes.le (y.UserKey (lastKey h)) (userKeyOf e)) it ->
  allBefore (builder (loop maxTableSize it h)) (iter (loop maxTableSize it h)) /\
  (forall x, In x (builder (loop maxTableSize it h)) ->
     In x (builder h) \/ exists e, In e it /\ ekey x = ekey e).
Proof.
  induction it as [|e rest IH]; intros h S I1 I2; cbn [loop].
  { cbn. split; [intros x y0 _ []|]. intros x Hin. left. exact Hin. }
  apply StronglySorted_inv in S as [S Fe].
  apply Forall_cons in I2 as [I2e I2].
  destruct (step maxTableSize e h) as [h1|h1] eqn:E.
  - apply build_step_Next_shape in E.
    assert (J : Forall (fun x => bytes.le (userKeyOf x) (y.UserKey (lastKey h1))) (builder h1)
                /\ Forall (fun e0 => bytes.le (y.UserKey (lastKey h1)) (userKeyOf e0)) rest
                /\ (forall x, In x (builder h1) -> In x (builder h) \/ ekey x = ekey e)).
    { destruct E as [[-> ->]|[K B]].
      - split; [exact I1|]. split; [exact I2|]. intros x Hin. left. exact Hin.
      - rewrite K. split; [|split].
        + assert (O : Forall (fun x => bytes.le (userKeyOf x) (userKeyOf e)) (builder h)).
          { eapply Forall_impl; [exact I1|]. intros x Hx. cbn in Hx.
            eapply bytes.le_trans; [exact Hx|exact I2e]. }
          destruct B as [->|[x [-> Kx]]]; [exact O|].
          apply Forall_app. split; [exact O|]. constructor; [|constructor].
          unfold userKeyOf. rewrite Kx. apply bytes.le_refl.
        + exact Fe.
        + intros x Hin. destruct B as [B|[x0 [B Kx]]]; rewrite B in Hin.
          * left. exact Hin.
          * apply in_app_or in Hin as [Hin|[<-|[]]]; [left; exact Hin|right; exact Kx]. }
    destruct J as [J1 [J2 J3]].
    destruct (IH _ S J1 J2) as [A K].
    split; [exact A|].
    intros x Hin. destruct (K x Hin) as [Hin'|[e' [Hin' Ke]]].
    + destruct (J3 x Hin') as [Hin''|Kx]; [left; exact Hin''|].
      right. exists e. split; [left; reflexivity|exact Kx].
    + right. exists e'. split; [right; exact Hin'|exact Ke].
  - pose proof (step_Break_inv _ _ _ _ E) as (B & _ & _ & _ & D & _).
    cbn [setIter builder iter]. rewrite B.
    split; [|intros x Hin; left; exact Hin].
    assert (L : bytes.lt (y.UserKey (lastKey h)) (userKeyOf e)).
    { apply bytes.le_neq_lt; [exact I2e|congruence]. }
    intros x y0 Ix Iy. rewrite List.Forall_forall in I1.
    eapply bytes.le_lt_trans; [apply I1; exact Ix|].
    destruct Iy as [<-|Iy]; [exact L|].
    eapply bytes.lt_le_trans; [exact L|].
    rewrite List.Forall_forall in Fe. apply Fe. exact Iy.
Qed.

Lemma buildTables_ordered maxTableSize fuel :
  forall h latest results results' h' latest',
  StronglySorted userKeyLe (iter h) ->
  ForallOrdPairs tableBefore results ->
  (forall r, In r results -> allBefore (Entries r) (iter h)) ->
  buildTables fuel maxTableSize h latest results = Some (results', h', latest') ->
  ForallOrdPairs tableBefore results'.
Proof.
  induction fuel as [|fuel IH]; intros h latest results results' h' latest' S FO Bf;
    [discriminate|].
  cbn [buildTables]. unfold buildOne. cbn [iter].
  set (h0 := mkHelper [] _ _ _ _ _).
  destruct (loop_shape maxTableSize (iter h) h0) as (_ & _ & (pre & P & _) & _).
  destruct (loop_boundary maxTableSize (iter h) h0) as [A K];
    cbn [builder lastKey y.Reset y.UserKey h0].
  { exact S. }
  { constructor. }
  { apply List.Forall_forall. intros x _. apply bytes.empty_le. }
  cbn [builder h0] in K. fold h0 in A, K.
  assert (S1 : StronglySorted userKeyLe (iter (loop maxTableSize (iter h) h0))).
  { rewrite P in S. eapply StronglySorted_suffix. exact S. }
  assert (Bf1 : forall r, In r results ->
                  allBefore (Entries r) (iter (loop maxTableSize (iter h) h0))).
  { intros r Hin x y0 Ix Iy. apply (Bf r Hin x y0 Ix). rewrite P.
    apply in_or_app. right. exact Iy. }
  destruct (builder (loop maxTableSize (iter h) h0)) as [|b bs] eqn:B; cbn [builderEmpty].
  - intros [= <- <- <-]. exact FO.
  - apply IH; [exact S1| |].
    + apply ForallOrdPairs_snoc; [exact FO|].
      apply List.Forall_forall. intros r Hin x y0 Ix Iy. cbn [finish Entries] in Iy.
      destruct (K _ Iy) as [[]|[e' [Ie Ke]]].
      unfold userKeyOf at 2. rewrite Ke. apply (Bf r Hin x e' Ix Ie).
    + intros r Hin. apply in_app_or in Hin as [Hin|[<-|[]]]; [apply Bf1; exact Hin|].
      cbn [finish Entries]. exact A.
Qed.

(** X12. When an empty table is within the size limit, the loop around
    [buildOne] returns with the iterator exhausted, and the tables it
    built hold, taken together, exactly the entries that [CompactTables]
    writes from the same iterator for a job with the same safe
    timestamp and filter, column family 0 and [HasOverlap] set. *)
Theorem L0_build_writes_what_a_job_with_overlap_writes
    (cd : CompactDef T) maxTableSize h latest latest0 stats0 discard0 :
  describes cd h -> (EstimateSize [] <= maxTableSize)%Z ->
  exists results h' latest' cresults st clatest,
    buildTables (S (length (iter h))) maxTableSize h latest []
    = Some (results, h', latest') /\
    iter h' = [] /\
    CompactTables EncodedSize KeyLen EstimateSize cd (iter h) latest0 stats0 discard0
    = Some (cresults, st, clatest) /\
    outputEntries results = outputEntries cresults.
Proof.
  intros D Le.
  destruct (buildTables_shape maxTableSize (S (length (iter h))) h latest [])
    as (new & h' & latest' & R & _ & _ & _ & _ & _ & Ex); [lia|].
  destruct (CompactTables_total EncodedSize KeyLen EstimateSize cd (iter h)
              latest0 stats0 discard0) as [[[cresults st] clatest] C].
  exists ([] ++ new), h', latest', cresults, st, clatest.
  split; [exact R|]. split; [exact (Ex Le)|]. split; [exact C|].
  rewrite (buildTables_survivors _ _ _ _ _ _ _ _ _ D Le R).
  rewrite (CompactTables_survivors _ _ _ _ _ _ _ _ _ _ _ C). reflexivity.
Qed.

(** X13. The level-0 build never drops a tombstone on its own: on an
    input in iterator order, when the newest version of a non-empty
    user key at or below the safe timestamp is a delete marker, that
    marker is written, and it is the only version of the key at or
    below the safe timestamp that is written. *)
Theorem L0_build_keeps_the_newest_tombstone
    (cd : CompactDef T) maxTableSize h latest k e0 older :
  describes cd h -> (EstimateSize [] <= maxTableSize)%Z ->
  IterOrdered (iter h) -> k <> "" ->
  List.filter (below cd k) (iter h) = e0 :: older ->
  y.isDeleted (y.Meta (evalue e0)) = true ->
  exists results h' latest',
    buildTables (S (length (iter h))) maxTableSize h latest []
    = Some (results, h', latest') /\
    List.filter (below cd k) (outputEntries results) = [e0].
Proof.
  intros D Le Srt Hk E Del.
  destruct (buildTables_shape maxTableSize (S (length (iter h))) h latest [])
    as (new & h' & latest' & R & _); [lia|].
  exists ([] ++ new), h', latest'. split; [exact R|].
  rewrite (buildTables_survivors _ _ _ _ _ _ _ _ _ D Le R). cbn [outputEntries map concat app].
  rewrite survivors_below; [|exact Hk|cbn; congruence|apply IterOrdered_userKeys; exact Srt].
  rewrite E. unfold retained. rewrite Del.
  destruct D as (_ & _ & -> & _). reflexivity.
Qed.

(** X14. On an input in iterator order the loop around [buildOne]
    returns tables that are not empty and that split the input at
    user-key boundaries: every user key of a table is smaller than
    every user key of a later table; and every table but the last was
    closed because its estimated size had passed the limit. *)
Theorem L0_build_splits_at_user_key_boundaries maxTableSize h latest :
  IterOrdered (iter h) ->
  exists results h' latest',
    buildTables (S (length (iter h))) maxTableSize h latest []
    = Some (results, h', latest') /\
    Forall (fun r => Entries r <> []) results /\
    (forall i j r1 r2 x y,
        i < j -> results !! i = Some r1 -> results !! j = Some r2 ->
        In x (Entries r1) -> In y (Entries r2) ->
        bytes.lt (userKeyOf x) (userKeyOf y)) /\
    Forall (fun r => (maxTableSize < EstimateSize (Entries r))%Z) (removelast results).
Proof.
  intros Srt.
  destruct (buildTables_shape maxTableSize (S (length (iter h))) h latest [])
    as (new & h' & latest' & R & _ & _ & Ne & Ov & _); [lia|].
  exists ([] ++ new), h', latest'. split; [exact R|].
  split; [exact Ne|]. split; [|exact Ov].
  assert (FO : ForallOrdPairs tableBefore ([] ++ new)).
  { eapply buildTables_ordered; [| | |exact R].
    - apply IterOrdered_userKeys. exact Srt.
    - constructor.
    - intros r []. }
  intros i j r1 r2 x y0 L H1 H2 Ix Iy.
  exact (ForallOrdPairs_lookup _ _ FO i j r1 r2 L H1 H2 x y0 Ix Iy).
Qed.

(** X15. When the size limit is below the estimated size of an empty
    table, the first [buildOne] breaks on the first entry with a
    non-empty user key and returns [nil]: the loop ends with no table
    built and the iterator where it was. *)
Theorem L0_build_builds_nothing_under_a_tiny_limit maxTableSize h latest e rest fuel :
  (maxTableSize < EstimateSize [])%Z ->
  iter h = e :: rest -> userKeyOf e <> "" ->
  exists h',
    buildTables (S fuel) maxTableSize h latest [] = Some ([], h', wrapU64 (latest + 1)) /\
    iter h' = e :: rest.
Proof.
  intros Sz It Hk.
  cbn [buildTables]. unfold buildOne. cbn [iter]. rewrite It. cbn [loop].
  unfold step. cbn [skipKey lastKey builder].
  assert (E1 : y.IsEmpty (y.Reset (skipKey h)) = true) by reflexivity.
  assert (E2 : y.SameUserKey (ekey e) (y.Reset (lastKey h)) = false).
  { apply y.SameUserKey_false. exact Hk. }
  apply Z.ltb_lt in Sz. rewrite E1, E2, Sz. cbn.
  eexists. split; reflexivity.
Qed.

End Helper.

End L0Build.

(** ** The accounting of a compaction *)

Section Accounting.

Context {T : Type} `{table.Table T}.

Variable EncodedSize : y.ValueStruct -> Z.
Variable KeyLen : y.Key -> Z.
Variable EstimateSize : list Entry -> Z.

(** A counter that holds an [int64] value. *)
Definition inInt64 (z : Z) : Prop := wrap64 z = z.

Lemma wrap64_plus a b c : wrap64 a = wrap64 b -> wrap64 (a + c) = wrap64 (b + c).
Proof.
  intros E. rewrite <- (wrap64_add_l a c), <- (wrap64_add_l b c), E. reflexivity.
Qed.

Lemma step_reads (cd : CompactDef T) e st :
  match step EncodedSize KeyLen EstimateSize cd e st with
  | Next st' | Break st' => KeysRead (stats st') = wrap64 (KeysRead (stats st) + 1)
  end.
Proof.
  unfold step.
  destruct (negb (y.IsEmpty (skipKey st)) && y.SameUserKey (ekey e) (skipKey st));
    [reflexivity|].
  destruct (boundary EstimateSize cd (ekey e) _ st) as [skipped [lk|]]; [|reflexivity].
  destruct (y.Version (ekey e) <=? SafeTS cd)%N; [|reflexivity].
  destruct (y.isDeleted (y.Meta (evalue e))).
  - destruct (negb (HasOverlap cd)); reflexivity.
  - destruct (Filter cd) as [f|]; [|reflexivity].
    destruct (f _ _ _ _); reflexivity.
Qed.

Lemma step_writes (cd : CompactDef T) e st :
  Filter cd = None ->
  match step EncodedSize KeyLen EstimateSize cd e st with
  | Next st' =>
      (KeysWrite (stats st') = KeysWrite (stats st) /\ builder st' = builder st) \/
      (KeysWrite (stats st') = wrap64 (KeysWrite (stats st) + 1) /\
       exists x, builder st' = builder st ++ [x])
  | Break st' => KeysWrite (stats st') = KeysWrite (stats st) /\ builder st' = builder st
  end.
Proof.
  intros F. unfold step. rewrite F.
  destruct (negb (y.IsEmpty (skipKey st)) && y.SameUserKey (ekey e) (skipKey st));
    [left; split; reflexivity|].
  destruct (boundary EstimateSize cd (ekey e) _ st) as [skipped [lk|]];
    [|split; reflexivity].
  destruct (y.Version (ekey e) <=? SafeTS cd)%N.
  - destruct (y.isDeleted (y.Meta (evalue e))).
    + destruct (negb (HasOverlap cd)); [left; split; reflexivity|].
      right. split; [reflexivity|]. eexists. reflexivity.
    + right. split; [reflexivity|]. eexists. reflexivity.
  - right. split; [reflexivity|]. eexists. reflexivity.
Qed.

(** One run of the inner loop reads every entry it passes, and the
    entry it breaks on. *)
Lemma fileLoop_stats (cd : CompactDef T) it : forall st it' st',
  fileLoop EncodedSize KeyLen EstimateSize cd it st = (it', st') ->
  exists pre,
    it = pre ++ it' /\
    wrap64 (KeysRead (stats st'))
    = wrap64 (KeysRead (stats st)
              + Z.of_nat (length pre + match it' with [] => 0 | _ => 1 end)) /\
    (inInt64 (KeysRead (stats st)) -> inInt64 (KeysRead (stats st'))) /\
    (Filter cd = None ->
     wrap64 (KeysWrite (stats st') + Z.of_nat (length (builder st)))
     = wrap64 (KeysWrite (stats st) + Z.of_nat (length (builder st'))) /\
     (inInt64 (KeysWrite (stats st)) -> inInt64 (KeysWrite (stats st')))).
Proof.
  induction it as [|e rest IH]; intros st it' st'; cbn [fileLoop].
  { intros [= <- <-]. exists []. split; [reflexivity|]. split; [f_equal; cbn; lia|].
    split; [auto|]. intros _. split; [reflexivity|auto]. }
  pose proof (step_reads cd e st) as Rd. pose proof (step_writes cd e st) as Wr.
  destruct (step EncodedSize KeyLen EstimateSize cd e st) as [st1|st1].
  - intros L. destruct (IH _ _ _ L) as (pre & P & R & Ir & W).
    exists (e :: pre). split; [cbn; rewrite <- P; reflexivity|]. split.
    { rewrite R, Rd, wrap64_add_l. f_equal. cbn [length]. lia. }
    split.
    { intros _. apply Ir. unfold inInt64. rewrite Rd. apply wrap64_idem. }
    intros F. destruct (W F) as [Wq Wi]. specialize (Wr F). split.
    + destruct Wr as [[Wk Wb]|[Wk [x Wb]]].
      * rewrite <- Wb, <- Wk. exact Wq.
      * rewrite Wb, length_app in Wq. cbn [length] in Wq.
        rewrite Wk in Wq.
        apply (wrap64_plus _ _ (-1)) in Wq.
        replace (KeysWrite (stats st') + Z.of_nat (length (builder st) + 1) + -1)%Z
          with (KeysWrite (stats st') + Z.of_nat (length (builder st)))%Z in Wq by lia.
        rewrite Wq.
        replace (wrap64 (KeysWrite (stats st) + 1) + Z.of_nat (length (builder st')) + -1)%Z
          with (wrap64 (KeysWrite (stats st) + 1) + (Z.of_nat (length (builder st')) - 1))%Z
          by lia.
        rewrite wrap64_add_l. f_equal. lia.
    + intros Iw. apply Wi. destruct Wr as [[Wk _]|[Wk _]]; unfold inInt64; rewrite Wk.
      * exact Iw.
      * apply wrap64_idem.
  - intros [= <- <-]. exists []. split; [reflexivity|]. split.
    { rewrite Rd, wrap64_idem. f_equal. }
    split.
    { intros _. unfold inInt64. rewrite Rd. apply wrap64_idem. }
    intros F. destruct (Wr F) as [Wk Wb]. rewrite Wk, Wb. split; [reflexivity|auto].
Qed.

(** The outer loop: [rounds] counts its rounds. Every round but the
    last ends in a [break], and the entry it breaks on is read again by
    the next round. *)
Lemma tablesLoop_stats (cd : CompactDef T) fuel :
  forall it st latest results results' st' latest',
  tablesLoop EncodedSize KeyLen EstimateSize fuel cd it st latest results
  = Some (results', st', latest') ->
  exists rounds new,
    results' = results ++ new /\
    wrap64 (KeysRead (stats st'))
    = wrap64 (KeysRead (stats st) + Z.of_nat (length it + Nat.pred rounds)) /\
    (inInt64 (KeysRead (stats st)) -> inInt64 (KeysRead (stats st'))) /\
    length new <= rounds /\ rounds <= length it /\
    (it <> [] -> 1 <= rounds) /\
    (Filter cd = None ->
     wrap64 (KeysWrite (stats st'))
     = wrap64 (KeysWrite (stats st) + Z.of_nat (length (outputEntries new))) /\
     (inInt64 (KeysWrite (stats st)) -> inInt64 (KeysWrite (stats st')))).
Proof.
  induction fuel as [|fuel IH]; intros it st latest results results' st' latest'.
  { destruct it; cbn; [|discriminate]. intros [= <- <- <-].
    exists 0, []. rewrite app_nil_r. split; [reflexivity|]. split; [f_equal; cbn; lia|].
    split; [auto|]. split; [cbn; lia|]. split; [cbn; lia|]. split; [congruence|].
    intros _. split; [f_equal; cbn; lia|auto]. }
  destruct it as [|e rest]; cbn [tablesLoop].
  { intros [= <- <- <-].
    exists 0, []. rewrite app_nil_r. split; [reflexivity|]. split; [f_equal; cbn; lia|].
    split; [auto|]. split; [cbn; lia|]. split; [cbn; lia|]. split; [congruence|].
    intros _. split; [f_equal; cbn; lia|auto]. }
  destruct (fileLoop EncodedSize KeyLen EstimateSize cd (e :: rest) _) as [it1 st1] eqn:L.
  assert (Len : length it1 <= length rest)
    by (eapply fileLoop_fresh_length; [| |exact L]; reflexivity).
  apply fileLoop_stats in L as (pre & P & R & Ir & W).
  cbn [stats builder length] in R, Ir, W.
  assert (G : forall new0,
             tablesLoop EncodedSize KeyLen EstimateSize fuel cd it1 st1
               (wrapU64 (latest + 1)) (results ++ new0) = Some (results', st', latest') ->
             length (outputEntries new0) = length (builder st1) ->
             length new0 <= 1 ->
             exists rounds new,
               results' = results ++ new /\
               wrap64 (KeysRead (stats st'))
               = wrap64 (KeysRead (stats st)
                         + Z.of_nat (length (e :: rest) + Nat.pred rounds)) /\
               (inInt64 (KeysRead (stats st)) -> inInt64 (KeysRead (stats st'))) /\
               length new <= rounds /\ rounds <= length (e :: rest) /\
               (e :: rest <> [] -> 1 <= rounds) /\
               (Filter cd = None ->
                wrap64 (KeysWrite (stats st'))
                = wrap64 (KeysWrite (stats st) + Z.of_nat (length (outputEntries new))) /\
                (inInt64 (KeysWrite (stats st)) -> inInt64 (KeysWrite (stats st'))))).
  { intros new0 Run Out Ln.
    apply IH in Run as (rounds & new & E & R' & Ir' & Ln' & Lr & Ne & W').
    exists (S rounds), (new0 ++ new). split; [rewrite E, app_assoc; reflexivity|].
    split.
    { rewrite R'. rewrite (wrap64_plus _ _ _ R). f_equal.
      rewrite P, length_app. cbn [Nat.pred].
      destruct it1 as [|e1 it1].
      - cbn [length] in Lr. assert (rounds = 0) by lia. subst rounds. cbn. lia.
      - assert (1 <= rounds) by (apply Ne; discriminate). cbn [length]. lia. }
    split; [auto|]. split; [rewrite length_app; lia|].
    split; [cbn [length]; lia|]. split; [lia|].
    intros F. destruct (W F) as [Wq Wi]. destruct (W' F) as [Wq' Wi'].
    split; [|auto].
    rewrite Wq'. unfold outputEntries in *. rewrite map_app, concat_app, length_app.
    rewrite Out.
    replace (KeysWrite (stats st1) + Z.of_nat (length (concat (map Entries new))))%Z
      with (KeysWrite (stats st1) + Z.of_nat 0 + Z.of_nat (length (concat (map Entries new))))%Z
      by lia.
    rewrite (wrap64_plus _ _ _ Wq). f_equal. lia. }
  destruct (builder st1) as [|b bs] eqn:B; cbn [builderEmpty]; intros Run.
  - apply (G []); [rewrite app_nil_r; exact Run|reflexivity|cbn; lia].
  - apply (G [finish (wrapU64 (latest + 1)) (b :: bs)]); [exact Run| |cbn; lia].
    unfold outputEntries. cbn. rewrite app_nil_r. reflexivity.
Qed.

(** X18. [CompactTables] counts in [KeysRead] every input entry once,
    and once more every entry on which a table was closed, because the
    next round of the outer loop reads that entry again: with [rounds]
    the number of rounds of the outer loop, which is at least the number
    of tables written, [KeysRead] grows by the number of input entries
    plus [rounds - 1]. Without a filter [KeysWrite] grows by the number
    of entries written. *)
Theorem read_counter_counts_table_boundaries_twice
    (cd : CompactDef T) it latest stats0 discard0 :
  inInt64 (KeysRead stats0) -> inInt64 (KeysWrite stats0) ->
  exists results st' latest' rounds,
    CompactTables EncodedSize KeyLen EstimateSize cd it latest stats0 discard0
    = Some (results, st', latest') /\
    KeysRead (stats st')
    = wrap64 (KeysRead stats0 + Z.of_nat (length it + Nat.pred rounds)) /\
    length results <= rounds /\ rounds <= length it /\
    (Filter cd = None ->
     KeysWrite (stats st')
     = wrap64 (KeysWrite stats0 + Z.of_nat (length (outputEntries results)))).
Proof.
  intros Ir Iw.
  destruct (CompactTables_total EncodedSize KeyLen EstimateSize cd it latest stats0 discard0)
    as [[[results st'] latest'] R].
  exists results, st', latest'.
  pose proof R as R'. unfold CompactTables in R'.
  apply tablesLoop_stats in R' as (rounds & new & E & Rd & Ird & Ln & Lr & _ & W).
  cbn [app stats] in *. subst new.
  exists rounds. split; [exact R|]. split.
  { rewrite <- (Ird Ir). exact Rd. }
  split; [exact Ln|]. split; [exact Lr|].
  intros F. destruct (W F) as [Wq Wi]. rewrite <- (Wi Iw). exact Wq.
Qed.

End Accounting.

(** ** Output tables and the skipped tables *)

Section Skipped.

Context {T : Type} `{table.Table T}.

Variable EncodedSize : y.ValueStruct -> Z.
Variable KeyLen : y.Key -> Z.
Variable EstimateSize : list Entry -> Z.

(** The user key of the biggest key of a table. *)
Definition biggestUserKey (t : T) : string := y.UserKey (table.Biggest t).

(** All entries of [b] lie after, or before, the biggest key of [t]. *)
Definition after (t : T) (b : list Entry) : Prop :=
  Forall (fun x => bytes.lt (biggestUserKey t) (userKeyOf x)) b.

Definition before (t : T) (b : list Entry) : Prop :=
  Forall (fun x => bytes.lt (userKeyOf x) (biggestUserKey t)) b.

(** No entry of [it] has the user key of the biggest key of a table of
    [sk]. *)
Definition apartFrom (sk : list T) (it : list Entry) : Prop :=
  Forall (fun e => Forall (fun t => userKeyOf e <> biggestUserKey t) sk) it.

(** The tables of [sk] are in the order of their biggest user keys. *)
Definition inLevelOrder (sk : list T) : Prop :=
  StronglySorted (fun t1 t2 => bytes.le (biggestUserKey t1) (biggestUserKey t2)) sk.

Lemma skipIndex_sides key (l : list T) :
  Forall (fun t => y.UserKey key <> biggestUserKey t) l ->
  inLevelOrder l ->
  Forall (fun t => bytes.lt (biggestUserKey t) (y.UserKey key)) (take (skipIndex key l) l) /\
  Forall (fun t => bytes.lt (y.UserKey key) (biggestUserKey t)) (drop (skipIndex key l) l).
Proof.
  unfold inLevelOrder. induction l as [|t rest IH]; intros D S; cbn [skipIndex].
  { split; constructor. }
  apply Forall_cons in D as [Dt D]. apply StronglySorted_inv in S as [S St].
  destruct (y.Compare key (table.Biggest t)) eqn:C.
  - cbn [take drop]. split; [constructor|].
    assert (L : bytes.lt (y.UserKey key) (biggestUserKey t)).
    { assert (Le : y.Compare key (table.Biggest t) <> Gt) by (rewrite C; discriminate).
      apply Compare_le_cases in Le as [L|[E _]]; [exact L|contradiction]. }
    constructor; [exact L|].
    eapply Forall_impl; [exact St|]. intros t' Le. cbn in Le.
    eapply bytes.lt_le_trans; eassumption.
  - cbn [take drop]. split; [constructor|].
    assert (L : bytes.lt (y.UserKey key) (biggestUserKey t)).
    { assert (Le : y.Compare key (table.Biggest t) <> Gt) by (rewrite C; discriminate).
      apply Compare_le_cases in Le as [L|[E _]]; [exact L|contradiction]. }
    constructor; [exact L|].
    eapply Forall_impl; [exact St|]. intros t' Le. cbn in Le.
    eapply bytes.lt_le_trans; eassumption.
  - destruct (IH D S) as [A B]. cbn [take drop]. split; [|exact B].
    constructor; [|exact A].
    apply Compare_Gt_Lt, Compare_Lt_cases in C as [L|[E _]]; [exact L|].
    unfold biggestUserKey in Dt. congruence.
Qed.

Section Sides.

Variable cd : CompactDef T.
Variable sk0 : list T.
Hypothesis sorted0 : inLevelOrder sk0.

(** The first [n] tables of [sk0] are those the loop has passed. *)
Definition passedAll (n : nat) (it : list Entry) : Prop :=
  Forall (fun t => after t it) (take n sk0).

Definition sides (n : nat) (b : list Entry) : Prop :=
  Forall (fun t => after t b) (take n sk0) /\ Forall (fun t => before t b) (drop n sk0).

Definition lastOK (n : nat) (lk : y.Key) : Prop :=
  Forall (fun t => y.UserKey lk = "" \/ bytes.lt (y.UserKey lk) (biggestUserKey t))
         (drop n sk0).

Lemma boundary_cases key kvSize st skipped r :
  boundary EstimateSize cd key kvSize st = (skipped, r) ->
  (y.SameUserKey key (lastKey st) = true /\ skipped = skippedTbls st /\
   r = Some (lastKey st)) \/
  (y.SameUserKey key (lastKey st) = false /\
   skipped = drop (skipIndex key (skippedTbls st)) (skippedTbls st) /\
   (r = None \/
    (r = Some (y.Copy (lastKey st) key) /\
     (skipIndex key (skippedTbls st) = 0 \/ builder st = [])))).
Proof.
  unfold boundary. destruct (y.SameUserKey key (lastKey st)).
  { intros [= <- <-]. left. auto. }
  intros B. right. split; [reflexivity|].
  assert (E : match skippedTbls st with
              | [] => (skippedTbls st, false)
              | _ => overSkipTables key (skippedTbls st)
              end
              = (drop (skipIndex key (skippedTbls st)) (skippedTbls st),
                 (0 <? skipIndex key (skippedTbls st))%nat)).
  { destruct (skippedTbls st); reflexivity. }
  rewrite E in B.
  destruct ((0 <? skipIndex key (skippedTbls st))%nat
            && negb (builderEmpty (builder st))) eqn:O.
  { injection B as <- <-. auto. }
  destruct (shouldFinishFile _ _ _); injection B as <- <-; [auto|].
  split; [reflexivity|]. right. split; [reflexivity|].
  apply andb_false_iff in O as [O|O].
  - left. apply Nat.ltb_ge in O. lia.
  - right. apply negb_false_iff in O. destruct (builder st); [reflexivity|discriminate].
Qed.

Lemma step_cases e st :
  match step EncodedSize KeyLen EstimateSize cd e st with
  | Next st' =>
      (skippedTbls st' = skippedTbls st /\ lastKey st' = lastKey st /\
       builder st' = builder st) \/
      (exists lk,
          boundary EstimateSize cd (ekey e)
            (wrap64 (EncodedSize (evalue e) + KeyLen (ekey e))) st
          = (skippedTbls st', Some lk) /\
          lastKey st' = lk /\
          (builder st' = builder st \/
           exists x, builder st' = builder st ++ [x] /\ ekey x = ekey e))
  | Break st' =>
      boundary EstimateSize cd (ekey e)
        (wrap64 (EncodedSize (evalue e) + KeyLen (ekey e))) st
      = (skippedTbls st', None) /\
      lastKey st' = lastKey st /\ builder st' = builder st
  end.
Proof.
  unfold step.
  destruct (negb (y.IsEmpty (skipKey st)) && y.SameUserKey (ekey e) (skipKey st)).
  { left. auto. }
  destruct (boundary EstimateSize cd (ekey e) _ st) as [skipped [lk|]]; [|auto].
  destruct (y.Version (ekey e) <=? SafeTS cd)%N.
  - destruct (y.isDeleted (y.Meta (evalue e))).
    + destruct (negb (HasOverlap cd)); right; exists lk; cbn; eauto 10.
    + destruct (Filter cd) as [f|]; [|right; exists lk; cbn; eauto 10].
      destruct (f _ _ _ _); [| destruct (HasOverlap cd) |];
        right; exists lk; cbn; eauto 10.
  - right. exists lk. cbn. eauto 10.
Qed.

Lemma sides_add n b b' e :
  (b' = b \/ exists x, b' = b ++ [x] /\ ekey x = ekey e) ->
  sides n b ->
  Forall (fun t => bytes.lt (biggestUserKey t) (userKeyOf e)) (take n sk0) ->
  Forall (fun t => bytes.lt (userKeyOf e) (biggestUserKey t)) (drop n sk0) ->
  sides n b'.
Proof.
  intros [->|(x & -> & K)] [A B] Ea Eb; [split; assumption|].
  assert (Kx : userKeyOf x = userKeyOf e) by (unfold userKeyOf; rewrite K; reflexivity).
  split.
  - rewrite List.Forall_forall in A, Ea. apply List.Forall_forall. intros t Hin.
    apply Forall_app. split; [apply A; exact Hin|].
    constructor; [|constructor]. rewrite Kx. apply Ea. exact Hin.
  - rewrite List.Forall_forall in B, Eb. apply List.Forall_forall. intros t Hin.
    apply Forall_app. split; [apply B; exact Hin|].
    constructor; [|constructor]. rewrite Kx. apply Eb. exact Hin.
Qed.

Lemma after_later t e rest :
  StronglySorted userKeyLe (e :: rest) ->
  bytes.lt (biggestUserKey t) (userKeyOf e) -> after t (e :: rest).
Proof.
  intros S L. apply StronglySorted_inv in S as [_ F].
  constructor; [exact L|].
  eapply Forall_impl; [exact F|]. intros e' Le. cbn in Le.
  eapply bytes.lt_le_trans; eassumption.
Qed.

(** One pass through the loop body keeps the passed tables behind the
    builder and the others ahead of it. *)
Lemma step_sides e rest st n :
  StronglySorted userKeyLe (e :: rest) ->
  apartFrom sk0 (e :: rest) ->
  skippedTbls st = drop n sk0 ->
  sides n (builder st) -> passedAll n (e :: rest) -> lastOK n (lastKey st) ->
  match step EncodedSize KeyLen EstimateSize cd e st with
  | Next st' =>
      exists n', skippedTbls st' = drop n' sk0 /\ sides n' (builder st') /\
                 passedAll n' rest /\ lastOK n' (lastKey st')
  | Break st' =>
      exists n', skippedTbls st' = drop n' sk0 /\ passedAll n' (e :: rest) /\
                 builder st' = builder st
  end.
Proof.
  intros S D Sk Sd Pa Lo.
  assert (Par : passedAll n rest).
  { eapply Forall_impl; [exact Pa|]. intros t A. exact (Forall_inv_tail A). }
  assert (Pe : Forall (fun t => bytes.lt (biggestUserKey t) (userKeyOf e)) (take n sk0)).
  { eapply Forall_impl; [exact Pa|]. intros t A. exact (Forall_inv A). }
  assert (De : Forall (fun t => userKeyOf e <> biggestUserKey t) sk0)
    by exact (Forall_inv D).
  (* what the boundary block does on a new user key *)
  assert (New : forall skipped,
             skipped = drop (skipIndex (ekey e) (skippedTbls st)) (skippedTbls st) ->
             let n' := n + skipIndex (ekey e) (skippedTbls st) in
             skipped = drop n' sk0 /\
             Forall (fun t => bytes.lt (biggestUserKey t) (userKeyOf e)) (take n' sk0) /\
             Forall (fun t => bytes.lt (userKeyOf e) (biggestUserKey t)) (drop n' sk0) /\
             Forall (fun t => before t (builder st)) (drop n' sk0) /\
             (skipIndex (ekey e) (skippedTbls st) = 0 \/ builder st = [] ->
              Forall (fun t => after t (builder st)) (take n' sk0))).
  { intros skipped ->. cbn zeta. rewrite Sk.
    destruct (skipIndex_sides (ekey e) (drop n sk0)) as [I1 I2].
    { apply Forall_drop. exact De. }
    { unfold inLevelOrder in *. rewrite <- (take_drop n sk0) in sorted0.
      eapply StronglySorted_suffix. exact sorted0. }
    rewrite drop_drop in *. rewrite <- take_take_drop.
    split; [reflexivity|]. split; [apply Forall_app; split; assumption|].
    split; [exact I2|]. split.
    - rewrite <- drop_drop. apply Forall_drop. apply Sd.
    - intros [Z|E].
      + rewrite Z. cbn [take]. rewrite app_nil_r. apply Sd.
      + rewrite E. apply List.Forall_forall. intros t _. constructor. }
  pose proof (step_cases e st) as C.
  destruct (step EncodedSize KeyLen EstimateSize cd e st) as [st'|st'].
  - destruct C as [(Es & El & Eb)|(lk & B & El & Eb)].
    + exists n. rewrite Es, El, Eb. auto.
    + apply boundary_cases in B as [(Q & Es & [= ->])|(Q & Es & [N|([= ->] & Z)])];
        [| discriminate N |].
      * (* the same user key as the last key *)
        exists n. rewrite Es, El. split; [exact Sk|]. split; [|split; assumption].
        eapply sides_add; [exact Eb|exact Sd|exact Pe|].
        apply y.SameUserKey_true in Q.
        unfold lastOK in Lo. rewrite List.Forall_forall in Lo, De.
        apply List.Forall_forall. intros t Hin.
        assert (Hin0 : In t sk0).
        { rewrite <- (take_drop n sk0). apply in_or_app. right. exact Hin. }
        unfold userKeyOf. rewrite Q.
        destruct (Lo t Hin) as [Em|L]; [|exact L].
        apply bytes.le_neq_lt; [rewrite Em; apply bytes.empty_le|].
        rewrite <- Q. apply De. exact Hin0.
      * (* a new user key *)
        destruct (New _ Es) as (Es' & Ea & Ebf & Bb & Ba).
        exists (n + skipIndex (ekey e) (skippedTbls st)).
        split; [exact Es'|]. split.
        { eapply sides_add; [exact Eb| |exact Ea|exact Ebf].
          split; [apply Ba; exact Z|exact Bb]. }
        split.
        { eapply Forall_impl; [exact Ea|]. intros t L.
          exact (Forall_inv_tail (after_later t e rest S L)). }
        rewrite El. eapply Forall_impl; [exact Ebf|]. intros t L. right. exact L.
  - destruct C as (B & El & Eb).
    apply boundary_cases in B as [(_ & _ & N)|(Q & Es & _)]; [discriminate N|].
    destruct (New _ Es) as (Es' & Ea & _).
    exists (n + skipIndex (ekey e) (skippedTbls st)).
    split; [exact Es'|]. split; [|exact Eb].
    eapply Forall_impl; [exact Ea|]. intros t L. exact (after_later t e rest S L).
Qed.

Lemma apartFrom_tail e rest : apartFrom sk0 (e :: rest) -> apartFrom sk0 rest.
Proof. exact (@Forall_inv_tail _ _ e rest). Qed.

Lemma fileLoop_sides it : forall st n it' st',
  StronglySorted userKeyLe it -> apartFrom sk0 it ->
  skippedTbls st = drop n sk0 ->
  sides n (builder st) -> passedAll n it -> lastOK n (lastKey st) ->
  fileLoop EncodedSize KeyLen EstimateSize cd it st = (it', st') ->
  (exists pre, it = pre ++ it') /\
  (exists m, sides m (builder st')) /\
  exists n', skippedTbls st' = drop n' sk0 /\ passedAll n' it'.
Proof.
  induction it as [|e rest IH]; intros st n it' st' S D Sk Sd Pa Lo; cbn [fileLoop].
  { intros [= <- <-]. split; [exists []; reflexivity|]. split; [exists n; exact Sd|].
    exists n. auto. }
  pose proof (step_sides e rest st n S D Sk Sd Pa Lo) as St.
  destruct (step EncodedSize KeyLen EstimateSize cd e st) as [st1|st1].
  - destruct St as (n1 & Sk1 & Sd1 & Pa1 & Lo1). intros L.
    apply StronglySorted_inv in S as [S _].
    destruct (IH _ _ _ _ S (apartFrom_tail _ _ D) Sk1 Sd1 Pa1 Lo1 L)
      as ((pre & P) & M & N).
    split; [exists (e :: pre); rewrite P; reflexivity|]. split; assumption.
  - destruct St as (n1 & Sk1 & Pa1 & Eb). intros [= <- <-].
    split; [exists []; reflexivity|]. split; [exists n; rewrite Eb; exact Sd|].
    exists n1. auto.
Qed.

(** Every table of [sk0] has a table's entries all on one side. *)
Definition oneSide (b : list Entry) : Prop :=
  Forall (fun t => before t b \/ after t b) sk0.

Lemma sides_oneSide m b : sides m b -> oneSide b.
Proof.
  intros [A B]. unfold oneSide. rewrite <- (take_drop m sk0). apply Forall_app. split.
  - eapply Forall_impl; [exact A|]. auto.
  - eapply Forall_impl; [exact B|]. auto.
Qed.

Lemma tablesLoop_sides fuel : forall it st n latest results results' st' latest',
  StronglySorted userKeyLe it -> apartFrom sk0 it ->
  skippedTbls st = drop n sk0 -> passedAll n it ->
  Forall (fun r => oneSide (Entries r)) results ->
  tablesLoop EncodedSize KeyLen EstimateSize fuel cd it st latest results
  = Some (results', st', latest') ->
  Forall (fun r => oneSide (Entries r)) results'.
Proof.
  induction fuel as [|fuel IH]; intros it st n latest results results' st' latest' S D Sk Pa F.
  { destruct it; cbn; [|discriminate]. intros [= <- <- <-]. exact F. }
  destruct it as [|e rest]; cbn [tablesLoop].
  { intros [= <- <- <-]. exact F. }
  destruct (fileLoop EncodedSize KeyLen EstimateSize cd (e :: rest) _) as [it1 st1] eqn:L.
  apply (fileLoop_sides _ _ n) in L as ((pre & P) & (m & M) & (n1 & Sk1 & Pa1));
    cbn [skippedTbls builder lastKey]; try assumption.
  2:{ split; apply List.Forall_forall; intros t _; constructor. }
  2:{ apply List.Forall_forall. intros t _. left. reflexivity. }
  assert (S1 : StronglySorted userKeyLe it1).
  { rewrite P in S. eapply StronglySorted_suffix. exact S. }
  assert (D1 : apartFrom sk0 it1).
  { unfold apartFrom in *. rewrite P in D. apply Forall_app in D. apply D. }
  destruct (builderEmpty (builder st1)).
  - apply (IH _ _ n1); assumption.
  - apply (IH _ _ n1); try assumption.
    apply Forall_app. split; [exact F|]. constructor; [|constructor].
    cbn [finish Entries]. eapply sides_oneSide. exact M.
Qed.

End Sides.

(** X19. Let the input be in iterator order, let the skipped tables
    be in the order of their biggest user keys, and let no input entry
    have the user key of the biggest key of a skipped table. Then no
    table that [CompactTables] writes reaches across a skipped table:
    for every output table and every skipped table, the keys of the
    output table are either all below the biggest key of the skipped
    table or all above it. *)
Theorem output_tables_do_not_straddle_skipped_tables
    (cd : CompactDef T) it latest stats0 discard0 :
  IterOrdered it -> inLevelOrder (SkippedTbls cd) -> apartFrom (SkippedTbls cd) it ->
  exists results st' latest',
    CompactTables EncodedSize KeyLen EstimateSize cd it latest stats0 discard0
    = Some (results, st', latest') /\
    forall r t, In r results -> In t (SkippedTbls cd) ->
      (forall x, In x (Entries r) -> y.Compare (ekey x) (table.Biggest t) = Lt) \/
      (forall x, In x (Entries r) -> y.Compare (ekey x) (table.Biggest t) = Gt).
Proof.
  intros Srt Lv Ap.
  destruct (CompactTables_total EncodedSize KeyLen EstimateSize cd it latest stats0 discard0)
    as [[[results st'] latest'] R].
  exists results, st', latest'. split; [exact R|].
  unfold CompactTables in R.
  apply (tablesLoop_sides cd (SkippedTbls cd) Lv _ _ _ 0) in R.
  - intros r t Ir It. rewrite List.Forall_forall in R. specialize (R r Ir).
    unfold oneSide in R. rewrite List.Forall_forall in R. destruct (R t It) as [B|A].
    + left. intros x Ix. unfold before in B. rewrite List.Forall_forall in B.
      apply Compare_Lt_cases. left. exact (B x Ix).
    + right. intros x Ix. unfold after in A. rewrite List.Forall_forall in A.
      apply Compare_Gt_Lt, Compare_Lt_cases. left. exact (A x Ix).
  - apply IterOrdered_userKeys. exact Srt.
  - exact Ap.
  - reflexivity.
  - constructor.
  - constructor.
Qed.

End Skipped.

(** ** Preparing a job *)

Section Preparing.

Context {T : Type} `{table.Table T}.

Variable sortSlice : forall A : Type, (A -> A -> bool) -> list A -> list A.
Variable PrepareForCompaction : T -> option error.

Lemma forEach_prepareTable (tbls : list T) (en : @Engine T) :
  (Forall (fun t => PrepareForCompaction t = None) tbls /\
   forEach tbls (prepareTable PrepareForCompaction) en = (Ok tt, en)) \/
  (exists pre t post e,
      tbls = pre ++ t :: post /\
      Forall (fun t' => PrepareForCompaction t' = None) pre /\
      PrepareForCompaction t = Some e /\
      forEach tbls (prepareTable PrepareForCompaction) en = (Err e, en)).
Proof.
  induction tbls as [|t rest IH]; cbn [forEach].
  { left. split; [constructor|reflexivity]. }
  assert (PT : prepareTable PrepareForCompaction t en
               = match PrepareForCompaction t with
                 | Some e => (Err e, en)
                 | None => (Ok tt, en)
                 end).
  { unfold prepareTable. destruct (PrepareForCompaction t); reflexivity. }
  run_monad. rewrite PT.
  destruct (PrepareForCompaction t) as [e|] eqn:P.
  - right. exists [], t, rest, e. split; [reflexivity|]. split; [constructor|].
    split; [exact P|reflexivity].
  - destruct IH as [[F R]|(pre & t' & post & e & E & F & P' & R)].
    + left. split; [constructor; assumption|exact R].
    + right. exists (t :: pre), t', post, e. split; [rewrite E; reflexivity|].
      split; [constructor; assumption|]. split; [exact P'|exact R].
Qed.

(** X20. When [PrepareForCompaction] fails on a table of [Top] or
    [Bot], a job that is not a move returns the error of the first such
    table, in the order [Top] then [Bot] (the Go code adds a stack trace
    to it), before the compactor is called: whatever the compactor would
    do, no table is built, nothing is recorded, notified or installed,
    and the engine is as before. *)
Theorem failed_preparation_stops_the_job
    (compact : CompactDef T -> M (@Engine T) (list BuildResult))
    env cf (cd : CompactDef T) (en : @Engine T) managed :
  moveDown cd = false ->
  index (CFs (opt en)) cf = Some managed ->
  Exists (fun t => PrepareForCompaction t <> None) (Top cd ++ Bot cd) ->
  exists pre t post e,
    Top cd ++ Bot cd = pre ++ t :: post /\
    Forall (fun t' => PrepareForCompaction t' = None) pre /\
    PrepareForCompaction t = Some e /\
    runCompactionDef sortSlice compact PrepareForCompaction env cf cd en = (Err e, en).
Proof.
  intros Mv I Ex.
  unfold runCompactionDef, buildCompaction. rewrite Mv.
  unfold compactBuildTables, prepareCompactionDef, getCFSafeTS. run_monad. rewrite I.
  destruct (forEach_prepareTable (Top cd) en)
    as [[Ft Rt]|(pre & t & post & e & E & F & P & R)].
  - rewrite Rt.
    destruct (forEach_prepareTable (Bot cd) en)
      as [[Fb Rb]|(pre & t & post & e & E & F & P & R)].
    + exfalso. apply Exists_exists in Ex as (t & Hin & N).
      apply elem_of_app in Hin as [Hin|Hin].
      * rewrite Forall_forall in Ft. exact (N (Ft t Hin)).
      * rewrite Forall_forall in Fb. exact (N (Fb t Hin)).
    + rewrite R. exists (Top cd ++ pre), t, post, e.
      split; [rewrite E, <- app_assoc; reflexivity|].
      split; [apply Forall_app; split; assumption|].
      split; [exact P|reflexivity].
  - rewrite R. exists pre, t, (post ++ Bot cd), e.
    split; [rewrite E, <- app_assoc; reflexivity|].
    split; [exact F|]. split; [exact P|reflexivity].
Qed.

End Preparing.

(** ** The write batch of the engine *)

Module memtable.
Record Entry := mk { Key : string; Value : y.ValueStruct }.
End memtable.

Module WriteBatch.

Section Batch.

(** [vs.EncodedSize()] and [memtable.EstimateNodeSize] come from the
    table library. [growCap n] is the capacity that [append] gives the
    new backing array when it grows a full slice of length [n]. *)
Variable EncodedSize : y.ValueStruct -> Z.
Variable EstimateNodeSize : Z.
Variable growCap : nat -> nat.

(** [WriteBatch]. [cfConfs] holds the field [Managed] of each
    [CFConfig]. [entries[cf]] holds pointers into [entryArena]; a slot of
    the arena is written once, when it is handed out, so the entries are
    kept by value. *)
Record t := mk {
  cfConfs : list bool;
  entries : list (list memtable.Entry);
  estimatedSize : Z;
  properties : gmap string string;
  entryArena : list memtable.Entry;
  entryArenaIdx : nat
}.

Definition zeroEntry : memtable.Entry :=
  memtable.mk "" (y.mkValue 0 "" "" 0).

(** [wb.allocEntry(key, val)] *)
Definition allocEntry (key : string) (val : y.ValueStruct) : M t memtable.Entry :=
  fun wb =>
    let arena :=
      if (length (entryArena wb) <=? entryArenaIdx wb)%nat then
        let appended := entryArena wb ++ [zeroEntry] in
        appended ++ replicate (growCap (length (entryArena wb)) - length appended) zeroEntry
      else entryArena wb in
    if (entryArenaIdx wb <? length arena)%nat then
      let e := memtable.mk key val in
      (Ok e,
       mk (cfConfs wb) (entries wb) (estimatedSize wb) (properties wb)
          (<[entryArenaIdx wb := e]> arena) (S (entryArenaIdx wb)))
    else (Panic "index out of range", wb).

(** The version check that [Put] and [Delete] share. *)
Definition checkVersion (cf : Z) (version : N) : M t unit :=
  fun wb =>
    match index (cfConfs wb) cf with
    | None => (Panic "index out of range", wb)
    | Some managed =>
        if managed then
          if (version =? 0)%N
          then (Err (errorf "version is zero for managed CF"), wb)
          else (Ok tt, wb)
        else
          if negb (version =? 0)%N
          then (Err (errorf "version is not zero for non-managed CF"), wb)
          else (Ok tt, wb)
    end.

(** [wb.entries[cf] = append(wb.entries[cf], e)] and
    [wb.estimatedSize += delta]. *)
Definition appendEntry (cf : Z) (e : memtable.Entry) (delta : Z) : M t unit :=
  fun wb =>
    match index (entries wb) cf with
    | None => (Panic "index out of range", wb)
    | Some es =>
        (Ok tt,
         mk (cfConfs wb) (<[Z.to_nat cf := es ++ [e]]> (entries wb))
            (wrap64 (estimatedSize wb + delta)) (properties wb)
            (entryArena wb) (entryArenaIdx wb))
    end.

(** [wb.Put(cf, key, val)] *)
Definition Put (cf : Z) (key : string) (val : y.ValueStruct) : M t unit :=
  checkVersion cf (y.VVersion val);;
  e ← allocEntry key val;
  appendEntry cf e
    (wrap64 (wrap64 (Z.of_nat (String.length key) + EncodedSize val) + EstimateNodeSize)).

(** [wb.Delete(cf, key, version)] *)
Definition Delete (cf : Z) (key : string) (version : N) : M t unit :=
  checkVersion cf version;;
  e ← allocEntry key (y.mkValue y.bitDelete "" "" version);
  appendEntry cf e (wrap64 (Z.of_nat (String.length key) + EstimateNodeSize)).

(** The version does not fit the column family. *)
Definition versionRejected (managed : bool) (version : N) : bool :=
  (managed && (version =? 0)%N) || (negb managed && negb (version =? 0)%N).

(** [en.NewWriteBatch(shard)] for an engine with the column families
    [cfs]: one empty entry list per column family. *)
Definition NewWriteBatch (cfs : list bool) : t :=
  mk cfs (replicate (length cfs) []) 0 ∅ [] 0.

(** A batch as [NewWriteBatch], [Put], [Delete] and [Reset] leave it:
    one entry list per column family, and the arena index within the
    arena. *)
Definition wellFormed (wb : t) : Prop :=
  length (entries wb) = length (cfConfs wb) /\
  (entryArenaIdx wb <= length (entryArena wb))%nat.

(** [wb'] is [wb] with the one entry [e] appended to the list of [cf]
    and [delta] added to the estimated size. *)
Definition appendedOne (wb wb' : t) (cf : Z) (e : memtable.Entry) (delta : Z) : Prop :=
  exists es,
    index (entries wb) cf = Some es /\
    index (entries wb') cf = Some (es ++ [e]) /\
    (forall cf', cf' <> cf -> index (entries wb') cf' = index (entries wb) cf') /\
    length (entries wb') = length (entries wb) /\
    estimatedSize wb' = wrap64 (estimatedSize wb + delta) /\
    cfConfs wb' = cfConfs wb /\
    properties wb' = properties wb.

Lemma NewWriteBatch_wellFormed cfs : wellFormed (NewWriteBatch cfs).
Proof. split; cbn; [apply length_replicate|lia]. Qed.

Lemma index_Some_lt {A : Type} (l : list A) (i : Z) (a : A) :
  index l i = Some a -> (0 <= i)%Z /\ (Z.to_nat i < length l)%nat.
Proof.
  unfold index. destruct (i <? 0)%Z eqn:E; [discriminate|].
  intros L. apply Z.ltb_ge in E. split; [exact E|]. eapply lookup_lt_Some. exact L.
Qed.

Lemma index_lt_Some {A : Type} (l : list A) (i : Z) :
  (0 <= i)%Z -> (Z.to_nat i < length l)%nat -> exists a, index l i = Some a.
Proof.
  intros P L. unfold index. apply Z.ltb_ge in P. rewrite P.
  apply lookup_lt_is_Some_2. exact L.
Qed.

Lemma checkVersion_spec cf version wb managed :
  index (cfConfs wb) cf = Some managed ->
  checkVersion cf version wb
  = if versionRejected managed version
    then (Err (errorf (if managed then "version is zero for managed CF"
                       else "version is not zero for non-managed CF")), wb)
    else (Ok tt, wb).
Proof.
  intros I. unfold checkVersion, versionRejected. rewrite I.
  destruct managed; destruct (version =? 0)%N; reflexivity.
Qed.

Lemma allocEntry_spec key val wb :
  (entryArenaIdx wb <= length (entryArena wb))%nat ->
  exists arena,
    allocEntry key val wb
    = (Ok (memtable.mk key val),
       mk (cfConfs wb) (entries wb) (estimatedSize wb) (properties wb)
          arena (S (entryArenaIdx wb))) /\
    (S (entryArenaIdx wb) <= length arena)%nat.
Proof.
  intros L. unfold allocEntry.
  destruct (length (entryArena wb) <=? entryArenaIdx wb)%nat eqn:G.
  - apply Nat.leb_le in G.
    set (arena := (entryArena wb ++ [zeroEntry]) ++ _).
    assert (La : (entryArenaIdx wb < length arena)%nat).
    { subst arena. rewrite !length_app. cbn. lia. }
    apply Nat.ltb_lt in La as Lb. rewrite Lb. eexists. split; [reflexivity|].
    rewrite length_insert. lia.
  - apply Nat.leb_gt in G. apply Nat.ltb_lt in G as Gb. rewrite Gb.
    eexists. split; [reflexivity|]. rewrite length_insert. lia.
Qed.

Lemma appendEntry_spec cf e delta wb es :
  index (entries wb) cf = Some es ->
  exists wb',
    appendEntry cf e delta wb = (Ok tt, wb') /\
    appendedOne wb wb' cf e delta /\
    entryArena wb' = entryArena wb /\ entryArenaIdx wb' = entryArenaIdx wb.
Proof.
  intros I. unfold appendEntry. rewrite I. eexists. split; [reflexivity|].
  destruct (index_Some_lt _ _ _ I) as [P L].
  split; [|split; reflexivity].
  exists es. split; [exact I|]. cbn. split; [|split; [|split; [|auto]]].
  - unfold index. apply Z.ltb_ge in P. rewrite P.
    apply list_lookup_insert_eq. exact L.
  - intros cf' Ne. unfold index. destruct (cf' <? 0)%Z eqn:E; [reflexivity|].
    apply list_lookup_insert_ne. apply Z.ltb_ge in E. lia.
  - apply length_insert.
Qed.

Lemma write_checked_entry cf key val delta wb managed :
  wellFormed wb -> index (cfConfs wb) cf = Some managed ->
  exists wb',
    (e ← allocEntry key val; appendEntry cf e delta) wb = (Ok tt, wb') /\
    appendedOne wb wb' cf (memtable.mk key val) delta /\ wellFormed wb'.
Proof.
  intros [Wl Wa] I.
  destruct (index_Some_lt _ _ _ I) as [P L]. rewrite <- Wl in L.
  destruct (index_lt_Some _ _ P L) as [es Ie].
  destruct (allocEntry_spec key val wb Wa) as (arena & A & La).
  run_monad. rewrite A.
  set (wb1 := mk _ _ _ _ arena _).
  destruct (appendEntry_spec cf (memtable.mk key val) delta wb1 es Ie)
    as (wb' & R & Ap & Ea & Ei).
  exists wb'. split; [exact R|]. split; [exact Ap|].
  destruct Ap as (es' & _ & _ & _ & Len & _ & Cc & _).
  split; [cbn in Len, Cc; congruence|]. rewrite Ea, Ei. exact La.
Qed.

(** C10. For a column family index within the batch's configuration:
    when the column family is managed and the version is zero, or it is
    not managed and the version is not zero, [Put] and [Delete] return an
    error and leave the batch as it was; otherwise they append exactly
    one entry to the list of that column family, add its size to the
    estimated size, and return [nil]. *)
Theorem put_and_delete_check_the_version wb cf key val version managed :
  wellFormed wb -> index (cfConfs wb) cf = Some managed ->
  (if versionRejected managed (y.VVersion val)
   then exists msg, Put cf key val wb = (Err (errorf msg), wb)
   else exists wb',
       Put cf key val wb = (Ok tt, wb') /\
       appendedOne wb wb' cf (memtable.mk key val)
         (wrap64 (wrap64 (Z.of_nat (String.length key) + EncodedSize val)
                  + EstimateNodeSize)) /\
       wellFormed wb') /\
  (if versionRejected managed version
   then exists msg, Delete cf key version wb = (Err (errorf msg), wb)
   else exists wb',
       Delete cf key version wb = (Ok tt, wb') /\
       appendedOne wb wb' cf (memtable.mk key (y.mkValue y.bitDelete "" "" version))
         (wrap64 (Z.of_nat (String.length key) + EstimateNodeSize)) /\
       wellFormed wb').
Proof.
  intros W I. split.
  - destruct (write_checked_entry cf key val
                (wrap64 (wrap64 (Z.of_nat (String.length key) + EncodedSize val)
                         + EstimateNodeSize)) wb managed W I)
      as (wb' & R & Ap & Wf).
    unfold Put. run_monad. rewrite (checkVersion_spec _ _ _ _ I).
    destruct (versionRejected managed (y.VVersion val)); [eauto|].
    exists wb'. auto.
  - destruct (write_checked_entry cf key (y.mkValue y.bitDelete "" "" version)
                (wrap64 (Z.of_nat (String.length key) + EstimateNodeSize))
                wb managed W I)
      as (wb' & R & Ap & Wf).
    unfold Delete. run_monad. rewrite (checkVersion_spec _ _ _ _ I).
    destruct (versionRejected managed version); [eauto|].
    exists wb'. auto.
Qed.

(** *** The rest of the batch: counting, resetting and reading back *)

(** [wb.SetProperty(key, val)] *)
Definition SetProperty (key val : string) (wb : t) : t :=
  mk (cfConfs wb) (entries wb) (estimatedSize wb) (<[key := val]> (properties wb))
     (entryArena wb) (entryArenaIdx wb).

(** [wb.EstimatedSize()] *)
Definition EstimatedSize (wb : t) : Z := estimatedSize wb.

(** [wb.NumEntries()]: an [int] sum of the lengths. *)
Definition NumEntries (wb : t) : Z :=
  fold_left (fun n es => wrap64 (n + Z.of_nat (length es))) (entries wb) 0%Z.

(** [wb.Reset()]: every entry list is cut to length 0, the properties
    are deleted one by one, the arena is kept and handed out again from
    its start. *)
Definition Reset (wb : t) : t :=
  mk (cfConfs wb) ((fun es => take 0 es) <$> entries wb) 0
     (map_fold (fun key _ props => delete key props) (properties wb) (properties wb))
     (entryArena wb) 0.



(** The sum of the lengths without the wrap-around. *)
Definition totalEntries (ess : list (list memtable.Entry)) : Z :=
  fold_right (fun es acc => (Z.of_nat (length es) + acc)%Z) 0%Z ess.

Lemma fold_lengths (ess : list (list memtable.Entry)) : forall a,
  fold_left (fun n es => wrap64 (n + Z.of_nat (length es))) ess (wrap64 a)
  = wrap64 (a + totalEntries ess).
Proof.
  induction ess as [|es rest IH]; intros a; cbn [fold_left].
  - f_equal. cbn. lia.
  - rewrite wrap64_add_l, IH. f_equal. unfold totalEntries. cbn [fold_right]. lia.
Qed.

Lemma NumEntries_total wb : NumEntries wb = wrap64 (totalEntries (entries wb)).
Proof.
  unfold NumEntries. change 0%Z with (wrap64 0) at 1.
  rewrite fold_lengths. reflexivity.
Qed.


Lemma totalEntries_replicate n : totalEntries (replicate n []) = 0%Z.
Proof. induction n as [|n IH]; [reflexivity|]. cbn. exact IH. Qed.


Lemma foldr_delete_Some (l : list (string * string)) (acc : gmap string string) j v :
  foldr (uncurry (fun key (_ : string) props => delete key props)) acc l !! j = Some v ->
  acc !! j = Some v /\ j ∉ l.*1.
Proof.
  induction l as [|[k x] l IH]; cbn [foldr uncurry fmap list_fmap fst].
  - intros L. split; [exact L|]. apply not_elem_of_nil.
  - intros L. apply lookup_delete_Some in L as [Ne L].
    destruct (IH L) as [A Nin]. split; [exact A|].
    apply not_elem_of_cons. split; [congruence|exact Nin].
Qed.

Lemma map_fold_delete_all (props : gmap string string) :
  map_fold (fun key _ acc => delete key acc) props props = ∅.
Proof.
  rewrite map_fold_foldr. apply map_empty. intros j.
  destruct (foldr _ _ _ !! j) as [v|] eqn:E; [|reflexivity].
  apply foldr_delete_Some in E as [A Nin]. exfalso. apply Nin.
  apply list_elem_of_fmap. exists (j, v). split; [reflexivity|].
  apply elem_of_map_to_list. exact A.
Qed.

(** X16. [Reset] returns a batch to what [NewWriteBatch] makes for the
    same column families, except that the arena is kept: no entries, no
    properties, size 0; and the next accepted [Put] takes its entry from
    the kept arena without growing it. *)
Theorem reset_batch_is_as_new wb :
  wellFormed wb ->
  Reset wb = mk (cfConfs wb) (replicate (length (cfConfs wb)) []) 0 ∅ (entryArena wb) 0 /\
  wellFormed (Reset wb) /\
  NumEntries (Reset wb) = 0%Z /\
  (forall cf key val managed,
      index (cfConfs wb) cf = Some managed ->
      versionRejected managed (y.VVersion val) = false ->
      entryArena wb <> [] ->
      exists wb',
        Put cf key val (Reset wb) = (Ok tt, wb') /\
        index (entries wb') cf = Some [memtable.mk key val] /\
        entryArena wb' = <[0%nat := memtable.mk key val]> (entryArena wb) /\
        entryArenaIdx wb' = 1%nat).
Proof.
  intros [Wl Wa].
  assert (E : Reset wb
              = mk (cfConfs wb) (replicate (length (cfConfs wb)) []) 0 ∅ (entryArena wb) 0).
  { unfold Reset. rewrite map_fold_delete_all. f_equal.
    rewrite <- Wl. clear. induction (entries wb) as [|es rest IH]; [reflexivity|].
    cbn. rewrite <- IH. reflexivity. }
  split; [exact E|]. rewrite E. split; [|split].
  - split; cbn; [apply length_replicate|lia].
  - rewrite NumEntries_total. cbn [entries].
    rewrite totalEntries_replicate. reflexivity.
  - intros cf key val managed I V Ne.
    destruct (index_Some_lt _ _ _ I) as [P L].
    unfold Put. run_monad. cbn [cfConfs].
    rewrite (checkVersion_spec cf (y.VVersion val)
               (mk (cfConfs wb) (replicate (length (cfConfs wb)) []) 0 ∅ (entryArena wb) 0)
               managed I), V.
    unfold allocEntry. cbn [entryArena entryArenaIdx cfConfs entries estimatedSize properties].
    destruct (entryArena wb) as [|a arena] eqn:A; [contradiction|].
    cbn [length Nat.leb Nat.ltb].
    unfold appendEntry, index. cbn [entries].
    apply Z.ltb_ge in P. rewrite P.
    rewrite lookup_replicate_2 by exact L.
    eexists. split; [reflexivity|]. cbn [entries entryArena entryArenaIdx].
    rewrite ?P. split; [|split; reflexivity].
    apply list_lookup_insert_eq. rewrite length_replicate. exact L.
Qed.






End Batch.

End WriteBatch.

(** ** Worked examples for planning and installation *)

(** A sorting algorithm that can stand for [sort.Slice]: insertion
    sort. *)
Fixpoint insertSorted {A : Type} (less : A -> A -> bool) (x : A) (l : list A) : list A :=
  match l with
  | [] => [x]
  | y :: rest => if less y x then y :: insertSorted less x rest else x :: l
  end.

Definition insertionSort (A : Type) (less : A -> A -> bool) (l : list A) : list A :=
  fold_right (insertSorted less) [] l.

Lemma insertSorted_Permutation {A : Type} (less : A -> A -> bool) x l :
  Permutation (insertSorted less x l) (x :: l).
Proof.
  induction l as [|y rest IH]; cbn; [reflexivity|].
  destruct (less y x); [|reflexivity].
  rewrite IH. apply perm_swap.
Qed.

Lemma insertSorted_Sorted {A : Type} (less : A -> A -> bool) x l :
  (forall a b, less a b = true -> less b a = false) ->
  Sorted (fun a b => less b a = false) l ->
  Sorted (fun a b => less b a = false) (insertSorted less x l).
Proof.
  intros Asym. induction l as [|y rest IH]; cbn; intros S.
  { repeat constructor. }
  apply Sorted_inv in S as [S Hd].
  destruct (less y x) eqn:L.
  - constructor; [apply IH; exact S|].
    destruct rest as [|z rest]; cbn.
    + constructor. apply Asym. exact L.
    + destruct (less z x); constructor.
      * apply HdRel_inv in Hd. exact Hd.
      * apply Asym. exact L.
  - constructor; [constructor; assumption|]. constructor. exact L.
Qed.

Lemma insertionSort_contract : SortContract insertionSort.
Proof.
  intros A less l. split.
  - induction l as [|x l IH]; cbn; [reflexivity|].
    rewrite insertSorted_Permutation, IH. reflexivity.
  - intros Asym Trans. apply Sorted_StronglySorted.
    + intros a b c. apply Trans.
    + induction l as [|x l IH]; cbn; [constructor|].
      apply insertSorted_Sorted; assumption.
Qed.

(** Scenario S2: level 1 of column family 0 holds the table [exT]
    ([a] to [c]); level 2 is empty. *)
Definition exT : sstInfo := mkSST 7 (y.mkKey "a" 9) (y.mkKey "c" 1) (2 * 1024 * 1024).

Definition exShard : Shard :=
  mkShard 1 1 [[mkLevelHandler 100 1 [exT] (sstSize exT); mkLevelHandler 101 2 [] 0]]
    [] (sstSize exT) true false false.

Definition exEngine : Engine :=
  mkEngine (mkOptions [true] (8 * 1024 * 1024) None) 1 50 40
    {[ 7%N := exT ]} None [] exShard 200 [] None.

Definition exMove : CompactDef sstInfo :=
  mkCompactDef 0 1 [exT] [] [] 0 None false 0
    (mkKeyRange (sstSmallest exT) (sstBiggest exT) false)
    (mkKeyRange (sstSmallest exT) (sstBiggest exT) false).

(** A compactor and a table preparation for the scenario; a move never
    reaches them. *)
Definition exCompact (cd : CompactDef sstInfo) : M (@Engine sstInfo) (list BuildResult) :=
  fun en => (Err (errIO "compactor"), en).

Definition exPrepare (t : sstInfo) : option error := None.

Definition noInterference (cf level : Z) (s : @Shard sstInfo) : @Shard sstInfo := s.

Definition slotTables (en : @Engine sstInfo) (cf level : Z) : option (list sstInfo) :=
  tables <$> slot (shard en) cf level.

(** Scenario S2, move-down: the job moves [exT] from level 1 to level 2
    with its id; after the install level 1 is empty and level 2 holds
    [exT]. *)
Lemma move_down_is_a_logical_move_witness :
  exists en',
    runCompactionDef insertionSort exCompact exPrepare noInterference 0 exMove exEngine
    = (Ok tt, en') /\
    slotTables en' 0 1 = Some [] /\
    slotTables en' 0 2 = Some [exT] /\
    manifest en'
    = [newShardChangeSet exShard
         (protos.ShardCompaction.mk 0 1 [protos.TableCreate.mk 7 2 0 "a" "c"] [7%N] [])].
Proof.
  destruct (move_down_is_a_logical_move insertionSort exCompact exPrepare
              noInterference 0 exMove exEngine
              ltac:(reflexivity) eq_refl eq_refl) as (_ & R & _).
  rewrite R. eexists. split; [vm_compute; reflexivity|].
  repeat split; vm_compute; reflexivity.
Defined.

(** Two tables whose key ranges overlap: [a..c] and [b..d]. *)
Definition exLeft : sstInfo := mkSST 1 (y.mkKey "a" 9) (y.mkKey "c" 1) 10.
Definition exRight : sstInfo := mkSST 2 (y.mkKey "b" 9) (y.mkKey "d" 1) 10.

(** Two more, apart from [exLeft] and from each other: [cc..d] and
    [e..f]. *)
Definition exMid : sstInfo := mkSST 4 (y.mkKey "cc" 9) (y.mkKey "d" 1) 20.
Definition exFar : sstInfo := mkSST 3 (y.mkKey "e" 9) (y.mkKey "f" 1) 30.

(** Level 1 holds [a..c] and [e..f]; the file of [cc..d] is in the
    directory. *)
Definition exOrderedEngine : Engine :=
  mkEngine (mkOptions [true] (8 * 1024 * 1024) None) 1 50 40
    {[ 4%N := exMid ]} None []
    (mkShard 1 1 [[mkLevelHandler 100 1 [exLeft; exFar] 40]] [] 40 true false false)
    200 [] None.

(** The install of [cc..d] into level 1 appends it to the old tables and
    sorts: the slot holds [a..c], [cc..d], [e..f], and both pairs of
    neighbours pass the three tests. *)
Lemma install_keeps_neighbours_ordered_witness :
  exists del' en' h,
    compactionUpdateLevelHandler insertionSort (fun s => s) 0 1
      [protos.TableCreate.mk 4 1 0 "cc" "d"] [] ∅ exOrderedEngine
    = (Ok del', en') /\
    slot (shard en') 0 1 = Some h /\
    tables h = [exLeft; exMid; exFar] /\
    neighboursOrdered (tables h).
Proof.
  destruct (compactionUpdateLevelHandler insertionSort (fun s => s) 0 1
              [protos.TableCreate.mk 4 1 0 "cc" "d"] [] ∅ exOrderedEngine)
    as [[del'|e|msg] en'] eqn:E;
    [|exfalso; vm_compute in E; discriminate E..].
  destruct (proj2 (install_keeps_neighbours_ordered insertionSort)
              0%Z 1%Z _ _ _ _ _ _ ltac:(discriminate) E) as (h & Sl & Ord).
  exists del', en', h. split; [reflexivity|]. split; [exact Sl|].
  split; [|exact Ord].
  vm_compute in E. injection E as _ <-.
  vm_compute in Sl. injection Sl as <-. reflexivity.
Defined.

Definition exOverlapEngine : Engine :=
  mkEngine (mkOptions [true] (8 * 1024 * 1024) None) 1 50 40
    {[ 2%N := exRight ]} None []
    (mkShard 1 1 [[mkLevelHandler 100 1 [exLeft] 10]] [] 10 true false false)
    200 [] None.

(** C4 as stated fails: at level 1 the sequence [a..c], [b..d] is not
    disjoint ([c] is not below [b]), yet [assertTablesOrder] does not
    panic on it, and an install that creates [b..d] next to [a..c] goes
    through. *)
Lemma overlapping_tables_pass_the_assertion :
  ~ strictlyDisjoint [exLeft; exRight] /\
  assertTablesOrder (S := unit) 1 [exLeft; exRight] tt = (Ok tt, tt) /\
  exists del' en',
    compactionUpdateLevelHandler insertionSort (fun s => s) 0 1
      [protos.TableCreate.mk 2 1 0 "b" "d"] [] ∅ exOverlapEngine
    = (Ok del', en') /\
    slotTables en' 0 1 = Some [exLeft; exRight].
Proof.
  split; [|split].
  - intros D. specialize (D 0%nat exLeft exRight eq_refl eq_refl).
    vm_compute in D. discriminate D.
  - reflexivity.
  - eexists _, _. split; vm_compute; reflexivity.
Qed.

(** Another goroutine publishes a handler of its own (at address 999)
    into slot [(0, 2)]. *)
Definition exRacing : @levelHandler sstInfo := mkLevelHandler 999 2 [] 0.

Definition exRace (s : @Shard sstInfo) : @Shard sstInfo :=
  setCfs s (swapped (cfs s) 0 2 exRacing).

(** [exRace] strikes during the update of level 2 only. *)
Definition exInterference (cf level : Z) (s : @Shard sstInfo) : @Shard sstInfo :=
  if (level =? 2)%Z then exRace s else s.

Definition exMoveChange : protos.ShardChangeSet.t :=
  newShardChangeSet exShard
    (protos.ShardCompaction.mk 0 1 [protos.TableCreate.mk 7 2 0 "a" "c"] [7%N] []).

(** The update of level 2 loses its compare-and-swap against [exRace]:
    the slot keeps the handler of the other goroutine, and the function
    returns [nil] all the same. *)
Lemma failed_swap_goes_unreported_example :
  exists del' en',
    compactionUpdateLevelHandler insertionSort exRace 0 2
      [protos.TableCreate.mk 7 2 0 "a" "c"] [] ∅ exEngine
    = (Ok del', en') /\
    cfs (shard en') = cfs (exRace (shard exEngine)) /\
    slot (shard en') 0 2 = Some exRacing.
Proof.
  destruct (compactionUpdateLevelHandler insertionSort (fun s => s) 0 2
              [protos.TableCreate.mk 7 2 0 "a" "c"] [] ∅ exEngine)
    as [[del0|e|msg] en0] eqn:E;
    [|exfalso; vm_compute in E; discriminate E..].
  destruct (failed_swap_goes_unreported insertionSort exRace 0 2 _ _ _ _ _ _
              (mkLevelHandler 101 2 [] 0) exRacing E eq_refl eq_refl
              ltac:(discriminate)) as (en' & R & C).
  exists del0, en'. split; [exact R|].
  split; [exact C|]. eapply slot_same_cfs in C. rewrite C. reflexivity.
Defined.

(** C5. The code diverges from the claim at this input: while the move
    of [exT] from level 1 to level 2 is installed, another goroutine
    publishes a handler into slot [(0, 2)] and the compare-and-swap of
    that slot fails. The job is not aborted: [applyCompaction] returns
    [nil], and the first half of the change set stays installed (level 1
    has lost [exT]) although level 2 never received it. *)
Lemma failed_swap_leaves_half_an_install :
  slotTables exEngine 0 1 = Some [exT] /\
  exists en',
    applyCompaction insertionSort exInterference exMoveChange exEngine = (Ok tt, en') /\
    slot (shard en') 0 2 = Some exRacing /\
    slotTables en' 0 1 = Some [] /\
    slotTables en' 0 2 = Some [].
Proof.
  split; [reflexivity|]. eexists. split; [vm_compute; reflexivity|].
  repeat split; vm_compute; reflexivity.
Qed.

(** Replaying the move of scenario S2. *)
Lemma replayed_change_set_is_a_no_op_witness :
  exists en1,
    applyCompaction insertionSort noInterference exMoveChange exEngine = (Ok tt, en1) /\
    applyCompaction insertionSort noInterference exMoveChange en1 = (Ok tt, en1) /\
    slotTables en1 0 1 = Some [] /\ slotTables en1 0 2 = Some [exT].
Proof.
  destruct (applyCompaction insertionSort noInterference exMoveChange exEngine)
    as [[[]|e|msg] en1] eqn:E;
    [|exfalso; vm_compute in E; discriminate E..].
  exists en1. split; [reflexivity|].
  destruct (replayed_change_set_is_a_no_op insertionSort
              (fun _ => mret tt) (fun _ => mret tt)
              noInterference noInterference exMoveChange exEngine en1 E)
    as [R _].
  split; [exact R|].
  vm_compute in E. injection E as <-. split; vm_compute; reflexivity.
Defined.

(** Shards for the planner: the score of a shard is its estimated size
    in MiB. *)
Definition exPriority (s : @Shard sstInfo) : CompactionPriority :=
  mkPriority 0 1 (estimatedSize s # 1048576) s.

Definition exPlannedShard (id : N) (size : Z) (isCompacting isPassive isSplitting : bool)
  : @Shard sstInfo :=
  mkShard id 1 [] [] size isCompacting isPassive isSplitting.

(** Four shards: scores 2, 5, 1/2 and 3, the last one passive. *)
Lemma priorities_are_the_eligible_shards_by_score_witness :
  let visited := [exPlannedShard 1 (2 * 1048576) false false false;
                  exPlannedShard 2 (5 * 1048576) false false false;
                  exPlannedShard 3 524288 false false false;
                  exPlannedShard 4 (3 * 1048576) false true false] in
  ID <$> (PriShard <$> GetCompactionPriorities insertionSort exPriority visited)
  = [2%N; 1%N] /\
  StronglySorted (fun a b => (Score b <= Score a)%Q)
    (GetCompactionPriorities insertionSort exPriority visited).
Proof.
  cbv zeta. split; [vm_compute; reflexivity|].
  exact (proj1 (proj2 (priorities_are_the_eligible_shards_by_score insertionSort
                         exPriority _ insertionSort_contract))).
Defined.

(** C8 as stated fails: a splitting shard with score 2 that is neither
    passive nor compacting is returned by [GetCompactionPriorities]. *)
Lemma splitting_shard_is_returned :
  let s := exPlannedShard 1 (2 * 1048576) false false true in
  splitting s = true /\
  GetCompactionPriorities insertionSort exPriority [s] = [exPriority s].
Proof. cbv zeta. split; vm_compute; reflexivity. Qed.

(** A batch for the column families of [DefaultOpt] (managed, not
    managed, managed): a [Put] with version zero into the managed column
    family 0 is refused, a [Delete] with version 7 is accepted. *)
Lemma put_and_delete_check_the_version_witness :
  let wb := WriteBatch.NewWriteBatch [true; false; true] in
  (exists msg,
      WriteBatch.Put exEncodedSize 48 (fun n => 2 * n + 1)%nat 0 "k"
        (y.mkValue 0 "" "v" 0) wb
      = (Err (errorf msg), wb)) /\
  (exists wb',
      WriteBatch.Delete 48 (fun n => 2 * n + 1)%nat 0 "k" 7 wb = (Ok tt, wb') /\
      WriteBatch.appendedOne wb wb' 0
        (memtable.mk "k" (y.mkValue y.bitDelete "" "" 7))
        (wrap64 (Z.of_nat (String.length "k") + 48)) /\
      WriteBatch.wellFormed wb').
Proof.
  cbv zeta.
  exact (WriteBatch.put_and_delete_check_the_version exEncodedSize 48
           (fun n => 2 * n + 1)%nat (WriteBatch.NewWriteBatch [true; false; true])
           0 "k" (y.mkValue 0 "" "v" 0) 7 true
           (WriteBatch.NewWriteBatch_wellFormed _) eq_refl).
Defined.

(** Scenario S3, skipped bottom: the top table spans [a] to [b]; of the
    two bottom tables of the window, [a..b] (3 MiB) is overlapped and
    goes to [Bot], [x..z] (4 MiB) is not and goes to [SkippedTbls]. *)
Definition exTop : sstInfo :=
  mkSST 1 (y.mkKey "a" 9) (y.mkKey "b" 1) (2 * 1024 * 1024).
Definition exBotAB : sstInfo :=
  mkSST 2 (y.mkKey "a" 5) (y.mkKey "b" 0) (3 * 1024 * 1024).
Definition exBotXZ : sstInfo :=
  mkSST 3 (y.mkKey "x" 5) (y.mkKey "z" 0) (4 * 1024 * 1024).

Definition exSkipJob : CompactDef sstInfo :=
  mkCompactDef 0 1 [exTop] [] [] 0 None false 0
    (mkKeyRange (sstSmallest exTop) (sstBiggest exTop) false)
    (mkKeyRange (sstSmallest exBotAB) (sstBiggest exBotXZ) false).

Lemma fillBottomTables_skips_untouched_big_tables_witness :
  SkippedTbls (fillBottomTables exSkipJob [exBotAB; exBotXZ]) = [exBotXZ] /\
  Bot (fillBottomTables exSkipJob [exBotAB; exBotXZ]) = [exBotAB].
Proof.
  destruct (fillBottomTables_skips_untouched_big_tables exSkipJob [exBotAB; exBotXZ])
    as (_ & S & B & _).
  rewrite S, B. split; vm_compute; reflexivity.
Defined.

(** ** Worked examples for the further properties *)

(** X1: ["k"@40] is above [SafeTS = 30] and is written. *)
Lemma versions_above_safe_ts_survive_witness :
  exists results st' latest',
    exRun (exJob 30 false 100) [exPut "k" 40 "new"; exPut "k" 20 "old"]
    = Some (results, st', latest') /\
    In (exPut "k" 40 "new") (outputEntries results).
Proof.
  assert (S : IterOrdered [exPut "k" 40 "new"; exPut "k" 20 "old"]) by iter_ordered.
  exact (versions_above_safe_ts_survive exEncodedSize exKeyLen exEstimateSize
           (exJob 30 false 100) _ 0%N (mkStats 0 0 0 0) (mkDiscard 0 0)
           (exPut "k" 40 "new") S ltac:(left; reflexivity) ltac:(reflexivity)).
Defined.

(** X2: two entries above [SafeTS = 30] are copied as they are. *)
Lemma nothing_to_collect_copies_the_input_witness :
  exists results st' latest',
    exRun (exJob 30 false 100) [exPut "k" 40 "a"; exPut "l" 50 "b"]
    = Some (results, st', latest') /\
    outputEntries results = [exPut "k" 40 "a"; exPut "l" 50 "b"].
Proof.
  exact (nothing_to_collect_copies_the_input exEncodedSize exKeyLen exEstimateSize
           (exJob 30 false 100) [exPut "k" 40 "a"; exPut "l" 50 "b"] 0%N
           (mkStats 0 0 0 0) (mkDiscard 0 0)
           ltac:(repeat constructor)).
Defined.

(** X4: three user keys under a size limit of zero give tables with
    ids above the counter. *)
Lemma output_tables_carry_fresh_ids_witness :
  exists results st' latest',
    exRun (exJob 30 true 0) [exPut "k" 40 "a"; exPut "l" 5 "c"; exPut "m" 50 "d"]
    = Some (results, st', latest') /\
    Forall (fun r => Entries r <> [] /\ (0 < FileName r <= latest')%N) results /\
    (latest' <= 3)%N.
Proof.
  destruct (output_tables_carry_fresh_ids exEncodedSize exKeyLen exEstimateSize
              (exJob 30 true 0) [exPut "k" 40 "a"; exPut "l" 5 "c"; exPut "m" 50 "d"]
              0%N (mkStats 0 0 0 0) (mkDiscard 0 0) ltac:(reflexivity))
    as (results & st' & latest' & R & F & _ & L).
  exists results, st', latest'. split; [exact R|]. split; [exact F|exact L].
Defined.

(** X8: in [exOverlapEngine], whose level 1 holds [exLeft], the install
    creates [exRight] and deletes [exLeft]: the level holds [exRight]
    alone, and [exLeft] goes to the deletions. *)
Lemma install_swaps_deleted_tables_for_created_ones_witness :
  exists del' en' oldLevel h opened,
    compactionUpdateLevelHandler insertionSort (fun s => s) 0 1
      [protos.TableCreate.mk 2 1 0 "b" "d"] [1%N] ∅ exOverlapEngine
    = (Ok del', en') /\
    slot (shard exOverlapEngine) 0 1 = Some oldLevel /\
    slot (shard en') 0 1 = Some h /\
    Permutation (tables h) (opened ++ keptTables [1%N] (tables oldLevel)) /\
    totalSize h = sumTableSize (tables h) /\
    tables h = [exRight] /\ del' !! 1%N = Some exLeft.
Proof.
  destruct (compactionUpdateLevelHandler insertionSort (fun s => s) 0 1
              [protos.TableCreate.mk 2 1 0 "b" "d"] [1%N] ∅ exOverlapEngine)
    as [[del'|e|msg] en'] eqn:E;
    [|exfalso; vm_compute in E; discriminate E..].
  destruct (install_swaps_deleted_tables_for_created_ones insertionSort
              0%Z 1%Z [protos.TableCreate.mk 2 1 0 "b" "d"] [1%N] ∅ exOverlapEngine
              del' en' insertionSort_contract E)
    as (oldLevel & h & opened & A & B & _ & P & _ & _ & Sz & _).
  exists del', en', oldLevel, h, opened.
  split; [reflexivity|]. split; [exact A|]. split; [exact B|].
  split; [exact P|]. split; [exact Sz|].
  vm_compute in E. injection E as <- <-.
  vm_compute in B. injection B as <-. split; reflexivity.
Defined.


(** X10: deleting the middle one of three ordered tables. *)
Definition exThree : @levelHandler sstInfo :=
  mkLevelHandler 100 1 [exLeft; exRight; exFar] 50.

Lemma deleteTables_keeps_order_and_size_witness :
  exists h,
    deleteTables exThree [exRight] exEngine = (Ok h, setNextPtr exEngine 201) /\
    tables h = [exLeft; exFar] /\ totalSize h = 40%Z.
Proof.
  destruct (deleteTables_keeps_order_and_size exThree [exRight] exEngine
              ltac:(right; apply orderViolated_false; reflexivity))
    as (h & R & Tb & _ & _ & _ & Sz).
  exists h. split; [exact R|]. split; [exact Tb|].
  rewrite (Sz eq_refl), Tb. reflexivity.
Defined.

(** X12 to X15: a level-0 build over three entries, with
    [safeTS = 30]. *)
Definition exHelper : L0Build.shardL0BuildHelper :=
  L0Build.mkHelper [] y.zeroKey y.zeroKey 30 None
    [exDel "k" 20; exPut "k" 10 "old"; exPut "l" 40 "x"].

Lemma exHelper_ordered : IterOrdered (L0Build.iter exHelper).
Proof. cbn. iter_ordered. Qed.

Lemma L0_build_writes_what_a_job_with_overlap_writes_witness :
  exists results h' latest' cresults st clatest,
    L0Build.buildTables exEstimateSize 4 100 exHelper 0 [] = Some (results, h', latest') /\
    L0Build.iter h' = [] /\
    exRun (exJob 30 true 100) (L0Build.iter exHelper) = Some (cresults, st, clatest) /\
    outputEntries results = outputEntries cresults.
Proof.
  exact (L0Build.L0_build_writes_what_a_job_with_overlap_writes
           exEncodedSize exKeyLen exEstimateSize (exJob 30 true 100) 100 exHelper
           0%N 0%N (mkStats 0 0 0 0) (mkDiscard 0 0)
           ltac:(repeat split) ltac:(discriminate)).
Defined.

Lemma L0_build_keeps_the_newest_tombstone_witness :
  exists results h' latest',
    L0Build.buildTables exEstimateSize 4 100 exHelper 0 [] = Some (results, h', latest') /\
    List.filter (below (exJob 30 true 100) "k") (outputEntries results) = [exDel "k" 20].
Proof.
  exact (L0Build.L0_build_keeps_the_newest_tombstone exEstimateSize
           (exJob 30 true 100) 100 exHelper 0%N "k" (exDel "k" 20) [exPut "k" 10 "old"]
           ltac:(repeat split) ltac:(discriminate) exHelper_ordered
           ltac:(discriminate) eq_refl eq_refl).
Defined.

Lemma L0_build_splits_at_user_key_boundaries_witness :
  exists results h' latest',
    L0Build.buildTables exEstimateSize 4 0 exHelper 0 [] = Some (results, h', latest') /\
    Forall (fun r => Entries r <> []) results /\
    Forall (fun r => (0 < exEstimateSize (Entries r))%Z) (removelast results).
Proof.
  destruct (L0Build.L0_build_splits_at_user_key_boundaries exEstimateSize 0 exHelper
              0%N exHelper_ordered)
    as (results & h' & latest' & R & Ne & _ & Ov).
  exists results, h', latest'. auto.
Defined.

Lemma L0_build_builds_nothing_under_a_tiny_limit_witness :
  exists h',
    L0Build.buildTables exEstimateSize 4 (-1) exHelper 0 [] = Some ([], h', wrapU64 1) /\
    L0Build.iter h' = [exDel "k" 20; exPut "k" 10 "old"; exPut "l" 40 "x"].
Proof.
  exact (L0Build.L0_build_builds_nothing_under_a_tiny_limit exEstimateSize (-1) exHelper
           0%N (exDel "k" 20) [exPut "k" 10 "old"; exPut "l" 40 "x"] 3
           ltac:(reflexivity) eq_refl ltac:(discriminate)).
Defined.

(** X16: a batch with one entry and one property, reset. *)
Definition exUsedBatch : WriteBatch.t :=
  WriteBatch.mk [true] [[memtable.mk "a" (y.mkValue 0 "" "v" 5)]] 60
    {[ "p" := "q" ]} [memtable.mk "a" (y.mkValue 0 "" "v" 5)] 1.

Lemma reset_batch_is_as_new_witness :
  WriteBatch.Reset exUsedBatch
  = WriteBatch.mk [true] [[]] 0 ∅ [memtable.mk "a" (y.mkValue 0 "" "v" 5)] 0 /\
  WriteBatch.NumEntries (WriteBatch.Reset exUsedBatch) = 0%Z.
Proof.
  destruct (WriteBatch.reset_batch_is_as_new exEncodedSize 48 (fun n => 2 * n + 1)%nat
              exUsedBatch ltac:(split; cbn; lia))
    as (E & _ & Nm & _).
  split; [exact E|exact Nm].
Defined.



(** X18: three user keys under a size limit of zero: three tables, and
    the two entries on which a table was closed are read twice. *)
Lemma read_counter_counts_table_boundaries_twice_witness :
  exists results st' latest',
    exRun (exJob 30 true 0) [exPut "k" 40 "a"; exPut "l" 5 "c"; exPut "m" 50 "d"]
    = Some (results, st', latest') /\
    KeysRead (stats st') = 5%Z /\ KeysWrite (stats st') = 3%Z /\ length results = 3.
Proof.
  destruct (read_counter_counts_table_boundaries_twice exEncodedSize exKeyLen
              exEstimateSize (exJob 30 true 0)
              [exPut "k" 40 "a"; exPut "l" 5 "c"; exPut "m" 50 "d"] 0%N
              (mkStats 0 0 0 0) (mkDiscard 0 0) eq_refl eq_refl)
    as (results & st' & latest' & rounds & R & _).
  exists results, st', latest'. split; [exact R|].
  vm_compute in R. injection R as <- <- <-. repeat split.
Defined.

(** X19: the skipped table ends at ["e"]; the input has keys on both
    sides of it. *)
Definition exSkipped : sstInfo := mkSST 5 (y.mkKey "d" 5) (y.mkKey "e" 0) 10.

Definition exAroundJob : CompactDef sstInfo :=
  mkCompactDef 0 1 [] [] [exSkipped] 30 None true 1000
    (mkKeyRange y.zeroKey y.zeroKey false) (mkKeyRange y.zeroKey y.zeroKey false).

Lemma output_tables_do_not_straddle_skipped_tables_witness :
  exists results st' latest',
    exRun exAroundJob [exPut "a" 40 "1"; exPut "c" 40 "2"; exPut "g" 40 "3"; exPut "h" 40 "4"]
    = Some (results, st', latest') /\
    (forall r t, In r results -> In t (SkippedTbls exAroundJob) ->
       (forall x, In x (Entries r) -> y.Compare (ekey x) (table.Biggest t) = Lt) \/
       (forall x, In x (Entries r) -> y.Compare (ekey x) (table.Biggest t) = Gt)) /\
    map (fun r => map userKeyOf (Entries r)) results = [["a"; "c"]; ["g"; "h"]].
Proof.
  assert (S : IterOrdered
                [exPut "a" 40 "1"; exPut "c" 40 "2"; exPut "g" 40 "3"; exPut "h" 40 "4"])
    by iter_ordered.
  destruct (output_tables_do_not_straddle_skipped_tables exEncodedSize exKeyLen
              exEstimateSize exAroundJob _ 0%N (mkStats 0 0 0 0) (mkDiscard 0 0) S
              ltac:(repeat constructor)
              ltac:(repeat constructor; intros E; vm_compute in E; discriminate E))
    as (results & st' & latest' & R & P).
  exists results, st', latest'. split; [exact R|]. split; [exact P|].
  vm_compute in R. injection R as <- <- <-. reflexivity.
Defined.

(** X20: preparing fails on [exT] of [Top] and on [exLeft] of [Bot],
    with different errors; the job returns the error of [exT], and the
    compactor is not reached. *)
Definition exFailingPrepare (t : sstInfo) : option error :=
  if (sstID t =? 7)%N then Some (errIO "prepare top")
  else if (sstID t =? 1)%N then Some (errIO "prepare bottom")
  else None.

Definition exMerge : CompactDef sstInfo :=
  mkCompactDef 0 1 [exT] [exLeft] [] 0 None false 0
    (mkKeyRange (sstSmallest exT) (sstBiggest exT) false)
    (mkKeyRange (sstSmallest exLeft) (sstBiggest exLeft) false).

Lemma failed_preparation_stops_the_job_witness :
  exFailingPrepare exLeft = Some (errIO "prepare bottom") /\
  runCompactionDef insertionSort exCompact exFailingPrepare noInterference 0 exMerge exEngine
  = (Err (errIO "prepare top"), exEngine).
Proof.
  split; [reflexivity|].
  destruct (failed_preparation_stops_the_job insertionSort exFailingPrepare exCompact
              noInterference 0%Z exMerge exEngine true eq_refl eq_refl
              ltac:(apply Exists_cons_hd; discriminate))
    as (pre & t & post & e & _ & _ & _ & R).
  rewrite R. vm_compute in R. injection R as <-. reflexivity.
Defined.
